(** * Crossword CSP solver (generate.py): shallow embedding and properties

    The embedding follows [CrosswordCreator] of generate.py method by
    method.  Conventions used throughout:

    - a Python [set] is a duplicate-free list, iterated in list order;
      [a - b] keeps the order of [a];
    - a Python [dict] is an association list in insertion order;
    - a method that touches [self.domains] is a computation in a state and
      exception monad; Python exceptions ([IndexError], [KeyError]) are
      explicit outcomes;
    - [self.domains] is a reference to a dictionary object: the objects live
      in a store and [deepcopy] allocates a new one, so that the aliasing
      created by [self.domains = domains_copy] is visible;
    - the module globals [BACKTRACK_COUNTER] and [WORDS_TESTED] are part of
      the state. *)

From Stdlib Require Import List String Ascii Arith Bool Lia ZArith.
From Stdlib Require Import Permutation Sorted.
Import ListNotations.

Set Implicit Arguments.

(* ------------------------------------------------------------------ *)
(** * Puzzle model *)
(* ------------------------------------------------------------------ *)

Inductive Direction := ACROSS | DOWN.

(** Modelled from the spec: the class [Variable] of crossword.py is not
    among the sources.  A slot has a start row, a start column, an
    orientation and a length, and is identified by these four attributes. *)
Record Var := mkVar {
  v_i : nat;
  v_j : nat;
  v_direction : Direction;
  v_length : nat
}.

Definition Direction_eqb (a b : Direction) : bool :=
  match a, b with
  | ACROSS, ACROSS | DOWN, DOWN => true
  | _, _ => false
  end.

Definition Var_eqb (x y : Var) : bool :=
  (v_i x =? v_i y) && (v_j x =? v_j y)
  && Direction_eqb (v_direction x) (v_direction y)
  && (v_length x =? v_length y).

(** Modelled from the spec: the class [Crossword] of crossword.py is not
    among the sources.  It supplies the set of slots, one shared word list
    and, for two slots, either "no overlap" ([None]) or the pair of
    character indices of the shared cell. *)
Record Crossword := mkCrossword {
  variables : list Var;
  words : list string;
  overlaps : Var -> Var -> option (nat * nat)
}.

Definition is_some {A} (o : option A) : bool :=
  match o with Some _ => true | None => false end.

(** Modelled from the spec: [Crossword.neighbors] is not among the sources.
    The neighbor set of a slot is the set of other slots with a defined
    overlap relation. *)
Definition neighbors (cw : Crossword) (x : Var) : list Var :=
  filter (fun v => negb (Var_eqb v x) && is_some (overlaps cw x v))
         (variables cw).

(* ------------------------------------------------------------------ *)
(** * Python containers *)
(* ------------------------------------------------------------------ *)

Definition mem_string (s : string) (l : list string) : bool :=
  existsb (String.eqb s) l.

(** [a - b] on sets of words. *)
Definition set_diff (a b : list string) : list string :=
  filter (fun s => negb (mem_string s b)) a.

Section Dict.
Variable V : Type.

Definition dict := list (Var * V).

Fixpoint dict_get (d : dict) (k : Var) : option V :=
  match d with
  | [] => None
  | (k', v) :: d' => if Var_eqb k' k then Some v else dict_get d' k
  end.

(** [d[k] = v]: replaces the value of an existing key in place, appends a
    new key at the end. *)
Fixpoint dict_set (d : dict) (k : Var) (v : V) : dict :=
  match d with
  | [] => [(k, v)]
  | (k', v') :: d' =>
      if Var_eqb k' k then (k', v) :: d' else (k', v') :: dict_set d' k v
  end.

(** [del d[k]] *)
Definition dict_del (d : dict) (k : Var) : dict :=
  filter (fun kv => negb (Var_eqb (fst kv) k)) d.

Definition dict_keys (d : dict) : list Var := map fst d.

Definition dict_mem (d : dict) (k : Var) : bool := is_some (dict_get d k).
End Dict.

(** The domain store: slot -> set of candidate words. *)
Definition Domains := dict (list string).

(** An assignment: slot -> chosen word. *)
Definition Assignment := dict string.

(* ------------------------------------------------------------------ *)
(** * State and exception monad *)
(* ------------------------------------------------------------------ *)

Inductive exn := IndexError | KeyError.

(** [OutOfFuel] does not exist in Python: it marks a run of the model whose
    recursion bound was too small. *)
Inductive outcome (A : Type) :=
| Ok (a : A)
| Raise (e : exn)
| OutOfFuel.
Arguments Ok {A} a.
Arguments Raise {A} e.
Arguments OutOfFuel {A}.

Definition M (St A : Type) := St -> outcome A * St.

Definition ret {St A} (a : A) : M St A := fun s => (Ok a, s).

Definition bind {St A B} (m : M St A) (k : A -> M St B) : M St B :=
  fun s =>
    match m s with
    | (Ok a, s') => k a s'
    | (Raise e, s') => (Raise e, s')
    | (OutOfFuel, s') => (OutOfFuel, s')
    end.

Definition raise {St A} (e : exn) : M St A := fun s => (Raise e, s).
Definition out_of_fuel {St A} : M St A := fun s => (OutOfFuel, s).
Definition lift {St A} (o : outcome A) : M St A := fun s => (o, s).
Definition get_state {St} : M St St := fun s => (Ok s, s).

Declare Scope py_scope.
Delimit Scope py_scope with py.
Notation "x <- m ;; k" := (bind m (fun x => k))
  (at level 61, m at next level, right associativity) : py_scope.
Notation "m ;; k" := (bind m (fun _ => k))
  (at level 61, right associativity) : py_scope.
Local Open Scope py_scope.

(* ------------------------------------------------------------------ *)
(** * Sorting ([list.sort] and [sorted] are stable) *)
(* ------------------------------------------------------------------ *)

Section Sort.
Variables A K : Type.
Variable leb : K -> K -> bool.

Fixpoint insert_by (x : A * K) (l : list (A * K)) : list (A * K) :=
  match l with
  | [] => [x]
  | y :: l' => if leb (snd x) (snd y) then x :: l else y :: insert_by x l'
  end.

(** Stable: an element stays in front of the later elements of equal key. *)
Definition sort_by (l : list (A * K)) : list (A * K) :=
  fold_right insert_by [] l.
End Sort.

(** Order on the tuples [(len(domain), -len(neighbors))]. *)
Definition key_leb (a b : nat * Z) : bool :=
  (fst a <? fst b) || ((fst a =? fst b) && (snd a <=? snd b)%Z).

(* ------------------------------------------------------------------ *)
(** * CrosswordCreator *)
(* ------------------------------------------------------------------ *)

Section Creator.
Variable cw : Crossword.

(** ** overlap_satisfied *)
Definition overlap_satisfied (x y : Var) (val_x val_y : string)
  : outcome bool :=
  match overlaps cw x y with
  | None => Ok true
  | Some (index_x, index_y) =>
      match String.get index_x val_x with
      | None => Raise IndexError
      | Some cx =>
          match String.get index_y val_y with
          | None => Raise IndexError
          | Some cy => Ok (Ascii.eqb cx cy)
          end
      end
  end.

(** ** Access to the dictionary [self.domains] refers to *)
Definition get_domain (x : Var) : M Domains (list string) :=
  fun d => match dict_get d x with
           | Some s => (Ok s, d)
           | None => (Raise KeyError, d)
           end.

Definition set_domain (x : Var) (s : list string) : M Domains unit :=
  fun d => (Ok tt, dict_set d x s).

Definition domain_keys : M Domains (list Var) :=
  fun d => (Ok (dict_keys d), d).

(** ** enforce_node_consistency *)
Fixpoint enforce_node_consistency_loop (ks : list Var) : M Domains unit :=
  match ks with
  | [] => ret tt
  | domain :: ks' =>
      let domain_length := v_length domain in
      vals <- get_domain domain ;;
      let to_remove :=
        filter (fun val => negb (String.length val =? domain_length)) vals in
      set_domain domain (set_diff vals to_remove) ;;
      enforce_node_consistency_loop ks'
  end.

Definition enforce_node_consistency : M Domains unit :=
  ks <- domain_keys ;; enforce_node_consistency_loop ks.

(** ** revise *)

(** The inner loop over [self.domains[y]]: is there a [val_y] with
    [val_x != val_y and overlap_satisfied(x, y, val_x, val_y)]?  The loop
    breaks at the first one. *)
Fixpoint revise_inner (x y : Var) (val_x : string) (vals_y : list string)
  : outcome bool :=
  match vals_y with
  | [] => Ok false
  | val_y :: rest =>
      if negb (String.eqb val_x val_y) then
        match overlap_satisfied x y val_x val_y with
        | Ok true => Ok true
        | Ok false => revise_inner x y val_x rest
        | Raise e => Raise e
        | OutOfFuel => OutOfFuel
        end
      else revise_inner x y val_x rest
  end.

(** The outer loop over [self.domains[x]], carrying [revision] and
    [to_remove]. *)
Fixpoint revise_loop (x y : Var) (vals_x : list string)
         (revision : bool) (to_remove : list string)
  : M Domains (bool * list string) :=
  match vals_x with
  | [] => ret (revision, to_remove)
  | val_x :: rest =>
      vals_y <- get_domain y ;;
      consistent <- lift (revise_inner x y val_x vals_y) ;;
      if consistent then revise_loop x y rest revision to_remove
      else revise_loop x y rest true (to_remove ++ [val_x])
  end.

Definition revise (x y : Var) : M Domains bool :=
  vals_x <- get_domain x ;;
  r <- revise_loop x y vals_x false [] ;;
  cur <- get_domain x ;;
  set_domain x (set_diff cur (snd r)) ;;
  ret (fst r).

(** ** ac3 *)

(** The default queue: every ordered pair of distinct keys. *)
Definition all_arcs (ks : list Var) : list (Var * Var) :=
  flat_map (fun domain_1 =>
              map (fun domain_2 => (domain_1, domain_2))
                  (filter (fun domain_2 => negb (Var_eqb domain_1 domain_2)) ks))
           ks.

Definition total_size (d : Domains) : nat :=
  fold_right (fun kv n => List.length (snd kv) + n) 0 d.

(** The [while arcs:] loop.  The Python list is kept as a stack whose top
    is its last element: [arcs.pop()] takes the head, [arcs.append(a)] is
    a cons. *)
Fixpoint ac3_loop (fuel : nat) (stack : list (Var * Var))
  : M Domains bool :=
  match stack with
  | [] => ret true
  | (domain_x, domain_y) :: rest =>
      match fuel with
      | O => out_of_fuel
      | S fuel' =>
          revised <- revise domain_x domain_y ;;
          if revised then
            vals_x <- get_domain domain_x ;;
            match vals_x with
            | [] => ret false
            | _ :: _ =>
                let zs := filter (fun z => negb (Var_eqb z domain_y))
                                 (neighbors cw domain_x) in
                ac3_loop fuel'
                         (rev (map (fun domain_z => (domain_z, domain_x)) zs)
                            ++ rest)
            end
          else ac3_loop fuel' rest
      end
  end.

(** A bound on the number of iterations of the loop: every iteration pops
    an arc, and pushes at most [len(variables)] arcs only after having
    removed a word from some domain. *)
Definition ac3_fuel (d : Domains) (arcs : list (Var * Var)) : nat :=
  List.length arcs + List.length (variables cw) * total_size d.

(** [arcs=None] is [None]; [if not arcs] holds for [None] and for the
    empty list. *)
Definition ac3 (arcs : option (list (Var * Var))) : M Domains bool :=
  arcs' <- match arcs with
           | Some (a :: l) => ret (a :: l)
           | Some [] | None => ks <- domain_keys ;; ret (all_arcs ks)
           end ;;
  d <- get_state ;;
  ac3_loop (ac3_fuel d arcs') (rev arcs').

(** ** assignment_complete *)
Definition assignment_complete (assignment : Assignment) : M Domains bool :=
  ks <- domain_keys ;;
  ret (forallb (fun domain => dict_mem assignment domain) ks).

(** ** consistent *)

(** The loop over [self.crossword.neighbors(variable_x)]. *)
Fixpoint consistent_neighbors (assignment : Assignment)
         (variable_x : Var) (value_x : string) (ys : list Var)
  : outcome bool :=
  match ys with
  | [] => Ok true
  | variable_y :: ys' =>
      match dict_get assignment variable_y with
      | Some value_y =>
          match overlap_satisfied variable_x variable_y value_x value_y with
          | Ok true => consistent_neighbors assignment variable_x value_x ys'
          | Ok false => Ok false
          | Raise e => Raise e
          | OutOfFuel => OutOfFuel
          end
      | None => consistent_neighbors assignment variable_x value_x ys'
      end
  end.

(** The loop over the entries of the assignment, carrying [processed]. *)
Fixpoint consistent_loop (assignment : Assignment) (processed : list string)
         (items : list (Var * string)) : outcome bool :=
  match items with
  | [] => Ok true
  | (variable_x, value_x) :: rest =>
      if mem_string value_x processed then Ok false
      else if negb (String.length value_x =? v_length variable_x) then Ok false
      else
        match consistent_neighbors assignment variable_x value_x
                                   (neighbors cw variable_x) with
        | Ok true => consistent_loop assignment (processed ++ [value_x]) rest
        | Ok false => Ok false
        | Raise e => Raise e
        | OutOfFuel => OutOfFuel
        end
  end.

Definition consistent (assignment : Assignment) : outcome bool :=
  consistent_loop assignment [] assignment.

(** ** order_domain_values *)

(** The loop over [self.domains[other_var]]. *)
Fixpoint ruleout_vals (var other_var : Var) (value : string)
         (other_vals : list string) (count : nat) : outcome nat :=
  match other_vals with
  | [] => Ok count
  | other_val :: rest =>
      match overlap_satisfied var other_var value other_val with
      | Ok true => ruleout_vals var other_var value rest count
      | Ok false => ruleout_vals var other_var value rest (S count)
      | Raise e => Raise e
      | OutOfFuel => OutOfFuel
      end
  end.

(** The loop over [self.crossword.neighbors(var)]. *)
Fixpoint ruleout_vars (var : Var) (value : string)
         (others : list Var) (count : nat) : M Domains nat :=
  match others with
  | [] => ret count
  | other_var :: rest =>
      other_vals <- get_domain other_var ;;
      count' <- lift (ruleout_vals var other_var value other_vals count) ;;
      ruleout_vars var value rest count'
  end.

(** The loop over [self.domains[var]], filling [values_ruleout]. *)
Fixpoint ruleout_all (var : Var) (vals : list string)
  : M Domains (list (string * nat)) :=
  match vals with
  | [] => ret []
  | value :: rest =>
      count <- ruleout_vars var value (neighbors cw var) 0 ;;
      values_ruleout <- ruleout_all var rest ;;
      ret ((value, count) :: values_ruleout)
  end.

Definition order_domain_values (var : Var) (assignment : Assignment)
  : M Domains (list string) :=
  vals <- get_domain var ;;
  values_ruleout <- ruleout_all var vals ;;
  ret (map fst (sort_by Nat.leb values_ruleout)).

(** ** select_unassigned_variable *)

(** The sort keys [(len(self.domains[x]), -len(neighbors(x)))]. *)
Fixpoint select_keys (vars : list Var)
  : M Domains (list (Var * (nat * Z))) :=
  match vars with
  | [] => ret []
  | x :: rest =>
      vals <- get_domain x ;;
      keyed <- select_keys rest ;;
      ret ((x, (List.length vals,
                (- Z.of_nat (List.length (neighbors cw x)))%Z)) :: keyed)
  end.

Definition select_unassigned_variable (assignment : Assignment)
  : M Domains Var :=
  ks <- domain_keys ;;
  let unassigned := filter (fun k => negb (dict_mem assignment k)) ks in
  keyed <- select_keys unassigned ;;
  match map fst (sort_by key_leb keyed) with
  | [] => raise IndexError
  | v :: _ => ret v
  end.

(** ** The state of the process *)

Record World := mkWorld {
  objects : list Domains;          (* the dictionaries allocated so far *)
  self_domains : nat;              (* the one [self.domains] refers to *)
  BACKTRACK_COUNTER : nat;
  WORDS_TESTED : nat
}.

Fixpoint list_update {A} (n : nat) (a : A) (l : list A) : list A :=
  match l, n with
  | [], _ => []
  | _ :: l', O => a :: l'
  | b :: l', S n' => b :: list_update n' a l'
  end.

Definition current (w : World) : Domains := nth (self_domains w) (objects w) [].

Definition with_current (w : World) (d : Domains) : World :=
  mkWorld (list_update (self_domains w) d (objects w)) (self_domains w)
          (BACKTRACK_COUNTER w) (WORDS_TESTED w).

(** Run a method on the dictionary [self.domains] refers to. *)
Definition through_domains {A} (m : M Domains A) : M World A :=
  fun w => let (o, d) := m (current w) in (o, with_current w d).

(** [deepcopy(self.domains)]: a new dictionary object. *)
Definition deepcopy_domains : M World nat :=
  fun w => (Ok (List.length (objects w)),
            mkWorld (objects w ++ [current w]) (self_domains w)
                    (BACKTRACK_COUNTER w) (WORDS_TESTED w)).

(** [self.domains = r] *)
Definition rebind_domains (r : nat) : M World unit :=
  fun w => (Ok tt, mkWorld (objects w) r (BACKTRACK_COUNTER w) (WORDS_TESTED w)).

Definition incr_BACKTRACK_COUNTER : M World unit :=
  fun w => (Ok tt, mkWorld (objects w) (self_domains w)
                           (S (BACKTRACK_COUNTER w)) (WORDS_TESTED w)).

Definition incr_WORDS_TESTED : M World unit :=
  fun w => (Ok tt, mkWorld (objects w) (self_domains w)
                           (BACKTRACK_COUNTER w) (S (WORDS_TESTED w))).

(** [if result:] on a value that is [None] or a dictionary. *)
Definition truthy (result : option Assignment) : bool :=
  match result with
  | Some (_ :: _) => true
  | _ => false
  end.

(** ** backtrack

    The assignment dictionary is passed by value: a call that returns a
    falsy result has deleted every entry it added, and a truthy result is
    returned at once by every caller. *)

(** The [for value in ...] loop; [recurse] is [self.backtrack]. *)
Fixpoint backtrack_loop (recurse : Assignment -> M World (option Assignment))
         (assignment : Assignment) (variable : Var) (vals : list string)
  : M World (option Assignment) :=
  match vals with
  | [] => ret None
  | value :: rest =>
      let assignment1 := dict_set assignment variable value in
      incr_WORDS_TESTED ;;
      ok <- lift (consistent assignment1) ;;
      r <- (if ok then
              result <- recurse assignment1 ;;
              ret (if truthy result then result else None)
            else ret None) ;;
      match r with
      | Some a => ret (Some a)
      | None => backtrack_loop recurse (dict_del assignment1 variable) variable rest
      end
  end.

Fixpoint backtrack (fuel : nat) (assignment : Assignment)
  : M World (option Assignment) :=
  match fuel with
  | O => out_of_fuel
  | S fuel' =>
      incr_BACKTRACK_COUNTER ;;
      complete <- through_domains (assignment_complete assignment) ;;
      if complete then ret (Some assignment)
      else
        variable <- through_domains (select_unassigned_variable assignment) ;;
        vals <- through_domains (order_domain_values variable assignment) ;;
        backtrack_loop (backtrack fuel') assignment variable vals
  end.

(** ** backtrack_ac3 *)

(** The arcs handed to [ac3] after [variable] has been given a value. *)
Definition arcs_to (variable : Var) : list (Var * Var) :=
  map (fun other_var => (other_var, variable)) (neighbors cw variable).

(** One iteration of the [for value in ...] loop.  [Some a]: the method
    returns [a]; [None]: the loop goes on. *)
Definition backtrack_ac3_try
           (recurse : Assignment -> M World (option Assignment))
           (assignment : Assignment) (variable : Var)
           (domains_copy : nat) (value : string)
  : M World (option Assignment) :=
  let assignment1 := dict_set assignment variable value in
  incr_WORDS_TESTED ;;
  ok <- lift (consistent assignment1) ;;
  r <- (if ok then
          through_domains (set_domain variable [value]) ;;
          through_domains (ac3 (Some (arcs_to variable))) ;;
          result <- recurse assignment1 ;;
          ret (if truthy result then result else None)
        else ret None) ;;
  match r with
  | Some a => ret (Some a)
  | None => rebind_domains domains_copy ;; ret None
  end.

Fixpoint backtrack_ac3_loop
         (recurse : Assignment -> M World (option Assignment))
         (assignment : Assignment) (variable : Var)
         (domains_copy : nat) (vals : list string)
  : M World (option Assignment) :=
  match vals with
  | [] => ret None
  | value :: rest =>
      r <- backtrack_ac3_try recurse assignment variable domains_copy value ;;
      match r with
      | Some a => ret (Some a)
      | None =>
          backtrack_ac3_loop recurse
            (dict_del (dict_set assignment variable value) variable)
            variable domains_copy rest
      end
  end.

Fixpoint backtrack_ac3 (fuel : nat) (assignment : Assignment)
  : M World (option Assignment) :=
  match fuel with
  | O => out_of_fuel
  | S fuel' =>
      incr_BACKTRACK_COUNTER ;;
      complete <- through_domains (assignment_complete assignment) ;;
      if complete then ret (Some assignment)
      else
        variable <- through_domains (select_unassigned_variable assignment) ;;
        domains_copy <- deepcopy_domains ;;
        vals <- through_domains (order_domain_values variable assignment) ;;
        backtrack_ac3_loop (backtrack_ac3 fuel') assignment variable
                           domains_copy vals
  end.

(** ** solve *)

(** The recursion of both searches is at most one call deeper than the
    number of slots. *)
Definition search_fuel (w : World) : nat := S (List.length (current w)).

Definition solve (interleaving : bool) : M World (option Assignment) :=
  through_domains enforce_node_consistency ;;
  through_domains (ac3 None) ;;
  w <- get_state ;;
  if negb interleaving then backtrack (search_fuel w) []
  else backtrack_ac3 (search_fuel w) [].

(** ** __init__ *)
Definition init : World :=
  mkWorld [map (fun var => (var, words cw)) (variables cw)] 0 0 0.

End Creator.

(** ** letter_grid *)

Definition Grid := list (list (option ascii)).

(** The cell of the [k]-th letter of a word in the slot [variable]. *)
Definition position (variable : Var) (k : nat) : nat * nat :=
  (v_i variable + match v_direction variable with DOWN => k | ACROSS => 0 end,
   v_j variable + match v_direction variable with ACROSS => k | DOWN => 0 end).

(** [letters[i][j] = c], an IndexError outside the grid. *)
Definition grid_store (i j : nat) (c : ascii) (letters : Grid)
  : outcome Grid :=
  match nth_error letters i with
  | None => Raise IndexError
  | Some row =>
      if j <? List.length row
      then Ok (list_update i (list_update j (Some c) row) letters)
      else Raise IndexError
  end.

(** The loop [for k in range(len(word))]. *)
Fixpoint letter_grid_word (variable : Var) (word : string) (ks : list nat)
         (letters : Grid) : outcome Grid :=
  match ks with
  | [] => Ok letters
  | k :: rest =>
      let (i, j) := position variable k in
      match String.get k word with
      | None => Raise IndexError
      | Some c =>
          match grid_store i j c letters with
          | Ok letters' => letter_grid_word variable word rest letters'
          | Raise e => Raise e
          | OutOfFuel => OutOfFuel
          end
      end
  end.

(** The loop [for variable, word in assignment.items()]. *)
Fixpoint letter_grid_loop (items : Assignment) (letters : Grid)
  : outcome Grid :=
  match items with
  | [] => Ok letters
  | (variable, word) :: rest =>
      match letter_grid_word variable word (seq 0 (String.length word))
                             letters with
      | Ok letters' => letter_grid_loop rest letters'
      | Raise e => Raise e
      | OutOfFuel => OutOfFuel
      end
  end.

(** [height] and [width] stand for [self.crossword.height] and
    [self.crossword.width]. *)
Definition letter_grid (height width : nat) (assignment : Assignment)
  : outcome Grid :=
  letter_grid_loop assignment (repeat (repeat None width) height).


(* ------------------------------------------------------------------ *)
(** * Well-formed puzzles and invariants of the domain store *)
(* ------------------------------------------------------------------ *)

Definition swap_indices (p : nat * nat) : nat * nat := (snd p, fst p).

(** The overlap relation is read off the shared cell of two slots: it is the
    same cell seen from either slot. *)
Definition symmetric_overlaps (cw : Crossword) : Prop :=
  forall x y, In x (variables cw) -> In y (variables cw) ->
    overlaps cw y x = option_map swap_indices (overlaps cw x y).

(** The shared cell lies inside both slots. *)
Definition overlaps_in_range (cw : Crossword) : bool :=
  forallb (fun x =>
    forallb (fun y =>
      match overlaps cw x y with
      | Some (index_x, index_y) =>
          (index_x <? v_length x) && (index_y <? v_length y)
      | None => true
      end) (variables cw)) (variables cw).

(** Two neighboring slots [x], [y] are arc consistent in the store [d]. *)
Definition arc_consistent (cw : Crossword) (d : Domains) (x y : Var) : Prop :=
  forall vals_x vals_y,
    dict_get d x = Some vals_x -> dict_get d y = Some vals_y ->
    forall vx, In vx vals_x ->
      exists vy, In vy vals_y /\ vx <> vy
                 /\ overlap_satisfied cw x y vx vy = Ok true.

(** The assignment gives a word to every slot of the puzzle. *)
Definition complete (cw : Crossword) (a : Assignment) : Prop :=
  forall x, In x (variables cw) -> dict_mem a x = true.

(** Every assigned word is a word of the word list. *)
Definition uses_words (cw : Crossword) (a : Assignment) : Prop :=
  Forall (fun kv => In (snd kv) (words cw)) a.

(** Every dictionary of the store has the slots of the puzzle as keys and
    holds words of the word list only. *)
Definition store_ok (cw : Crossword) (d : Domains) : Prop :=
  dict_keys d = variables cw
  /\ Forall (fun kv => incl (snd kv) (words cw)) d.

Definition world_ok (cw : Crossword) (w : World) : Prop :=
  self_domains w < List.length (objects w)
  /\ Forall (store_ok cw) (objects w).

(** The state in which [solve] starts the search: after
    [enforce_node_consistency] and the full [ac3]. *)
Definition prepared (cw : Crossword) : World :=
  snd (bind (through_domains enforce_node_consistency)
            (fun _ => through_domains (ac3 cw None)) (init cw)).

(** [vx] finds a support in the domain of [y]: the inner loop of [revise]
    ends with [consistent = True]. *)
Definition supported (cw : Crossword) (d : Domains) (x y : Var) (vx : string)
  : bool :=
  match dict_get d y with
  | Some vals_y =>
      match revise_inner cw x y vx vals_y with
      | Ok true => true
      | _ => false
      end
  | None => false
  end.

(** Node consistency: every candidate of a slot has the length of the slot. *)
Definition node_consistent (d : Domains) : Prop :=
  forall x vals, dict_get d x = Some vals ->
    forall v, In v vals -> String.length v = v_length x.

(** ** Predicates used in the proofs *)

(** A computation that reads the dictionary and leaves it as it was. *)
Definition readonly {St A} (m : M St A) : Prop := forall s, snd (m s) = s.

(** The dictionaries and the reference [self.domains] are as before. *)
Definition same_domains (w w' : World) : Prop :=
  objects w' = objects w /\ self_domains w' = self_domains w.

(** A computation that leaves the domain store alone. *)
Definition frame {A} (m : M World A) : Prop :=
  forall w, same_domains w (snd (m w)).

(** The words of the right length for the slot [x]. *)
Definition fits (x : Var) (val : string) : bool :=
  String.length val =? v_length x.

Definition mem_var (x : Var) (ks : list Var) : bool := existsb (Var_eqb x) ks.

(** Keys are the slots; candidates have the length of their slot. *)
Definition store_wf (cw : Crossword) (d : Domains) : Prop :=
  dict_keys d = variables cw /\ node_consistent d.

(** The store is well formed and holds at least [n] dictionaries. *)
Definition world_inv (cw : Crossword) (n : nat) (w : World) : Prop :=
  world_ok cw w /\ n <= List.length (objects w).

(** What a returned assignment has to satisfy. *)
Definition solution (cw : Crossword) (a : Assignment) : Prop :=
  complete cw a /\ consistent cw a = Ok true /\ uses_words cw a.

(** Every arc between neighbors is waiting on the stack or consistent. *)
Definition pending (cw : Crossword) (stack : list (Var * Var)) (d : Domains)
  : Prop :=
  forall x y, In x (variables cw) -> In y (neighbors cw x) ->
    In (x, y) stack \/ arc_consistent cw d x y.

(** ** The three ways an assignment can be inconsistent *)

(** (a) two slots hold the same word *)
Definition repeated_word (a : Assignment) : Prop := ~ NoDup (map snd a).

(** (b) a word has not the length of its slot *)
Definition wrong_length (a : Assignment) : Prop :=
  exists x v, In (x, v) a /\ String.length v <> v_length x.

(** (c) two neighboring slots carry different letters at the shared cell *)
Definition overlap_conflict (cw : Crossword) (a : Assignment) : Prop :=
  exists x vx y vy,
    In (x, vx) a /\ In (y, vy) a /\ In y (neighbors cw x)
    /\ overlap_satisfied cw x y vx vy = Ok false.

(** The entries [pre] of the assignment [a] have gone through the loop of
    [consistent] without a [return False]. *)
Definition passed (cw : Crossword) (a pre : Assignment) : Prop :=
  NoDup (map snd pre)
  /\ (forall x v, In (x, v) pre -> String.length v = v_length x)
  /\ (forall x vx, In (x, vx) pre ->
       forall y vy, In y (neighbors cw x) -> dict_get a y = Some vy ->
                    overlap_satisfied cw x y vx vy = Ok true).

(** ** Termination *)

(** The computation does not stop for lack of recursion bound. *)
Definition finishes {St A} (m : M St A) : Prop :=
  forall s, fst (m s) <> OutOfFuel.

(** The number of slots among [ks] without a word in the assignment. *)
Definition unassigned (a : Assignment) (ks : list Var) : nat :=
  List.length (filter (fun k => negb (dict_mem a k)) ks).

(** ** Stores that only lose candidates *)

(** [d'] has the slots of [d], and every domain of [d'] is taken from the
    domain the slot has in [d]. *)
Definition shrinks (d d' : Domains) : Prop :=
  dict_keys d' = dict_keys d
  /\ forall x vals', dict_get d' x = Some vals' ->
       exists vals, dict_get d x = Some vals /\ incl vals' vals.

(** ** Assignments and stores *)

(** Every word of the assignment is a candidate of its slot in the store. *)
Definition within (a : Assignment) (d : Domains) : Prop :=
  forall x v vals, dict_get a x = Some v -> dict_get d x = Some vals ->
                   In v vals.

(** The assignment gives a word to every slot of the store. *)
Definition covers (a : Assignment) (d : Domains) : Prop :=
  forall x, In x (dict_keys d) -> dict_mem a x = true.

(** The arcs join different slots. *)
Definition proper_arcs (arcs : list (Var * Var)) : Prop :=
  forall x y, In (x, y) arcs -> x <> y.

(** The assignment is over slots of the puzzle, with words of their
    length. *)
Definition well_sized (cw : Crossword) (a : Assignment) : Prop :=
  forall x v, In (x, v) a ->
              In x (variables cw) /\ String.length v = v_length x.

(** The assignment [s] is a solution that the store [D] still holds: it
    gives every slot of the store a word of its domain, and it went through
    [consistent]. *)
Definition held_solution (cw : Crossword) (D : Domains) (s : Assignment)
  : Prop :=
  NoDup (dict_keys s)
  /\ (forall x v, In (x, v) s -> In x (variables cw))
  /\ passed cw s s
  /\ within s D
  /\ covers s D.

(** What a call of [backtrack] does on the store [D]: it returns, leaves
    the store alone, returns its argument or a non-empty assignment, and
    returns an assignment when its argument is a part of a solution that
    the store holds. *)
Definition plain_call (cw : Crossword) (D : Domains) (s : Assignment)
           (fuel : nat) (a : Assignment) : Prop :=
  forall w, current w = D ->
    exists res w',
      backtrack cw fuel a w = (Ok res, w')
      /\ current w' = D
      /\ (forall r, res = Some r -> r = a \/ r <> [])
      /\ (held_solution cw D s -> incl a s -> exists r, res = Some r).

(** Every dictionary of the store is node consistent over the slots of the
    puzzle, [self.domains] refers to one of them, and there are at least
    [n] of them. *)
Definition world_wf (cw : Crossword) (n : nat) (w : World) : Prop :=
  self_domains w < List.length (objects w)
  /\ Forall (store_wf cw) (objects w)
  /\ n <= List.length (objects w).

(** ** The heuristics *)

(** [not self.overlap_satisfied(var, other_var, value, other_val)] *)
Definition rules_out (cw : Crossword) (var other_var : Var)
           (value other_val : string) : bool :=
  match overlap_satisfied cw var other_var value other_val with
  | Ok false => true
  | _ => false
  end.

(** The number of candidates of the neighbors of [var] that the candidate
    [value] of [var] rules out in the store [d]. *)
Definition ruled_out (cw : Crossword) (d : Domains) (var : Var)
           (value : string) : nat :=
  list_sum
    (map (fun other_var =>
            List.length
              (filter (rules_out cw var other_var value)
                      (match dict_get d other_var with
                       | Some other_vals => other_vals
                       | None => []
                       end)))
         (neighbors cw var)).

(** The slot [v] with the candidates [vals] is at least as good a choice as
    the slot [x] with the candidates [xs]: fewer candidates, or as many and
    at least as many neighbors. *)
Definition preferred (cw : Crossword) (v : Var) (vals : list string)
           (x : Var) (xs : list string) : Prop :=
  List.length vals < List.length xs
  \/ (List.length vals = List.length xs
      /\ List.length (neighbors cw x) <= List.length (neighbors cw v)).

(** ** The letter grid *)

(** [letters[i][j]], with [None] outside the grid. *)
Definition cell (letters : Grid) (i j : nat) : option ascii :=
  nth j (nth i letters []) None.

Definition shaped (height width : nat) (letters : Grid) : Prop :=
  List.length letters = height
  /\ forall row, In row letters -> List.length row = width.

(** The index in the slot [x] of the cell [(i, j)], if the cell lies on the
    line of the slot at or after its start. *)
Definition offset (x : Var) (i j : nat) : option nat :=
  match v_direction x with
  | ACROSS => if (i =? v_i x) && (v_j x <=? j) then Some (j - v_j x) else None
  | DOWN => if (j =? v_j x) && (v_i x <=? i) then Some (i - v_i x) else None
  end.

(** The letter that [word], written into the slot [x], puts on the cell
    [(i, j)]. *)
Definition cell_letter (x : Var) (word : string) (i j : nat) : option ascii :=
  match offset x i j with
  | Some k => String.get k word
  | None => None
  end.

(** What the cell [(i, j)] shows once the entries of [a] have been written
    in turn over a cell showing [under]: the letter of the last entry that
    covers the cell. *)
Fixpoint shown (a : Assignment) (i j : nat) (under : option ascii)
  : option ascii :=
  match a with
  | [] => under
  | (x, word) :: rest =>
      shown rest i j (match cell_letter x word i j with
                      | Some c => Some c
                      | None => under
                      end)
  end.

(** The letters [s], ..., [s + n - 1] of a word in the slot [x] lie inside
    the grid. *)
Definition inside (height width : nat) (x : Var) (s n : nat) : bool :=
  forallb (fun k => (fst (position x k) <? height)
                    && (snd (position x k) <? width)) (seq s n).

(** The keys of the assignment are distinct slots of the puzzle. *)
Definition keys_ok (cw : Crossword) (a : Assignment) : Prop :=
  NoDup (dict_keys a) /\ forall x, In x (dict_keys a) -> In x (variables cw).

(** The number of candidates of the slot [x] in the store [d]. *)
Definition domain_size (d : Domains) (x : Var) : nat :=
  match dict_get d x with
  | Some vals => List.length vals
  | None => 0
  end.

(* ------------------------------------------------------------------ *)
(** * Example puzzles *)
(* ------------------------------------------------------------------ *)

Module Puzzle.

(** A 3x3 grid with the top row and the two outer columns open:
    one across slot and two down slots hanging from its ends. *)
Definition top := mkVar 0 0 ACROSS 3.
Definition left := mkVar 0 0 DOWN 3.
Definition right := mkVar 0 2 DOWN 3.

Definition corner_overlaps (x y : Var) : option (nat * nat) :=
  if Var_eqb x top && Var_eqb y left then Some (0, 0)
  else if Var_eqb x left && Var_eqb y top then Some (0, 0)
  else if Var_eqb x top && Var_eqb y right then Some (2, 0)
  else if Var_eqb x right && Var_eqb y top then Some (0, 2)
  else None.

Definition arch (ws : list string) : Crossword :=
  mkCrossword [top; left; right] ws corner_overlaps.

Definition arch5 : Crossword :=
  arch ["aba"; "aca"; "efg"; "ehi"; "ijk"]%string.

(** Two slots crossing at their second letters. *)
Definition across := mkVar 1 0 ACROSS 3.
Definition down := mkVar 0 1 DOWN 3.

Definition cross_overlaps (x y : Var) : option (nat * nat) :=
  if Var_eqb x across && Var_eqb y down then Some (1, 1)
  else if Var_eqb x down && Var_eqb y across then Some (1, 1)
  else None.

Definition cross (ws : list string) : Crossword :=
  mkCrossword [across; down] ws cross_overlaps.

(** Two parallel slots that do not touch. *)
Definition row0 := mkVar 0 0 ACROSS 3.
Definition row2 := mkVar 2 0 ACROSS 3.

Definition rows (ws : list string) : Crossword :=
  mkCrossword [row0; row2] ws (fun _ _ => None).

(** A 3x4 grid with a blocked interior: two across slots of length 4 joined
    at their ends by two down slots of length 3. *)
Definition north := mkVar 0 0 ACROSS 4.
Definition south := mkVar 2 0 ACROSS 4.
Definition west := mkVar 0 0 DOWN 3.
Definition east := mkVar 0 3 DOWN 3.

Definition ring_overlaps (x y : Var) : option (nat * nat) :=
  if Var_eqb x north && Var_eqb y west then Some (0, 0)
  else if Var_eqb x west && Var_eqb y north then Some (0, 0)
  else if Var_eqb x north && Var_eqb y east then Some (3, 0)
  else if Var_eqb x east && Var_eqb y north then Some (0, 3)
  else if Var_eqb x south && Var_eqb y west then Some (0, 2)
  else if Var_eqb x west && Var_eqb y south then Some (2, 0)
  else if Var_eqb x south && Var_eqb y east then Some (3, 2)
  else if Var_eqb x east && Var_eqb y south then Some (2, 3)
  else None.

Definition ring : Crossword :=
  mkCrossword [north; west; east; south]
    ["pxxr"; "qxxs"; "txxv"; "uxxw"; "uxxv";
     "pxt"; "pyt"; "qxu"; "rxw"; "ryw"; "sxv"]%string
    ring_overlaps.

End Puzzle.

Unset Implicit Arguments.

(* ------------------------------------------------------------------ *)
(** * Basic facts *)
(* ------------------------------------------------------------------ *)

Lemma Var_eqb_eq (x y : Var) : Var_eqb x y = true <-> x = y.
Proof.
  destruct x as [i1 j1 d1 l1], y as [i2 j2 d2 l2]; unfold Var_eqb; simpl.
  rewrite !andb_true_iff, !Nat.eqb_eq.
  split.
  - intros [[[-> ->] Hd] ->]. destruct d1, d2; simpl in Hd; congruence.
  - intros H; inversion H; subst. destruct d2; auto.
Qed.

Lemma Var_eqb_refl (x : Var) : Var_eqb x x = true.
Proof. now apply Var_eqb_eq. Qed.

Lemma Var_eqb_neq (x y : Var) : Var_eqb x y = false <-> x <> y.
Proof.
  rewrite <- Var_eqb_eq. destruct (Var_eqb x y); split; congruence.
Qed.

Lemma Var_eqb_sym (x y : Var) : Var_eqb x y = Var_eqb y x.
Proof.
  destruct (Var_eqb x y) eqn:E.
  - apply Var_eqb_eq in E. subst. now rewrite Var_eqb_refl.
  - symmetry. apply Var_eqb_neq. apply Var_eqb_neq in E. congruence.
Qed.

Lemma mem_string_In (s : string) (l : list string) :
  mem_string s l = true <-> In s l.
Proof.
  unfold mem_string. rewrite existsb_exists. split.
  - intros [x [Hin He]]. apply String.eqb_eq in He. now subst.
  - intros H. exists s. split; auto. apply String.eqb_refl.
Qed.

Section DictFacts.
Variable V : Type.
Implicit Types (d : dict V) (k : Var) (v : V).

Lemma dict_get_In d k v : dict_get d k = Some v -> In (k, v) d.
Proof.
  induction d as [|[k' v'] d IH]; simpl; [discriminate|].
  destruct (Var_eqb k' k) eqn:E.
  - apply Var_eqb_eq in E. intros [= ->]. subst. now left.
  - intros H. right. auto.
Qed.

Lemma dict_get_key d k v : dict_get d k = Some v -> In k (dict_keys d).
Proof.
  intros H. apply dict_get_In in H. now apply (in_map fst) in H.
Qed.

Lemma dict_key_get d k : In k (dict_keys d) -> exists v, dict_get d k = Some v.
Proof.
  induction d as [|[k' v'] d IH]; simpl; [tauto|].
  intros [->|H].
  - rewrite Var_eqb_refl. eauto.
  - destruct (Var_eqb k' k); eauto.
Qed.

Lemma dict_get_none d k : ~ In k (dict_keys d) -> dict_get d k = None.
Proof.
  intros H. destruct (dict_get d k) eqn:E; auto.
  apply dict_get_key in E. contradiction.
Qed.

Lemma dict_set_keys d k v :
  In k (dict_keys d) -> dict_keys (dict_set d k v) = dict_keys d.
Proof.
  induction d as [|[k' v'] d IH]; simpl; [tauto|].
  intros H. destruct (Var_eqb k' k) eqn:E; simpl; auto.
  f_equal. apply IH. destruct H as [->|H]; auto.
  now rewrite Var_eqb_refl in E.
Qed.

Lemma dict_get_set d k v k' :
  dict_get (dict_set d k v) k' =
  if Var_eqb k k' then Some v else dict_get d k'.
Proof.
  induction d as [|[k0 v0] d IH]; simpl.
  - destruct (Var_eqb k k'); auto.
  - destruct (Var_eqb k0 k) eqn:E; simpl.
    + apply Var_eqb_eq in E. subst. destruct (Var_eqb k k'); auto.
    + destruct (Var_eqb k0 k') eqn:E'; auto.
      apply Var_eqb_eq in E'. subst.
      rewrite Var_eqb_sym, E. reflexivity.
Qed.

Lemma dict_set_same d k v : dict_get d k = Some v -> dict_set d k v = d.
Proof.
  induction d as [|[k0 v0] d IH]; simpl; [discriminate|].
  destruct (Var_eqb k0 k) eqn:E.
  - now intros [= ->].
  - intros H. now rewrite IH.
Qed.

Lemma dict_set_In d k v kv :
  In kv (dict_set d k v) -> In kv d \/ kv = (k, v).
Proof.
  induction d as [|[k0 v0] d IH]; simpl.
  - intros [<-|[]]. now right.
  - destruct (Var_eqb k0 k) eqn:E; simpl.
    + apply Var_eqb_eq in E. subst. intros [<-|H]; auto.
    + intros [<-|H]; auto. destruct (IH H); auto.
Qed.

Lemma dict_mem_set d k v k' :
  dict_mem (dict_set d k v) k' = Var_eqb k k' || dict_mem d k'.
Proof.
  unfold dict_mem. rewrite dict_get_set. now destruct (Var_eqb k k').
Qed.

End DictFacts.

(* ------------------------------------------------------------------ *)
(** * Reasoning about computations *)
(* ------------------------------------------------------------------ *)

Lemma bind_Ok St A B (m : M St A) (k : A -> M St B) s b s' :
  bind m k s = (Ok b, s') ->
  exists a s1, m s = (Ok a, s1) /\ k a s1 = (Ok b, s').
Proof.
  unfold bind. destruct (m s) as [[a|e|] s1]; try discriminate. eauto.
Qed.

Lemma bind_run St A B (m : M St A) (k : A -> M St B) s a s1 :
  m s = (Ok a, s1) -> bind m k s = k a s1.
Proof. unfold bind. now intros ->. Qed.

Lemma bind_assoc St A B C (m : M St A) (k : A -> M St B) (k' : B -> M St C) s :
  bind (bind m k) k' s = bind m (fun a => bind (k a) k') s.
Proof. unfold bind. now destruct (m s) as [[a|e|] s1]. Qed.

(** Splits a run of a sequence that returned normally into the runs of its
    parts. *)
Tactic Notation "bind_inv" hyp(H) "as" ident(a) ident(s) ident(H1) :=
  apply bind_Ok in H; destruct H as (a & s & H1 & H).


Lemma readonly_ret St A (a : A) : readonly (@ret St A a).
Proof. now intros s. Qed.

Lemma readonly_lift St A (o : outcome A) : readonly (@lift St A o).
Proof. now intros s. Qed.

Lemma readonly_raise St A e : readonly (@raise St A e).
Proof. now intros s. Qed.

Lemma readonly_bind St A B (m : M St A) (k : A -> M St B) :
  readonly m -> (forall a, readonly (k a)) -> readonly (bind m k).
Proof.
  intros Hm Hk s. unfold bind. specialize (Hm s).
  destruct (m s) as [[a|e|] s1]; simpl in *; subst; auto.
  apply Hk.
Qed.

Lemma readonly_get_domain x : readonly (get_domain x).
Proof. intros d. unfold get_domain. now destruct (dict_get d x). Qed.

Lemma readonly_domain_keys : readonly domain_keys.
Proof. now intros d. Qed.

Create HintDb readonly.

#[local] Hint Resolve readonly_ret readonly_lift readonly_raise
  readonly_get_domain readonly_domain_keys : readonly.

Ltac readonly_step :=
  first [ apply readonly_bind; [| intros ?] | solve [auto with readonly] ].

Lemma readonly_assignment_complete a : readonly (assignment_complete a).
Proof. unfold assignment_complete. repeat readonly_step. Qed.

Lemma readonly_ruleout_vars cw var value others count :
  readonly (ruleout_vars cw var value others count).
Proof.
  revert count. induction others as [|o others IH]; intros count; simpl;
    repeat readonly_step.
Qed.

Lemma readonly_ruleout_all cw var vals : readonly (ruleout_all cw var vals).
Proof.
  pose proof (readonly_ruleout_vars cw var) as Hvars.
  induction vals as [|v vals IH]; simpl; repeat readonly_step.
Qed.

Lemma readonly_order_domain_values cw var a :
  readonly (order_domain_values cw var a).
Proof.
  pose proof (readonly_ruleout_all cw var) as Hall.
  unfold order_domain_values. repeat readonly_step.
Qed.

Lemma readonly_select_keys cw vars : readonly (select_keys cw vars).
Proof.
  induction vars as [|x vars IH]; simpl; repeat readonly_step.
Qed.

Lemma readonly_select_unassigned_variable cw a :
  readonly (select_unassigned_variable cw a).
Proof.
  pose proof (readonly_select_keys cw) as Hkeys.
  unfold select_unassigned_variable. repeat readonly_step.
  match goal with |- readonly (match ?l with _ => _ end) => destruct l end;
    auto with readonly.
Qed.

(** ** The store of dictionaries *)

Lemma list_update_nth A (l : list A) n default :
  list_update n (nth n l default) l = l.
Proof.
  revert n. induction l as [|b l IH]; intros [|n]; simpl; auto.
  now rewrite IH.
Qed.

Lemma list_update_length A (l : list A) n a :
  List.length (list_update n a l) = List.length l.
Proof.
  revert n. induction l as [|b l IH]; intros [|n]; simpl; auto.
Qed.

Lemma nth_list_update A (l : list A) n a default :
  n < List.length l -> nth n (list_update n a l) default = a.
Proof.
  revert n. induction l as [|b l IH]; intros [|n]; simpl; try lia; auto.
  intros H. apply IH. lia.
Qed.

Lemma list_update_Forall A (P : A -> Prop) (l : list A) n a :
  Forall P l -> P a -> Forall P (list_update n a l).
Proof.
  intros Hl Ha. revert n.
  induction Hl as [|b l Hb Hl IH]; intros [|n]; simpl; auto.
Qed.


Lemma same_domains_refl w : same_domains w w.
Proof. now split. Qed.

Lemma same_domains_trans w1 w2 w3 :
  same_domains w1 w2 -> same_domains w2 w3 -> same_domains w1 w3.
Proof. unfold same_domains. intros [-> ->] [-> ->]. now split. Qed.

Lemma same_domains_current w w' : same_domains w w' -> current w' = current w.
Proof. unfold current. now intros [-> ->]. Qed.


Lemma frame_ret A (a : A) : frame (ret a).
Proof. intros w. apply same_domains_refl. Qed.

Lemma frame_lift A (o : outcome A) : frame (lift o).
Proof. intros w. apply same_domains_refl. Qed.

Lemma frame_bind A B (m : M World A) (k : A -> M World B) :
  frame m -> (forall a, frame (k a)) -> frame (bind m k).
Proof.
  intros Hm Hk w. unfold bind. specialize (Hm w).
  destruct (m w) as [[a|e|] w1]; simpl in *; auto.
  eapply same_domains_trans; [exact Hm | apply Hk].
Qed.

Lemma frame_through_domains A (m : M Domains A) :
  readonly m -> frame (through_domains m).
Proof.
  intros Hm w. unfold through_domains. specialize (Hm (current w)).
  destruct (m (current w)) as [o d]. simpl in *. subst d.
  unfold same_domains, with_current, current. simpl.
  now rewrite list_update_nth.
Qed.

Lemma frame_incr_BACKTRACK_COUNTER : frame incr_BACKTRACK_COUNTER.
Proof. intros w. now split. Qed.

Lemma frame_incr_WORDS_TESTED : frame incr_WORDS_TESTED.
Proof. intros w. now split. Qed.

Lemma frame_out_of_fuel A : frame (@out_of_fuel World A).
Proof. intros w. apply same_domains_refl. Qed.

Lemma frame_backtrack_loop cw recurse a variable vals :
  (forall a', frame (recurse a')) ->
  frame (backtrack_loop cw recurse a variable vals).
Proof.
  intros Hrec. revert a.
  induction vals as [|value rest IH]; intros a; simpl.
  - apply frame_ret.
  - apply frame_bind; [apply frame_incr_WORDS_TESTED | intros _].
    apply frame_bind; [apply frame_lift | intros ok].
    apply frame_bind.
    + destruct ok; [| apply frame_ret].
      apply frame_bind; [apply Hrec | intros r; apply frame_ret].
    + intros [r|]; [apply frame_ret | apply IH].
Qed.

Lemma frame_backtrack cw fuel a : frame (backtrack cw fuel a).
Proof.
  revert a. induction fuel as [|fuel IH]; intros a; simpl.
  - apply frame_out_of_fuel.
  - apply frame_bind; [apply frame_incr_BACKTRACK_COUNTER | intros _].
    apply frame_bind.
    { apply frame_through_domains, readonly_assignment_complete. }
    intros [|]; [apply frame_ret|].
    apply frame_bind.
    { apply frame_through_domains, readonly_select_unassigned_variable. }
    intros variable.
    apply frame_bind.
    { apply frame_through_domains, readonly_order_domain_values. }
    intros vals. apply frame_backtrack_loop. exact IH.
Qed.

(** C10: a call of the plain search [backtrack], on any assignment and in
    any state, leaves the domain store as it found it: the dictionaries,
    the reference [self.domains] and so the domain of every slot are the
    same after the call, whatever it returns. *)
Theorem backtrack_leaves_domains cw fuel (assignment : Assignment) (w : World) :
  let w' := snd (backtrack cw fuel assignment w) in
  objects w' = objects w
  /\ self_domains w' = self_domains w
  /\ forall x, dict_get (current w') x = dict_get (current w) x.
Proof.
  intros w'. pose proof (frame_backtrack cw fuel assignment w) as H.
  fold w' in H. destruct H as [Ho Hs].
  repeat split; auto.
  intros x. now rewrite (same_domains_current _ _ (conj Ho Hs)).
Qed.

(* ------------------------------------------------------------------ *)
(** * revise *)
(* ------------------------------------------------------------------ *)

Lemma set_diff_filter (p : string -> bool) (l : list string) :
  set_diff l (filter (fun v => negb (p v)) l) = filter p l.
Proof.
  unfold set_diff. apply filter_ext_in. intros v Hv.
  destruct (p v) eqn:Ep.
  - destruct (mem_string v _) eqn:Em; auto.
    apply mem_string_In, filter_In in Em. destruct Em as [_ Em].
    now rewrite Ep in Em.
  - destruct (mem_string v _) eqn:Em; auto.
    assert (In v (filter (fun v => negb (p v)) l)) as Hin.
    { apply filter_In. split; auto. now rewrite Ep. }
    apply mem_string_In in Hin. congruence.
Qed.

Lemma forallb_same A (p q : A -> bool) (l : list A) :
  (forall a, p a = q a) -> forallb p l = forallb q l.
Proof.
  intros H. induction l as [|a l IH]; simpl; auto. now rewrite H, IH.
Qed.

Lemma filter_all A (p : A -> bool) (l : list A) :
  forallb p l = true -> filter p l = l.
Proof.
  induction l as [|a l IH]; simpl; auto.
  intros H. apply andb_true_iff in H. destruct H as [-> H]. now rewrite IH.
Qed.

Lemma filter_length_lt A (p : A -> bool) (l : list A) :
  forallb p l = false -> List.length (filter p l) < List.length l.
Proof.
  induction l as [|a l IH]; simpl; [discriminate|].
  pose proof (filter_length_le p l) as Hle.
  destruct (p a); simpl; intros H; [apply IH in H|]; lia.
Qed.

Section Revise.
Variable cw : Crossword.
Variables x y : Var.

Lemma revise_inner_sound vx vals_y :
  revise_inner cw x y vx vals_y = Ok true ->
  exists vy, In vy vals_y /\ vx <> vy /\ overlap_satisfied cw x y vx vy = Ok true.
Proof.
  induction vals_y as [|vy rest IH]; simpl; [discriminate|].
  destruct (String.eqb vx vy) eqn:E; simpl.
  - intros H. destruct (IH H) as (v & Hin & Hv). exists v. auto.
  - destruct (overlap_satisfied cw x y vx vy) as [[|]|e|] eqn:Eo;
      try discriminate.
    + intros _. exists vy. repeat split; auto.
      now apply String.eqb_neq.
    + intros H. destruct (IH H) as (v & Hin & Hv). exists v. auto.
Qed.

Lemma revise_inner_complete vx vals_y c :
  revise_inner cw x y vx vals_y = Ok c ->
  (exists vy, In vy vals_y /\ vx <> vy
              /\ overlap_satisfied cw x y vx vy = Ok true) ->
  c = true.
Proof.
  induction vals_y as [|v rest IH]; simpl.
  - intros _ (vy & [] & _).
  - intros H (vy & Hin & Hne & Hsat).
    destruct (String.eqb vx v) eqn:E; simpl in H.
    + apply String.eqb_eq in E. subst v.
      apply IH; auto. exists vy. destruct Hin as [<-|Hin]; [congruence|auto].
    + destruct (overlap_satisfied cw x y vx v) as [[|]|e|] eqn:Eo;
        try discriminate.
      * congruence.
      * apply IH; auto. exists vy.
        destruct Hin as [<-|Hin]; [congruence|auto].
Qed.

Variable d : Domains.

Lemma revise_loop_run vals_y :
  dict_get d y = Some vals_y ->
  forall vals_x revision to_remove,
    (forall vx, In vx vals_x -> exists c, revise_inner cw x y vx vals_y = Ok c) ->
    revise_loop cw x y vals_x revision to_remove d =
    (Ok (revision || negb (forallb (supported cw d x y) vals_x),
         (to_remove ++ filter (fun vx => negb (supported cw d x y vx)) vals_x)%list),
     d).
Proof.
  intros Hy. induction vals_x as [|vx rest IH]; intros revision to_remove Hok.
  - simpl. unfold ret. now rewrite orb_false_r, app_nil_r.
  - simpl. unfold bind at 1. unfold get_domain at 1. rewrite Hy.
    destruct (Hok vx (or_introl eq_refl)) as [c Hc].
    unfold bind at 1, lift. rewrite Hc.
    unfold supported at 1 3. rewrite Hy, Hc.
    assert (forall v, In v rest -> exists c, revise_inner cw x y v vals_y = Ok c)
      as Hrest by (intros v Hv; apply Hok; now right).
    destruct c; simpl.
    + now rewrite IH.
    + rewrite IH by exact Hrest. now rewrite orb_true_r, <- app_assoc.
Qed.

Lemma revise_loop_Ok vals_x revision to_remove r d' :
  revise_loop cw x y vals_x revision to_remove d = (Ok r, d') ->
  forall vx, In vx vals_x ->
    exists vals_y c, dict_get d y = Some vals_y
                     /\ revise_inner cw x y vx vals_y = Ok c.
Proof.
  revert revision to_remove.
  induction vals_x as [|v rest IH]; intros revision to_remove H vx Hin.
  - destruct Hin.
  - simpl in H. unfold bind at 1 in H. unfold get_domain at 1 in H.
    destruct (dict_get d y) as [vals_y|] eqn:Hy; [|discriminate].
    unfold bind at 1, lift in H.
    destruct (revise_inner cw x y v vals_y) as [c|e|] eqn:Hc; try discriminate.
    destruct Hin as [<-|Hin].
    + eauto.
    + destruct c; eapply IH; eauto.
Qed.

Lemma revise_run vals_x vals_y :
  dict_get d x = Some vals_x ->
  dict_get d y = Some vals_y ->
  (forall vx, In vx vals_x -> exists c, revise_inner cw x y vx vals_y = Ok c) ->
  revise cw x y d =
  (Ok (negb (forallb (supported cw d x y) vals_x)),
   dict_set d x (filter (supported cw d x y) vals_x)).
Proof.
  intros Hx Hy Hok. unfold revise.
  unfold bind at 1. unfold get_domain at 1. rewrite Hx.
  unfold bind at 1. rewrite (revise_loop_run vals_y Hy) by exact Hok.
  unfold bind at 1. unfold get_domain. rewrite Hx.
  unfold bind, set_domain, ret. simpl.
  now rewrite set_diff_filter.
Qed.

Lemma revise_Ok b d' :
  revise cw x y d = (Ok b, d') ->
  exists vals_x,
    dict_get d x = Some vals_x
    /\ b = negb (forallb (supported cw d x y) vals_x)
    /\ d' = dict_set d x (filter (supported cw d x y) vals_x)
    /\ forall vx, In vx vals_x ->
         exists vals_y c, dict_get d y = Some vals_y
                          /\ revise_inner cw x y vx vals_y = Ok c.
Proof.
  intros H. pose proof H as H0. unfold revise in H.
  unfold bind at 1 in H. unfold get_domain at 1 in H.
  destruct (dict_get d x) as [vals_x|] eqn:Hx; [|discriminate].
  unfold bind at 1 in H.
  destruct (revise_loop cw x y vals_x false [] d) as [[r|e|] d1] eqn:Hl;
    try discriminate.
  pose proof (revise_loop_Ok _ _ _ _ _ Hl) as Hok.
  exists vals_x. split; auto.
  destruct vals_x as [|v0 rest].
  - simpl in Hl. inversion Hl; subst. simpl in H.
    unfold bind at 1 in H. unfold get_domain in H. rewrite Hx in H.
    unfold bind, set_domain, ret in H. simpl in H. inversion H; subst.
    repeat split; auto; intros vx [].
  - destruct (Hok v0 (or_introl eq_refl)) as (vals_y & c0 & Hy & _).
    assert (forall vx, In vx (v0 :: rest) ->
                       exists c, revise_inner cw x y vx vals_y = Ok c) as Hok'.
    { intros vx Hin. destruct (Hok vx Hin) as (vy' & c & Hy' & Hc).
      rewrite Hy in Hy'. inversion Hy'; subst. eauto. }
    rewrite (revise_run _ _ Hx Hy Hok') in H0. inversion H0; subst.
    repeat split; auto.
Qed.

End Revise.

Lemma revise_inner_no_overlap cw x y vx vals_y :
  overlaps cw x y = None ->
  revise_inner cw x y vx vals_y =
  Ok (existsb (fun vy => negb (String.eqb vx vy)) vals_y).
Proof.
  intros Ho. induction vals_y as [|vy rest IH]; simpl; auto.
  destruct (String.eqb vx vy); simpl; auto.
  unfold overlap_satisfied. now rewrite Ho.
Qed.

(** C6 (as the code has it): for distinct slots [x], [y] without overlap
    and any contents of their two domains, [revise(x, y)] removes from the
    domain of [x] exactly the words for which the domain of [y] holds no
    different word, and returns true exactly when it removed one. *)
Theorem revise_without_overlap cw x y (d : Domains) vals_x vals_y :
  x <> y ->
  overlaps cw x y = None ->
  dict_get d x = Some vals_x ->
  dict_get d y = Some vals_y ->
  let other_word vx := existsb (fun vy => negb (String.eqb vx vy)) vals_y in
  revise cw x y d =
  (Ok (negb (forallb other_word vals_x)),
   dict_set d x (filter other_word vals_x)).
Proof.
  intros _ Ho Hx Hy other_word.
  rewrite (revise_run cw x y d _ _ Hx Hy).
  - assert (forall vx, supported cw d x y vx = other_word vx) as Hs.
    { intros vx. unfold supported. rewrite Hy.
      rewrite revise_inner_no_overlap by exact Ho.
      unfold other_word. now destruct (existsb _ vals_y). }
    rewrite (forallb_same _ _ _ vals_x Hs).
    now rewrite (filter_ext _ _ Hs).
  - intros vx _. rewrite revise_inner_no_overlap by exact Ho. eauto.
Qed.

Lemma revise_without_overlap_witness :
  revise (Puzzle.rows []) Puzzle.row0 Puzzle.row2
         [(Puzzle.row0, ["cat"; "dog"]%string); (Puzzle.row2, ["cat"; "dog"]%string)]
  = (Ok false,
     [(Puzzle.row0, ["cat"; "dog"]%string); (Puzzle.row2, ["cat"; "dog"]%string)]).
Proof.
  apply (revise_without_overlap (Puzzle.rows []) Puzzle.row0 Puzzle.row2
           [(Puzzle.row0, ["cat"; "dog"]%string); (Puzzle.row2, ["cat"; "dog"]%string)]
           ["cat"; "dog"]%string ["cat"; "dog"]%string).
  - discriminate.
  - reflexivity.
  - reflexivity.
  - reflexivity.
Defined.

(** C6 as stated fails: the two slots do not overlap, yet [revise] removes
    "cat" from the first domain and returns true, because the second domain
    holds no word other than "cat". *)
Lemma revise_without_overlap_removes :
  Puzzle.row0 <> Puzzle.row2
  /\ overlaps (Puzzle.rows []) Puzzle.row0 Puzzle.row2 = None
  /\ revise (Puzzle.rows []) Puzzle.row0 Puzzle.row2
            [(Puzzle.row0, ["cat"; "dog"]%string); (Puzzle.row2, ["cat"]%string)]
     = (Ok true,
        [(Puzzle.row0, ["dog"]%string); (Puzzle.row2, ["cat"]%string)]).
Proof. repeat split. discriminate. Qed.

(* ------------------------------------------------------------------ *)
(** * ac3 with a supplied queue *)
(* ------------------------------------------------------------------ *)

Lemma ac3_loop_quiet cw (d : Domains) stack :
  (forall x y, In (x, y) stack -> revise cw x y d = (Ok false, d)) ->
  forall fuel, List.length stack <= fuel ->
    ac3_loop cw fuel stack d = (Ok true, d).
Proof.
  induction stack as [|[x y] rest IH]; intros Hq fuel Hfuel.
  - now destruct fuel.
  - destruct fuel as [|fuel]; simpl in Hfuel; [lia|].
    simpl. unfold bind. rewrite (Hq x y (or_introl eq_refl)).
    apply IH; [|lia]. intros x' y' Hin. apply Hq. now right.
Qed.

(** C7 as stated fails: handed an explicitly empty queue, [ac3] seeds the
    queue with all pairs and removes "cat" from the domain of the first
    slot. *)
Lemma ac3_empty_queue_reseeds :
  ac3 (Puzzle.rows []) (Some [])
      [(Puzzle.row0, ["cat"; "dog"]%string); (Puzzle.row2, ["cat"]%string)]
  = (Ok true,
     [(Puzzle.row0, ["dog"]%string); (Puzzle.row2, ["cat"]%string)]).
Proof. reflexivity. Qed.

(* ------------------------------------------------------------------ *)
(** * consistent on a word that is too short *)
(* ------------------------------------------------------------------ *)

(** C8: two slots of length 3 cross at index 1 of each; the second one holds
    a word of length 1.  Case (b) applies, so [consistent]
    should return false; it raises [IndexError] instead, because the
    overlap with the first slot is looked at before the length of the
    second word. *)
Theorem consistent_raises_on_short_word :
  String.length "a" <> v_length Puzzle.down
  /\ consistent (Puzzle.cross [])
                [(Puzzle.across, "cat"%string); (Puzzle.down, "a"%string)]
     = Raise IndexError.
Proof. split; [discriminate | reflexivity]. Qed.

(* ------------------------------------------------------------------ *)
(** * The interleaved search on concrete puzzles *)
(* ------------------------------------------------------------------ *)

(** C4 (as the code has it): the value returned by [ac3] is discarded.  For
    a candidate that passes [consistent], whatever [ac3] reports ([b] is
    true or false), the iteration goes on with the recursive call, started
    in the state [ac3] left; only the result of that call decides whether
    the candidate is given up. *)
Theorem ac3_result_discarded cw recurse (assignment : Assignment)
        variable domains_copy value (w w2 : World) (b : bool) :
  let assignment1 := dict_set assignment variable value in
  consistent cw assignment1 = Ok true ->
  through_domains (ac3 cw (Some (arcs_to cw variable)))
    (snd (through_domains (set_domain variable [value])
                          (snd (incr_WORDS_TESTED w)))) = (Ok b, w2) ->
  backtrack_ac3_try cw recurse assignment variable domains_copy value w =
  bind (recurse assignment1)
       (fun result =>
          if truthy result then ret result
          else bind (rebind_domains domains_copy) (fun _ => ret None)) w2.
Proof.
  intros assignment1 Hc Hac3. unfold backtrack_ac3_try.
  fold assignment1. rewrite Hc.
  erewrite bind_run by reflexivity.
  erewrite bind_run by reflexivity.
  cbv beta iota. rewrite bind_assoc.
  erewrite bind_run by reflexivity.
  rewrite bind_assoc.
  erewrite bind_run by exact Hac3.
  unfold bind.
  destruct (recurse assignment1 w2) as [[[[|kv a]|]|e|] w3]; reflexivity.
Qed.

Lemma ac3_result_discarded_witness :
  let w := snd (deepcopy_domains (prepared Puzzle.ring)) in
  backtrack_ac3_try Puzzle.ring (backtrack_ac3 Puzzle.ring 4) []
                    Puzzle.north 1 "pxxr"%string w
  = bind (backtrack_ac3 Puzzle.ring 4 [(Puzzle.north, "pxxr"%string)])
         (fun result =>
            if truthy result then ret result
            else bind (rebind_domains 1) (fun _ => ret None))
         (snd (through_domains
                 (ac3 Puzzle.ring (Some (arcs_to Puzzle.ring Puzzle.north)))
                 (snd (through_domains (set_domain Puzzle.north ["pxxr"%string])
                                       (snd (incr_WORDS_TESTED w)))))).
Proof.
  intros w.
  apply (ac3_result_discarded Puzzle.ring (backtrack_ac3 Puzzle.ring 4) []
           Puzzle.north 1 "pxxr"%string w _ false).
  - reflexivity.
  - vm_compute. reflexivity.
Defined.

(** C4 as stated fails: at the root of the search on the ring puzzle the
    first candidate "pxxr" passes [consistent], the seeded [ac3] reports
    failure, and the recursive call is made all the same: it is the call
    that advances [BACKTRACK_COUNTER]. *)
Lemma failed_ac3_still_recurses :
  let w := snd (deepcopy_domains (prepared Puzzle.ring)) in
  consistent Puzzle.ring [(Puzzle.north, "pxxr"%string)] = Ok true
  /\ fst (through_domains
            (ac3 Puzzle.ring (Some (arcs_to Puzzle.ring Puzzle.north)))
            (snd (through_domains (set_domain Puzzle.north ["pxxr"%string])
                                  (snd (incr_WORDS_TESTED w))))) = Ok false
  /\ BACKTRACK_COUNTER
       (snd (backtrack_ac3_try Puzzle.ring (backtrack_ac3 Puzzle.ring 4) []
                               Puzzle.north 1 "pxxr"%string w))
     = S (BACKTRACK_COUNTER w).
Proof. vm_compute. repeat split. Qed.

(** C3: the root call of the interleaved search on the arch puzzle.  The
    slot [top] is selected and its candidates come in the order "aba",
    "aca", "ehi".  The first candidate fails and the store is restored.
    The second candidate fails too, and the store is left as that
    candidate pruned it: [self.domains] already was the snapshot, so the
    second candidate worked on the snapshot itself. *)
Theorem second_candidate_not_restored :
  let entry := snd (deepcopy_domains (prepared Puzzle.arch5)) in
  let recurse := backtrack_ac3 Puzzle.arch5 3 in
  let after1 :=
    backtrack_ac3_try Puzzle.arch5 recurse [] Puzzle.top 1 "aba"%string entry in
  let after2 :=
    backtrack_ac3_try Puzzle.arch5 recurse [] Puzzle.top 1 "aca"%string
                      (snd after1) in
  fst (through_domains (select_unassigned_variable Puzzle.arch5 [])
                       (prepared Puzzle.arch5)) = Ok Puzzle.top
  /\ fst (through_domains (order_domain_values Puzzle.arch5 Puzzle.top []) entry)
     = Ok ["aba"; "aca"; "ehi"]%string
  /\ current entry =
     [(Puzzle.top, ["aba"; "aca"; "ehi"]%string);
      (Puzzle.left, ["aba"; "aca"; "efg"]%string);
      (Puzzle.right, ["aba"; "aca"; "ijk"]%string)]
  /\ fst after1 = Ok None
  /\ current (snd after1) = current entry
  /\ fst after2 = Ok None
  /\ current (snd after2) =
     [(Puzzle.top, ["aca"]%string);
      (Puzzle.left, ["aba"]%string);
      (Puzzle.right, ["aba"]%string)]
  /\ current (snd after2) <> current entry.
Proof. vm_compute. repeat split. discriminate. Qed.

(** C2: on the arch puzzle with the words aba, aca, efg, ehi, ijk the plain
    search returns a solution and the interleaved search returns None. *)
Theorem variants_disagree :
  fst (solve Puzzle.arch5 false (init Puzzle.arch5))
  = Ok (Some [(Puzzle.top, "ehi"%string);
              (Puzzle.left, "efg"%string);
              (Puzzle.right, "ijk"%string)])
  /\ fst (solve Puzzle.arch5 true (init Puzzle.arch5)) = Ok None.
Proof. vm_compute. split; reflexivity. Qed.

(* ------------------------------------------------------------------ *)
(** * Sorting and the two heuristics *)
(* ------------------------------------------------------------------ *)

Section SortFacts.
Variables A K : Type.
Variable leb : K -> K -> bool.

Lemma insert_by_In (x z : A * K) (l : list (A * K)) :
  In z (insert_by leb x l) <-> z = x \/ In z l.
Proof.
  induction l as [|y l IH]; simpl.
  - intuition.
  - destruct (leb (snd x) (snd y)); simpl; rewrite ?IH; intuition.
Qed.

Lemma sort_by_In (z : A * K) (l : list (A * K)) : In z (sort_by leb l) <-> In z l.
Proof.
  induction l as [|x l IH]; simpl; [tauto|].
  rewrite insert_by_In, IH. intuition.
Qed.

Lemma sort_by_nil (l : list (A * K)) : sort_by leb l = [] -> l = [].
Proof.
  destruct l as [|x l]; auto. simpl.
  destruct (sort_by leb l) as [|y l']; simpl; [discriminate|].
  destruct (leb (snd x) (snd y)); discriminate.
Qed.

End SortFacts.

Lemma readonly_state {St A} (m : M St A) s o s' :
  readonly m -> m s = (o, s') -> s' = s.
Proof. intros Hm H. specialize (Hm s). now rewrite H in Hm. Qed.

Lemma select_keys_fst cw vars (d d' : Domains) keyed :
  select_keys cw vars d = (Ok keyed, d') -> map fst keyed = vars.
Proof.
  revert keyed d'. induction vars as [|x vars IH]; intros keyed d' H; simpl in H.
  - now inversion H.
  - bind_inv H as vals d1 Hg. bind_inv H as keyed' d2 Hk.
    inversion H; subst. simpl.
    apply readonly_state in Hg; [|apply readonly_get_domain]. subst.
    f_equal. eapply IH; eauto.
Qed.

Lemma select_keys_key cw vars (d d' : Domains) keyed x k :
  select_keys cw vars d = (Ok keyed, d') ->
  In (x, k) keyed ->
  exists vals, dict_get d x = Some vals /\ fst k = List.length vals.
Proof.
  revert keyed d'. induction vars as [|v vars IH]; intros keyed d' H Hin;
    simpl in H.
  - inversion H; subst. destruct Hin.
  - bind_inv H as vals d1 Hg. bind_inv H as keyed' d2 Hk.
    inversion H; subst.
    pose proof (readonly_state _ _ _ _ (readonly_get_domain v) Hg). subst.
    destruct Hin as [Heq|Hin].
    + inversion Heq; subst. unfold get_domain in Hg.
      destruct (dict_get d x) eqn:E; inversion Hg; subst. eauto.
    + eapply IH; eauto.
Qed.

Lemma select_unassigned_variable_Ok cw a (d d' : Domains) v :
  select_unassigned_variable cw a d = (Ok v, d') ->
  d' = d /\ In v (dict_keys d) /\ dict_mem a v = false.
Proof.
  intros H. split.
  { eapply readonly_state; eauto. apply readonly_select_unassigned_variable. }
  unfold select_unassigned_variable in H.
  bind_inv H as ks d1 Hks. inversion Hks; subst.
  bind_inv H as keyed d2 Hk.
  pose proof (select_keys_fst _ _ _ _ _ Hk) as Hfst.
  destruct (map fst (sort_by key_leb keyed)) as [|v0 l] eqn:Es; [discriminate|].
  inversion H; subst.
  assert (In v (map fst (sort_by key_leb keyed))) as Hin
      by (rewrite Es; now left).
  apply in_map_iff in Hin. destruct Hin as ([v' k] & Hv & Hin). simpl in Hv.
  subst v'. apply sort_by_In in Hin. apply (in_map fst) in Hin.
  rewrite Hfst in Hin. simpl in Hin. apply filter_In in Hin.
  destruct Hin as [Hin Hm]. split; auto.
  now destruct (dict_mem a v).
Qed.

Lemma ruleout_all_fst cw var vals (d d' : Domains) vr :
  ruleout_all cw var vals d = (Ok vr, d') -> map fst vr = vals.
Proof.
  revert vr d'. induction vals as [|v vals IH]; intros vr d' H; simpl in H.
  - now inversion H.
  - bind_inv H as count d1 Hc. bind_inv H as vr' d2 Hr.
    inversion H; subst. simpl.
    apply readonly_state in Hc; [|apply readonly_ruleout_vars]. subst.
    f_equal. eapply IH; eauto.
Qed.

Lemma order_domain_values_Ok cw var a (d d' : Domains) vals :
  order_domain_values cw var a d = (Ok vals, d') ->
  d' = d /\ exists D, dict_get d var = Some D
                      /\ forall v, In v vals <-> In v D.
Proof.
  intros H. split.
  { eapply readonly_state; eauto. apply readonly_order_domain_values. }
  unfold order_domain_values in H. bind_inv H as D d1 Hg.
  pose proof (readonly_state _ _ _ _ (readonly_get_domain var) Hg). subst.
  unfold get_domain in Hg. destruct (dict_get d var) as [D0|] eqn:E;
    inversion Hg; subst.
  exists D. split; auto. bind_inv H as vr d2 Hr. inversion H; subst.
  pose proof (ruleout_all_fst _ _ _ _ _ _ Hr) as Hfst.
  intros v. rewrite <- Hfst. rewrite !in_map_iff.
  split; intros (p & Hp & Hin); exists p; split; auto;
    now apply sort_by_In in Hin || apply sort_by_In.
Qed.

Lemma assignment_complete_Ok a (d d' : Domains) b :
  assignment_complete a d = (Ok b, d') ->
  d' = d /\ b = forallb (fun x => dict_mem a x) (dict_keys d).
Proof.
  unfold assignment_complete, bind, domain_keys, ret. intros H.
  now inversion H.
Qed.

(* ------------------------------------------------------------------ *)
(** * The store stays over the slots and the word list *)
(* ------------------------------------------------------------------ *)

Section StoreOk.
Variable cw : Crossword.

Lemma store_ok_get (d : Domains) x vals :
  store_ok cw d -> dict_get d x = Some vals ->
  In x (variables cw) /\ incl vals (words cw).
Proof.
  intros [Hk Hw] Hg. split.
  - rewrite <- Hk. eapply dict_get_key; eauto.
  - apply dict_get_In in Hg. rewrite Forall_forall in Hw.
    apply (Hw _ Hg).
Qed.

Lemma store_ok_set (d : Domains) x old vals :
  store_ok cw d -> dict_get d x = Some old -> incl vals (words cw) ->
  store_ok cw (dict_set d x vals).
Proof.
  intros [Hk Hw] Hg Hv. split.
  - rewrite dict_set_keys; auto. eapply dict_get_key; eauto.
  - rewrite Forall_forall in *. intros kv Hin.
    apply dict_set_In in Hin. destruct Hin as [Hin| ->]; auto.
Qed.

Lemma store_ok_set_var (d : Domains) x vals :
  store_ok cw d -> In x (variables cw) -> incl vals (words cw) ->
  store_ok cw (dict_set d x vals).
Proof.
  intros Hd Hx Hv. destruct Hd as [Hk Hw].
  rewrite <- Hk in Hx. destruct (dict_key_get _ _ _ Hx) as [old Hold].
  eapply store_ok_set; eauto. now split.
Qed.

Lemma enforce_node_consistency_loop_store_ok ks (d d' : Domains) u :
  store_ok cw d ->
  enforce_node_consistency_loop ks d = (Ok u, d') -> store_ok cw d'.
Proof.
  revert d. induction ks as [|k ks IH]; intros d Hd H; simpl in H.
  - now inversion H; subst.
  - bind_inv H as vals d1 Hg.
    pose proof (readonly_state _ _ _ _ (readonly_get_domain k) Hg). subst.
    unfold get_domain in Hg.
    destruct (dict_get d k) as [vals0|] eqn:E; inversion Hg; subst.
    bind_inv H as u0 d2 Hs. inversion Hs; subst.
    eapply IH; [|exact H].
    eapply store_ok_set; eauto.
    intros v Hv. apply filter_In in Hv. destruct Hv as [Hv _].
    now apply (store_ok_get _ _ _ Hd E).
Qed.

Lemma enforce_node_consistency_store_ok (d d' : Domains) u :
  store_ok cw d ->
  enforce_node_consistency d = (Ok u, d') -> store_ok cw d'.
Proof.
  intros Hd H. unfold enforce_node_consistency in H.
  bind_inv H as ks d1 Hk. inversion Hk; subst.
  eapply enforce_node_consistency_loop_store_ok; eauto.
Qed.

Lemma revise_store_ok x y (d d' : Domains) b :
  store_ok cw d -> revise cw x y d = (Ok b, d') -> store_ok cw d'.
Proof.
  intros Hd H. apply revise_Ok in H.
  destruct H as (vals_x & Hx & _ & -> & _).
  eapply store_ok_set; eauto.
  intros v Hv. apply filter_In in Hv. destruct Hv as [Hv _].
  now apply (store_ok_get _ _ _ Hd Hx).
Qed.

Lemma ac3_loop_store_ok fuel stack (d d' : Domains) b :
  store_ok cw d -> ac3_loop cw fuel stack d = (Ok b, d') -> store_ok cw d'.
Proof.
  revert stack d. induction fuel as [|fuel IH]; intros stack d Hd H.
  - destruct stack as [|[x y] rest]; simpl in H; [|discriminate].
    now inversion H; subst.
  - destruct stack as [|[x y] rest]; simpl in H.
    + now inversion H; subst.
    + bind_inv H as revised d1 Hr.
      pose proof (revise_store_ok _ _ _ _ _ Hd Hr) as Hd1.
      destruct revised.
      * bind_inv H as vals d2 Hg.
        pose proof (readonly_state _ _ _ _ (readonly_get_domain x) Hg). subst.
        destruct vals; [now inversion H; subst|].
        eapply IH; eauto.
      * eapply IH; eauto.
Qed.

Lemma ac3_store_ok arcs (d d' : Domains) b :
  store_ok cw d -> ac3 cw arcs d = (Ok b, d') -> store_ok cw d'.
Proof.
  intros Hd H. unfold ac3 in H. bind_inv H as arcs' d1 Ha.
  assert (d1 = d) as ->.
  { destruct arcs as [[|a l]|]; simpl in Ha; now inversion Ha. }
  bind_inv H as d0 d2 Hs. inversion Hs; subst.
  eapply ac3_loop_store_ok; eauto.
Qed.

(** ** The store of dictionaries *)


Lemma world_ok_current w : world_ok cw w -> store_ok cw (current w).
Proof.
  intros [Hp Hf]. rewrite Forall_forall in Hf. apply Hf.
  unfold current. now apply nth_In.
Qed.

Lemma through_domains_inv A (m : M Domains A) (Q : A -> Prop) n :
  (forall d a d', store_ok cw d -> m d = (Ok a, d') -> store_ok cw d' /\ Q a) ->
  forall w a w', world_inv cw n w -> through_domains m w = (Ok a, w') ->
                 world_inv cw n w' /\ Q a.
Proof.
  intros Hm w a w' [Hw Hn] H. unfold through_domains in H.
  destruct (m (current w)) as [o d'] eqn:E. inversion H; subst.
  destruct (Hm _ _ _ (world_ok_current _ Hw) E) as [Hd' HQ].
  split; auto. destruct Hw as [Hp Hf].
  unfold world_inv, world_ok, with_current. simpl.
  rewrite list_update_length. repeat split; auto.
  now apply list_update_Forall.
Qed.

Lemma deepcopy_domains_inv n w r w' :
  world_inv cw n w -> deepcopy_domains w = (Ok r, w') ->
  world_inv cw n w' /\ r < List.length (objects w').
Proof.
  intros [Hw Hn] H. unfold deepcopy_domains in H. inversion H; subst.
  pose proof (world_ok_current _ Hw) as Hc. destruct Hw as [Hp Hf].
  unfold world_inv, world_ok. simpl. rewrite length_app. simpl.
  repeat split; try lia.
  apply Forall_app. split; auto.
Qed.

Lemma world_inv_weaken n m w : world_inv cw n w -> m <= n -> world_inv cw m w.
Proof. intros [Hw Hn] Hm. split; auto. lia. Qed.

End StoreOk.

(* ------------------------------------------------------------------ *)
(** * Soundness of the two searches *)
(* ------------------------------------------------------------------ *)


Section Soundness.
Variable cw : Crossword.

Lemma uses_words_set (a : Assignment) x v :
  uses_words cw a -> In v (words cw) -> uses_words cw (dict_set a x v).
Proof.
  unfold uses_words. rewrite !Forall_forall. intros Ha Hv kv Hin.
  apply dict_set_In in Hin. destruct Hin as [Hin| ->]; auto.
Qed.

Lemma uses_words_del (a : Assignment) x :
  uses_words cw a -> uses_words cw (dict_del a x).
Proof.
  unfold uses_words, dict_del. rewrite !Forall_forall. intros Ha kv Hin.
  apply filter_In in Hin. now apply Ha.
Qed.

Lemma truthy_result (result : option Assignment) r :
  (if truthy result then result else None) = Some r -> result = Some r.
Proof. destruct result as [[|kv a]|]; simpl; congruence. Qed.

Lemma complete_of_keys (d : Domains) (a : Assignment) :
  store_ok cw d ->
  forallb (fun x => dict_mem a x) (dict_keys d) = true -> complete cw a.
Proof.
  intros [Hk _] H x Hx. rewrite Hk in H.
  rewrite forallb_forall in H. now apply H.
Qed.

(** ** backtrack *)

Lemma frame_run A (m : M World A) w o w' :
  frame m -> m w = (o, w') -> current w' = current w.
Proof.
  intros Hm H. specialize (Hm w). rewrite H in Hm.
  now apply same_domains_current.
Qed.

Lemma backtrack_loop_sound recurse variable :
  (forall a, frame (recurse a)) ->
  (forall a w res w',
      store_ok cw (current w) -> consistent cw a = Ok true ->
      uses_words cw a -> recurse a w = (Ok res, w') ->
      forall r, res = Some r -> solution cw r) ->
  forall vals a w res w',
    store_ok cw (current w) -> uses_words cw a ->
    (forall v, In v vals -> In v (words cw)) ->
    backtrack_loop cw recurse a variable vals w = (Ok res, w') ->
    forall r, res = Some r -> solution cw r.
Proof.
  intros Hframe Hrec.
  induction vals as [|value rest IH]; intros a w res w' Hw Ha Hvals H r Hr.
  - simpl in H. inversion H; subst. discriminate.
  - simpl in H.
    bind_inv H as u w1 Hi. inversion Hi; subst. clear Hi.
    bind_inv H as ok w2 Hc. unfold lift in Hc.
    injection Hc as Hc0 Hw2. subst w2.
    bind_inv H as r0 w3 Hbody.
    assert (uses_words cw (dict_set a variable value)) as Ha1.
    { apply uses_words_set; auto. apply Hvals. now left. }
    assert (current w3 = current w /\
            forall r1, r0 = Some r1 -> solution cw r1) as [Hcur Hr0].
    { destruct ok.
      - bind_inv Hbody as result w4 Hcall. inversion Hbody; subst.
        split.
        + now rewrite (frame_run _ _ _ _ _ (Hframe _) Hcall).
        + intros r1 Hr1. apply truthy_result in Hr1.
          eapply Hrec; [| exact Hc0 | exact Ha1 | exact Hcall | exact Hr1].
          exact Hw.
      - inversion Hbody; subst. split; auto. discriminate. }
    destruct r0 as [a'|].
    + inversion H; subst. now apply Hr0.
    + eapply IH; [| | |exact H|reflexivity].
      * now rewrite Hcur.
      * now apply uses_words_del.
      * intros v Hv. apply Hvals. now right.
Qed.

Lemma backtrack_sound fuel :
  forall a w res w',
    store_ok cw (current w) -> consistent cw a = Ok true ->
    uses_words cw a -> backtrack cw fuel a w = (Ok res, w') ->
    forall r, res = Some r -> solution cw r.
Proof.
  induction fuel as [|fuel IH]; intros a w res w' Hw Hc Ha H.
  - discriminate.
  - simpl in H.
    bind_inv H as u w1 Hi. inversion Hi; subst. clear Hi.
    bind_inv H as b w2 Hcomp.
    pose proof (frame_run _ _ _ _ _
                  (frame_through_domains _ _ (readonly_assignment_complete a))
                  Hcomp) as Hcur2.
    unfold through_domains in Hcomp.
    destruct (assignment_complete a (current _)) as [o d2] eqn:Ecomp.
    inversion Hcomp; subst o. clear Hcomp.
    apply assignment_complete_Ok in Ecomp. destruct Ecomp as [-> Hb].
    change (current {| objects := objects w; self_domains := self_domains w;
                       BACKTRACK_COUNTER := S (BACKTRACK_COUNTER w);
                       WORDS_TESTED := WORDS_TESTED w |})
      with (current w) in *.
    destruct b.
    + inversion H; subst. intros r Hr. inversion Hr; subst.
      repeat split; auto. eapply complete_of_keys; eauto.
    + bind_inv H as variable w3 Hsel.
      pose proof (frame_run _ _ _ _ _
                    (frame_through_domains _ _
                       (readonly_select_unassigned_variable cw a)) Hsel)
        as Hcur3.
      bind_inv H as vals w4 Hord.
      pose proof (frame_run _ _ _ _ _
                    (frame_through_domains _ _
                       (readonly_order_domain_values cw variable a)) Hord)
        as Hcur4.
      unfold through_domains in Hord.
      destruct (order_domain_values cw variable a (current w3)) as [o d4]
        eqn:Eord.
      inversion Hord; subst o. clear Hord.
      apply order_domain_values_Ok in Eord.
      destruct Eord as [-> (D & HD & Hvals)].
      eapply (backtrack_loop_sound (backtrack cw fuel) variable);
        [apply frame_backtrack | exact IH | | exact Ha | | exact H].
      * rewrite Hcur4, Hcur3, Hcur2. exact Hw.
      * intros v Hv. apply Hvals in Hv.
        rewrite Hcur3, Hcur2 in HD.
        now apply (proj2 (store_ok_get _ _ _ _ Hw HD)).
Qed.

(** ** backtrack_ac3 *)

Lemma backtrack_ac3_try_sound recurse (a : Assignment) variable domains_copy
      value n :
  (forall a w res w',
      world_inv cw n w -> consistent cw a = Ok true -> uses_words cw a ->
      recurse a w = (Ok res, w') ->
      world_inv cw n w' /\ forall r, res = Some r -> solution cw r) ->
  domains_copy < n -> uses_words cw a ->
  In variable (variables cw) -> In value (words cw) ->
  forall w res w',
    world_inv cw n w ->
    backtrack_ac3_try cw recurse a variable domains_copy value w = (Ok res, w') ->
    world_inv cw n w' /\ forall r, res = Some r -> solution cw r.
Proof.
  intros Hrec Hdc Ha Hvar Hval w res w' Hw H.
  unfold backtrack_ac3_try in H.
  bind_inv H as u w1 Hi. inversion Hi; subst. clear Hi.
  bind_inv H as ok w2 Hc. unfold lift in Hc.
    injection Hc as Hc0 Hw2. subst w2.
  bind_inv H as r0 w3 Hbody.
  assert (world_inv cw n
            {| objects := objects w; self_domains := self_domains w;
               BACKTRACK_COUNTER := BACKTRACK_COUNTER w;
               WORDS_TESTED := S (WORDS_TESTED w) |}) as Hw1 by exact Hw.
  assert (world_inv cw n w3 /\
          forall r1, r0 = Some r1 -> solution cw r1) as [Hw3 Hr0].
  { destruct ok.
    - bind_inv Hbody as u1 w4 Hset.
      assert (world_inv cw n w4) as Hw4.
      { eapply (through_domains_inv cw _ _ (fun _ => True) n);
          [|exact Hw1|exact Hset].
        intros d u d' Hd Hs. inversion Hs; subst. split; auto.
        apply store_ok_set_var; auto.
        intros v [<-|[]]. exact Hval. }
      bind_inv Hbody as b w5 Hac3.
      assert (world_inv cw n w5) as Hw5.
      { eapply (through_domains_inv cw _ _ (fun _ => True) n);
          [|exact Hw4|exact Hac3].
        intros d b' d' Hd Hs. split; auto. eapply ac3_store_ok; eauto. }
      bind_inv Hbody as result w6 Hcall. inversion Hbody; subst.
      destruct (Hrec _ _ _ _ Hw5 Hc0 (uses_words_set _ _ _ Ha Hval) Hcall)
        as [Hw6 Hres].
      split; auto. intros r1 Hr1. apply truthy_result in Hr1. auto.
    - inversion Hbody; subst. split; [exact Hw1|discriminate]. }
  destruct r0 as [a'|].
  - inversion H; subst. split; [exact Hw3|].
    intros r Hr. inversion Hr; subst. auto.
  - bind_inv H as u2 w4 Hre. inversion Hre; subst. inversion H; subst.
    split; [|discriminate].
    destruct Hw3 as [[Hp Hf] Hn]. repeat split; simpl; auto. lia.
Qed.

Lemma backtrack_ac3_loop_sound recurse variable domains_copy n :
  (forall a w res w',
      world_inv cw n w -> consistent cw a = Ok true -> uses_words cw a ->
      recurse a w = (Ok res, w') ->
      world_inv cw n w' /\ forall r, res = Some r -> solution cw r) ->
  domains_copy < n -> In variable (variables cw) ->
  forall vals a w res w',
    world_inv cw n w -> uses_words cw a ->
    (forall v, In v vals -> In v (words cw)) ->
    backtrack_ac3_loop cw recurse a variable domains_copy vals w = (Ok res, w') ->
    world_inv cw n w' /\ forall r, res = Some r -> solution cw r.
Proof.
  intros Hrec Hdc Hvar.
  induction vals as [|value rest IH]; intros a w res w' Hw Ha Hvals H.
  - simpl in H. inversion H; subst. split; [exact Hw|discriminate].
  - simpl in H. bind_inv H as r0 w1 Htry.
    destruct (backtrack_ac3_try_sound recurse a variable domains_copy value n
                Hrec Hdc Ha Hvar (Hvals _ (or_introl eq_refl)) _ _ _ Hw Htry)
      as [Hw1 Hr0].
    destruct r0 as [a'|].
    + inversion H; subst. split; [exact Hw1|].
      intros r Hr. inversion Hr; subst. auto.
    + eapply IH; [exact Hw1| | |exact H].
      * apply uses_words_del. apply uses_words_set; auto.
        apply Hvals. now left.
      * intros v Hv. apply Hvals. now right.
Qed.

Lemma backtrack_ac3_sound fuel :
  forall a n w res w',
    world_inv cw n w -> consistent cw a = Ok true -> uses_words cw a ->
    backtrack_ac3 cw fuel a w = (Ok res, w') ->
    world_inv cw n w' /\ forall r, res = Some r -> solution cw r.
Proof.
  induction fuel as [|fuel IH]; intros a n w res w' Hw Hc Ha H.
  - discriminate.
  - simpl in H.
    bind_inv H as u w1 Hi. inversion Hi; subst. clear Hi.
    assert (world_inv cw n
              {| objects := objects w; self_domains := self_domains w;
                 BACKTRACK_COUNTER := S (BACKTRACK_COUNTER w);
                 WORDS_TESTED := WORDS_TESTED w |}) as Hw1 by exact Hw.
    bind_inv H as b w2 Hcomp.
    assert (world_inv cw n w2 /\ (b = true -> complete cw a)) as [Hw2 Hb].
    { eapply (through_domains_inv cw _ _
                (fun b => b = true -> complete cw a) n);
        [|exact Hw1|exact Hcomp].
      intros d b' d' Hd Hs. apply assignment_complete_Ok in Hs.
      destruct Hs as [-> ->]. split; auto.
      intros Hall. eapply complete_of_keys; eauto. }
    destruct b.
    + inversion H; subst. split; [exact Hw2|].
      intros r Hr. inversion Hr; subst. repeat split; auto.
    + bind_inv H as variable w3 Hsel.
      assert (world_inv cw n w3 /\ In variable (variables cw)) as [Hw3 Hvar].
      { eapply (through_domains_inv cw _ _
                  (fun v => In v (variables cw)) n);
          [|exact Hw2|exact Hsel].
        intros d v d' Hd Hs. apply select_unassigned_variable_Ok in Hs.
        destruct Hs as (-> & Hin & _). split; auto.
        destruct Hd as [Hk _]. now rewrite <- Hk. }
      bind_inv H as domains_copy w4 Hcopy.
      destruct (deepcopy_domains_inv cw _ _ _ _ Hw3 Hcopy) as [Hw4 Hdc].
      bind_inv H as vals w5 Hord.
      assert (world_inv cw (Nat.max n (S domains_copy)) w4) as Hw4'.
      { destruct Hw4 as [Hok Hn]. split; auto. lia. }
      assert (world_inv cw (Nat.max n (S domains_copy)) w5
              /\ forall v, In v vals -> In v (words cw)) as [Hw5 Hvals].
      { eapply (through_domains_inv cw _ _
                  (fun vals => forall v, In v vals -> In v (words cw))
                  (Nat.max n (S domains_copy)));
          [|exact Hw4'|exact Hord].
        intros d vs d' Hd Hs. apply order_domain_values_Ok in Hs.
        destruct Hs as (-> & D & HD & Hin). split; auto.
        intros v Hv. apply Hin in Hv.
        now apply (proj2 (store_ok_get _ _ _ _ Hd HD)). }
      assert (world_inv cw (Nat.max n (S domains_copy)) w'
              /\ forall r, res = Some r -> solution cw r) as [Hw' Hres].
      { eapply (backtrack_ac3_loop_sound (backtrack_ac3 cw fuel) variable
                  domains_copy (Nat.max n (S domains_copy)));
          [| | exact Hvar | exact Hw5 | exact Ha | exact Hvals | exact H].
        - intros a0 w0 res0 w0' Hw0 Hc0 Ha0 Hrun. eapply IH; eauto.
        - lia. }
      split; auto. eapply world_inv_weaken; eauto. lia.
Qed.

(** ** solve *)

Lemma init_world_ok : world_inv cw 0 (init cw).
Proof.
  unfold world_inv, world_ok, init. simpl. repeat split; try lia.
  constructor; [|constructor]. split.
  - unfold dict_keys. rewrite map_map. simpl. apply map_id.
  - apply Forall_forall. intros kv Hin. apply in_map_iff in Hin.
    destruct Hin as (v & <- & _). simpl. apply incl_refl.
Qed.

Lemma consistent_empty : consistent cw [] = Ok true.
Proof. reflexivity. Qed.

Lemma solve_prepares interleaving res w' :
  solve cw interleaving (init cw) = (Ok res, w') ->
  exists w, world_inv cw 0 w
            /\ (if negb interleaving then backtrack cw (search_fuel w) []
                else backtrack_ac3 cw (search_fuel w) []) w = (Ok res, w').
Proof.
  intros H. unfold solve in H.
  bind_inv H as u w1 Hnode.
  assert (world_inv cw 0 w1) as Hw1.
  { eapply (through_domains_inv cw _ _ (fun _ => True) 0);
      [|exact init_world_ok|exact Hnode].
    intros d u' d' Hd Hs. split; auto.
    eapply enforce_node_consistency_store_ok; eauto. }
  bind_inv H as b w2 Hac3.
  assert (world_inv cw 0 w2) as Hw2.
  { eapply (through_domains_inv cw _ _ (fun _ => True) 0);
      [|exact Hw1|exact Hac3].
    intros d b' d' Hd Hs. split; auto. eapply ac3_store_ok; eauto. }
  bind_inv H as w3 w4 Hget. inversion Hget; subst.
  exists w4. split; auto.
Qed.

End Soundness.

(** C1: whatever the puzzle and the word list, an assignment returned by
    [solve], through the plain search or through the interleaved one, gives
    a word to every slot, passes [consistent] and uses words of the word
    list only. *)
Theorem solve_sound cw (interleaving : bool) (a : Assignment) :
  fst (solve cw interleaving (init cw)) = Ok (Some a) ->
  complete cw a /\ consistent cw a = Ok true /\ uses_words cw a.
Proof.
  intros H.
  destruct (solve cw interleaving (init cw)) as [o w'] eqn:E.
  simpl in H. subst o.
  apply solve_prepares in E. destruct E as (w & Hw & Hrun).
  assert (uses_words cw []) as Hnil by constructor.
  destruct interleaving; unfold negb in Hrun.
  - exact (proj2 (backtrack_ac3_sound cw _ _ _ _ _ _ Hw (consistent_empty cw)
                    Hnil Hrun) a eq_refl).
  - exact (backtrack_sound cw _ _ _ _ _
             (world_ok_current cw _ (proj1 Hw)) (consistent_empty cw)
             Hnil Hrun a eq_refl).
Qed.

Lemma solve_sound_witness :
  let a := [(Puzzle.north, "qxxs"%string); (Puzzle.west, "qxu"%string);
            (Puzzle.east, "sxv"%string); (Puzzle.south, "uxxv"%string)] in
  complete Puzzle.ring a
  /\ consistent Puzzle.ring a = Ok true
  /\ uses_words Puzzle.ring a.
Proof.
  intros a. apply (solve_sound Puzzle.ring true a).
  vm_compute. reflexivity.
Defined.

(* ------------------------------------------------------------------ *)
(** * Runs on well-formed puzzles raise nothing and terminate *)
(* ------------------------------------------------------------------ *)

Lemma string_get_in_range (s : string) (n : nat) :
  n < String.length s -> exists c, String.get n s = Some c.
Proof.
  revert n. induction s as [|c s IH]; intros n Hn; simpl in Hn; [lia|].
  destruct n as [|n]; simpl; eauto. apply IH. lia.
Qed.

Lemma filter_twice A (p : A -> bool) (l : list A) :
  filter p (filter p l) = filter p l.
Proof.
  induction l as [|a l IH]; simpl; auto.
  destruct (p a) eqn:E; simpl; rewrite ?E, IH; auto.
Qed.



Lemma mem_var_In x ks : mem_var x ks = true <-> In x ks.
Proof.
  unfold mem_var. rewrite existsb_exists. split.
  - intros (k & Hk & E). apply Var_eqb_eq in E. now subst.
  - intros H. exists x. split; auto. apply Var_eqb_refl.
Qed.

Lemma enforce_node_consistency_loop_run ks :
  forall d : Domains,
    incl ks (dict_keys d) ->
    exists d',
      enforce_node_consistency_loop ks d = (Ok tt, d')
      /\ dict_keys d' = dict_keys d
      /\ forall x,
          dict_get d' x =
          option_map (fun vals => if mem_var x ks then filter (fits x) vals
                                  else vals)
                     (dict_get d x).
Proof.
  induction ks as [|k ks IH]; intros d Hks.
  - exists d. repeat split; auto. intros x. simpl.
    now destruct (dict_get d x).
  - assert (In k (dict_keys d)) as Hk by (apply Hks; now left).
    destruct (dict_key_get _ _ _ Hk) as [vals Hvals].
    cbn [enforce_node_consistency_loop]. cbv zeta.
    unfold bind at 1. unfold get_domain at 1. rewrite Hvals.
    unfold bind at 1. unfold set_domain at 1.
    pose proof (set_diff_filter (fits k) vals) as Hdiff.
    unfold fits in Hdiff at 1. rewrite Hdiff. clear Hdiff.
    destruct (IH (dict_set d k (filter (fits k) vals))) as (d' & Hrun & Hkeys & Hget).
    { rewrite dict_set_keys by exact Hk. intros z Hz. apply Hks. now right. }
    exists d'. split; [exact Hrun|]. split.
    { rewrite Hkeys. now apply dict_set_keys. }
    intros x. rewrite Hget, dict_get_set. simpl.
    rewrite (Var_eqb_sym x k).
    destruct (Var_eqb k x) eqn:E; simpl.
    + apply Var_eqb_eq in E. subst x. rewrite Hvals. simpl.
      destruct (mem_var k ks); [now rewrite filter_twice | reflexivity].
    + reflexivity.
Qed.

Section WellFormed.
Variable cw : Crossword.
Hypothesis Hrange : overlaps_in_range cw = true.


Lemma overlap_satisfied_total x y vx vy :
  In x (variables cw) -> In y (variables cw) ->
  String.length vx = v_length x -> String.length vy = v_length y ->
  exists b, overlap_satisfied cw x y vx vy = Ok b.
Proof.
  intros Hx Hy Hlx Hly. unfold overlap_satisfied.
  destruct (overlaps cw x y) as [[i j]|] eqn:Eo; [|eauto].
  unfold overlaps_in_range in Hrange.
  rewrite forallb_forall in Hrange. specialize (Hrange x Hx).
  rewrite forallb_forall in Hrange. specialize (Hrange y Hy).
  rewrite Eo in Hrange. apply andb_true_iff in Hrange.
  destruct Hrange as [Hi Hj]. apply Nat.ltb_lt in Hi, Hj.
  destruct (string_get_in_range vx i) as [cx ->]; [lia|].
  destruct (string_get_in_range vy j) as [cy ->]; [lia|]. eauto.
Qed.

Lemma revise_inner_total x y vx vals_y :
  In x (variables cw) -> In y (variables cw) ->
  String.length vx = v_length x ->
  (forall vy, In vy vals_y -> String.length vy = v_length y) ->
  exists c, revise_inner cw x y vx vals_y = Ok c.
Proof.
  intros Hx Hy Hlx. induction vals_y as [|vy rest IH]; intros Hly; simpl.
  - eauto.
  - destruct (String.eqb vx vy); simpl.
    + apply IH. intros v Hv. apply Hly. now right.
    + destruct (overlap_satisfied_total x y vx vy Hx Hy Hlx) as [[|] ->].
      * apply Hly. now left.
      * eauto.
      * apply IH. intros v Hv. apply Hly. now right.
Qed.

Lemma total_size_set (d : Domains) x old new :
  dict_get d x = Some old ->
  total_size (dict_set d x new) + List.length old
  = total_size d + List.length new.
Proof.
  induction d as [|[k v] d IH]; simpl; [discriminate|].
  destruct (Var_eqb k x) eqn:E.
  - intros [= ->]. simpl. lia.
  - intros H. simpl. specialize (IH H). lia.
Qed.

Lemma store_wf_get (d : Domains) x :
  store_wf cw d -> In x (variables cw) -> exists vals, dict_get d x = Some vals.
Proof.
  intros [Hk _] Hx. apply dict_key_get. now rewrite Hk.
Qed.

Lemma revise_wf (d : Domains) x y :
  store_wf cw d -> In x (variables cw) -> In y (variables cw) ->
  exists b d',
    revise cw x y d = (Ok b, d')
    /\ store_wf cw d'
    /\ (b = false -> d' = d)
    /\ (b = true -> total_size d' < total_size d)
    /\ (forall z, dict_get d z = Some [] -> dict_get d' z = Some []).
Proof.
  intros Hd Hx Hy.
  destruct (store_wf_get d x Hd Hx) as [vals_x Hgx].
  destruct (store_wf_get d y Hd Hy) as [vals_y Hgy].
  destruct Hd as [Hk Hn].
  rewrite (revise_run cw x y d vals_x vals_y Hgx Hgy).
  2:{ intros vx Hvx. apply revise_inner_total; auto.
      - exact (Hn _ _ Hgx _ Hvx).
      - exact (Hn _ _ Hgy). }
  do 2 eexists. split; [reflexivity|].
  set (keep := supported cw d x y).
  split; [|split; [|split]].
  - split.
    + rewrite dict_set_keys; auto. eapply dict_get_key; eauto.
    + intros z vals Hz v Hv. rewrite dict_get_set in Hz.
      destruct (Var_eqb x z) eqn:E.
      * apply Var_eqb_eq in E. subst z. inversion Hz; subst.
        apply filter_In in Hv. exact (Hn _ _ Hgx _ (proj1 Hv)).
      * exact (Hn _ _ Hz _ Hv).
  - intros Hb. apply negb_false_iff in Hb.
    rewrite (filter_all _ _ _ Hb). now apply dict_set_same.
  - intros Hb. apply negb_true_iff in Hb.
    pose proof (filter_length_lt _ _ _ Hb) as Hlt.
    pose proof (total_size_set d x vals_x (filter keep vals_x) Hgx). lia.
  - intros z Hz. rewrite dict_get_set.
    destruct (Var_eqb x z) eqn:E; auto.
    apply Var_eqb_eq in E. subst z. rewrite Hgx in Hz. inversion Hz; subst.
    reflexivity.
Qed.

Lemma neighbors_incl x : incl (neighbors cw x) (variables cw).
Proof. intros z Hz. unfold neighbors in Hz. now apply filter_In in Hz. Qed.

Lemma ac3_loop_total fuel :
  forall stack (d : Domains),
    store_wf cw d ->
    (forall x y, In (x, y) stack ->
                 In x (variables cw) /\ In y (variables cw)) ->
    List.length stack + List.length (variables cw) * total_size d <= fuel ->
    exists b d',
      ac3_loop cw fuel stack d = (Ok b, d')
      /\ store_wf cw d'
      /\ (forall z, dict_get d z = Some [] -> dict_get d' z = Some []).
Proof.
  induction fuel as [|fuel IH]; intros stack d Hd Hstack Hfuel.
  - destruct stack as [|[x y] rest]; simpl in Hfuel; [|lia].
    exists true, d. repeat split; auto; apply Hd.
  - destruct stack as [|[x y] rest].
    { exists true, d. repeat split; auto; apply Hd. }
    destruct (Hstack x y (or_introl eq_refl)) as [Hx Hy].
    destruct (revise_wf d x y Hd Hx Hy)
      as (b & d1 & Hrev & Hd1 & Hsame & Hless & Hempty).
    simpl. unfold bind at 1. rewrite Hrev.
    simpl in Hfuel.
    destruct b.
    + specialize (Hless eq_refl).
      destruct (store_wf_get d1 x Hd1 Hx) as [vals Hvals].
      unfold bind at 1. unfold get_domain at 1. rewrite Hvals.
      destruct vals as [|v vals].
      * exists false, d1. repeat split; auto; apply Hd1.
      * set (zs := filter (fun z => negb (Var_eqb z y)) (neighbors cw x)).
        assert (incl zs (variables cw)) as Hzs.
        { intros z Hz. apply filter_In in Hz. destruct Hz as [Hz _].
          now apply neighbors_incl in Hz. }
        assert (List.length zs <= List.length (variables cw)) as Hlen.
        { unfold zs, neighbors.
          eapply Nat.le_trans; [apply filter_length_le|apply filter_length_le]. }
        destruct (IH (rev (map (fun z => (z, x)) zs) ++ rest)%list d1 Hd1)
          as (b' & d' & Hrun & Hd' & Hempty').
        { intros a b Hin. apply in_app_or in Hin. destruct Hin as [Hin|Hin].
          - apply in_rev, in_map_iff in Hin.
            destruct Hin as (z & Hz & Hin). inversion Hz; subst. auto.
          - apply Hstack. now right. }
        { rewrite length_app, length_rev, length_map. nia. }
        exists b', d'. repeat split; auto; apply Hd'.
    + specialize (Hsame eq_refl). subst d1.
      destruct (IH rest d Hd) as (b' & d' & Hrun & Hd' & Hempty').
      { intros a b Hin. apply Hstack. now right. }
      { lia. }
      exists b', d'. repeat split; auto; apply Hd'.
Qed.

Lemma all_arcs_In ks x y : In (x, y) (all_arcs ks) -> In x ks /\ In y ks.
Proof.
  unfold all_arcs. intros H. apply in_flat_map in H.
  destruct H as (k & Hk & H). apply in_map_iff in H.
  destruct H as (k' & Heq & H). apply filter_In in H.
  inversion Heq; subst. tauto.
Qed.

Lemma ac3_total (d : Domains) :
  store_wf cw d ->
  exists b d',
    ac3 cw None d = (Ok b, d')
    /\ store_wf cw d'
    /\ (forall z, dict_get d z = Some [] -> dict_get d' z = Some []).
Proof.
  intros Hd. unfold ac3. unfold bind at 1. unfold bind at 1, domain_keys, ret.
  unfold bind, get_state.
  apply ac3_loop_total; auto.
  - intros x y Hin. apply in_rev, all_arcs_In in Hin.
    destruct Hd as [Hk _]. now rewrite <- Hk.
  - unfold ac3_fuel. rewrite length_rev. lia.
Qed.

End WellFormed.

(* ------------------------------------------------------------------ *)
(** * A slot that no word fits *)
(* ------------------------------------------------------------------ *)

Lemma key_leb_fst a b : key_leb a b = true -> fst a <= fst b.
Proof.
  unfold key_leb. intros H. apply orb_true_iff in H.
  destruct H as [H|H].
  - apply Nat.ltb_lt in H. lia.
  - apply andb_true_iff in H. destruct H as [H _].
    apply Nat.eqb_eq in H. lia.
Qed.

Lemma key_leb_false_fst a b : key_leb a b = false -> fst b <= fst a.
Proof.
  unfold key_leb. intros H. apply orb_false_iff in H.
  destruct H as [H _]. apply Nat.ltb_ge in H. exact H.
Qed.

(** After the sort the first element has the smallest domain. *)
Lemma sort_by_head_min (l : list (Var * (nat * Z))) :
  forall h t, sort_by key_leb l = h :: t ->
    forall e, In e l -> fst (snd h) <= fst (snd e).
Proof.
  induction l as [|x l IH]; intros h t Hs e He; [destruct He|].
  simpl in Hs.
  destruct (sort_by key_leb l) as [|y l'] eqn:El.
  - apply sort_by_nil in El. subst l. simpl in Hs. inversion Hs; subst.
    destruct He as [<-|[]]. lia.
  - simpl in Hs. destruct (key_leb (snd x) (snd y)) eqn:Ek.
    + inversion Hs; subst. apply key_leb_fst in Ek.
      destruct He as [<-|He]; [lia|].
      specialize (IH y l' eq_refl e He). lia.
    + inversion Hs; subst. apply key_leb_false_fst in Ek.
      destruct He as [<-|He]; [lia|].
      exact (IH h l' eq_refl e He).
Qed.

Lemma through_domains_first A (m : M Domains A) d rest c1 c2 :
  through_domains m (mkWorld (d :: rest) 0 c1 c2) =
  (fst (m d), mkWorld (snd (m d) :: rest) 0 c1 c2).
Proof.
  unfold through_domains, current, with_current. simpl.
  now destruct (m d).
Qed.

(** Runs the first method of a sequence on the store, given its result. *)
Ltac run_through H :=
  unfold bind at 1; rewrite through_domains_first, H; cbn [fst snd]; cbv iota.

Section EmptyDomain.
Variable cw : Crossword.

Lemma select_keys_total vars (d : Domains) :
  (forall x, In x vars -> exists vals, dict_get d x = Some vals) ->
  exists keyed, select_keys cw vars d = (Ok keyed, d).
Proof.
  induction vars as [|x vars IH]; intros H; simpl.
  - eexists. reflexivity.
  - destruct (H x (or_introl eq_refl)) as [vals Hx].
    destruct IH as [keyed Hk]; [intros z Hz; apply H; now right|].
    unfold bind at 1. unfold get_domain at 1. rewrite Hx.
    unfold bind at 1. rewrite Hk. eexists. reflexivity.
Qed.

Lemma filter_unassigned_empty (ks : list Var) :
  filter (fun k => negb (dict_mem (@nil (Var * string)) k)) ks = ks.
Proof.
  induction ks as [|k ks IH]; [reflexivity|].
  cbn. unfold dict_mem in IH. cbn in IH. now rewrite IH.
Qed.

(** With the empty assignment, a store in which some slot has no candidate
    makes [select_unassigned_variable] return a slot without candidates. *)
Lemma select_finds_empty (d : Domains) s :
  dict_get d s = Some [] ->
  exists v, select_unassigned_variable cw [] d = (Ok v, d)
            /\ dict_get d v = Some [].
Proof.
  intros Hs. unfold select_unassigned_variable.
  unfold bind at 1. unfold domain_keys at 1.
  rewrite filter_unassigned_empty.
  destruct (select_keys_total (dict_keys d) d) as [keyed Hk].
  { intros x Hx. now apply dict_key_get. }
  unfold bind at 1. rewrite Hk.
  pose proof (select_keys_fst _ _ _ _ _ Hk) as Hfst.
  assert (exists ks, In (s, ks) keyed) as [ks Hin].
  { pose proof (dict_get_key _ _ _ _ Hs) as Hkey. rewrite <- Hfst in Hkey.
    apply in_map_iff in Hkey. destruct Hkey as ([s' ks] & Heq & Hin).
    simpl in Heq. subst s'. eauto. }
  destruct (select_keys_key _ _ _ _ _ _ _ Hk Hin) as (vals_s & Hgs & Hlen).
  rewrite Hs in Hgs. inversion Hgs; subst vals_s. simpl in Hlen.
  destruct (sort_by key_leb keyed) as [|[v kv] t] eqn:Es.
  { apply sort_by_nil in Es. subst keyed. destruct Hin. }
  simpl. exists v. split; [reflexivity|].
  pose proof (sort_by_head_min keyed _ _ Es _ Hin) as Hmin. simpl in Hmin.
  assert (In (v, kv) keyed) as Hv.
  { apply (sort_by_In _ _ key_leb). rewrite Es. now left. }
  destruct (select_keys_key _ _ _ _ _ _ _ Hk Hv) as (vals & Hgv & Hlv).
  rewrite Hgv. f_equal. destruct vals; auto. simpl in Hlv. lia.
Qed.

Lemma order_domain_values_empty var a (d : Domains) :
  dict_get d var = Some [] ->
  order_domain_values cw var a d = (Ok [], d).
Proof.
  intros H. unfold order_domain_values, bind, get_domain. now rewrite H.
Qed.

Lemma assignment_incomplete (d : Domains) s vals :
  dict_get d s = Some vals ->
  assignment_complete [] d = (Ok false, d).
Proof.
  intros H. unfold assignment_complete, bind, domain_keys, ret.
  apply dict_get_key in H.
  destruct (dict_keys d) as [|k ks]; [destruct H|reflexivity].
Qed.

Lemma backtrack_empty_domain fuel (d : Domains) rest c1 c2 s :
  dict_get d s = Some [] ->
  fst (backtrack cw (S fuel) [] (mkWorld (d :: rest) 0 c1 c2)) = Ok None.
Proof.
  intros Hs. destruct (select_finds_empty d s Hs) as (v & Hsel & Hv).
  cbn [backtrack].
  unfold bind at 1. unfold incr_BACKTRACK_COUNTER at 1.
  cbn [objects self_domains BACKTRACK_COUNTER WORDS_TESTED].
  run_through (assignment_incomplete d s [] Hs).
  run_through Hsel.
  run_through (order_domain_values_empty v [] d Hv).
  reflexivity.
Qed.

Lemma backtrack_ac3_empty_domain fuel (d : Domains) rest c1 c2 s :
  dict_get d s = Some [] ->
  fst (backtrack_ac3 cw (S fuel) [] (mkWorld (d :: rest) 0 c1 c2)) = Ok None.
Proof.
  intros Hs. destruct (select_finds_empty d s Hs) as (v & Hsel & Hv).
  cbn [backtrack_ac3].
  unfold bind at 1. unfold incr_BACKTRACK_COUNTER at 1.
  cbn [objects self_domains BACKTRACK_COUNTER WORDS_TESTED].
  run_through (assignment_incomplete d s [] Hs).
  run_through Hsel.
  unfold bind at 1. unfold deepcopy_domains at 1.
  cbn [objects self_domains BACKTRACK_COUNTER WORDS_TESTED app].
  run_through (order_domain_values_empty v [] d Hv).
  reflexivity.
Qed.

End EmptyDomain.

Lemma filter_none A (p : A -> bool) (l : list A) :
  (forall a, In a l -> p a = false) -> filter p l = [].
Proof.
  induction l as [|a l IH]; intros H; [reflexivity|]. simpl.
  rewrite (H a (or_introl eq_refl)). apply IH. intros b Hb. apply H. now right.
Qed.

Lemma init_get cw x vals :
  dict_get (map (fun var => (var, words cw)) (variables cw)) x = Some vals ->
  vals = words cw.
Proof.
  intros H. apply dict_get_In, in_map_iff in H.
  destruct H as (v & Heq & _). now inversion Heq.
Qed.

Lemma init_keys cw :
  dict_keys (map (fun var => (var, words cw)) (variables cw)) = variables cw.
Proof. unfold dict_keys. rewrite map_map. apply map_id. Qed.

(** [enforce_node_consistency] on the store [__init__] builds. *)
Lemma enforce_node_consistency_init cw :
  exists d1,
    enforce_node_consistency
      (map (fun var => (var, words cw)) (variables cw)) = (Ok tt, d1)
    /\ store_wf cw d1
    /\ forall x, In x (variables cw) ->
                 dict_get d1 x = Some (filter (fits x) (words cw)).
Proof.
  set (d0 := map (fun var => (var, words cw)) (variables cw)).
  destruct (enforce_node_consistency_loop_run (dict_keys d0) d0
              (incl_refl _)) as (d1 & Hrun & Hkeys & Hget).
  assert (forall x, In x (variables cw) ->
                    dict_get d1 x = Some (filter (fits x) (words cw))) as Hfit.
  { intros x Hx. rewrite Hget.
    assert (In x (dict_keys d0)) as Hk by (unfold d0; now rewrite init_keys).
    destruct (dict_key_get _ _ _ Hk) as [vals Hvals]. rewrite Hvals.
    apply init_get in Hvals. subst vals. simpl.
    apply mem_var_In in Hk. now rewrite Hk. }
  exists d1. split; [exact Hrun|]. split; [|exact Hfit].
  split.
  - rewrite Hkeys. apply init_keys.
  - intros x vals Hx v Hv.
    assert (In x (variables cw)) as Hin.
    { apply dict_get_key in Hx. rewrite Hkeys in Hx. unfold d0 in Hx.
      now rewrite init_keys in Hx. }
    rewrite (Hfit x Hin) in Hx. inversion Hx; subst.
    apply filter_In in Hv. destruct Hv as [_ Hv].
    now apply Nat.eqb_eq in Hv.
Qed.

(** C9: when some slot has a length that no word of the word list has,
    [solve] returns None, with and without interleaving; it raises nothing
    and its loops terminate. *)
Theorem solve_unfillable_slot cw (interleaving : bool) (s : Var) :
  overlaps_in_range cw = true ->
  In s (variables cw) ->
  (forall word, In word (words cw) -> String.length word <> v_length s) ->
  fst (solve cw interleaving (init cw)) = Ok None.
Proof.
  intros Hrange Hs Hnone.
  destruct (enforce_node_consistency_init cw) as (d1 & Henf & Hwf1 & Hfit).
  assert (dict_get d1 s = Some []) as Hs1.
  { rewrite (Hfit s Hs). f_equal. apply filter_none.
    intros word Hword. apply Nat.eqb_neq. now apply Hnone. }
  destruct (ac3_total cw Hrange d1 Hwf1) as (b & d2 & Hac3 & Hwf2 & Hempty).
  specialize (Hempty s Hs1).
  unfold solve, init.
  run_through Henf.
  run_through Hac3.
  unfold bind at 1. unfold get_state at 1.
  unfold search_fuel.
  destruct interleaving; cbn [negb].
  - eapply backtrack_ac3_empty_domain; eauto.
  - eapply backtrack_empty_domain; eauto.
Qed.

Lemma solve_unfillable_slot_witness :
  fst (solve (Puzzle.cross ["no"; "to"]%string) true
             (init (Puzzle.cross ["no"; "to"]%string))) = Ok None
  /\ fst (solve (Puzzle.cross ["no"; "to"]%string) false
                (init (Puzzle.cross ["no"; "to"]%string))) = Ok None.
Proof.
  assert (forall word,
             In word (words (Puzzle.cross ["no"; "to"]%string)) ->
             String.length word <> v_length Puzzle.across) as Hnone.
  { intros word [<-|[<-|[]]]; discriminate. }
  split;
    apply (solve_unfillable_slot (Puzzle.cross ["no"; "to"]%string) _
             Puzzle.across eq_refl (or_introl eq_refl) Hnone).
Defined.

(* ------------------------------------------------------------------ *)
(** * Arc consistency after a successful full ac3 *)
(* ------------------------------------------------------------------ *)

Section ArcConsistency.
Variable cw : Crossword.
Hypothesis Hsym : symmetric_overlaps cw.

Lemma overlap_satisfied_sym x y vx vy :
  In x (variables cw) -> In y (variables cw) ->
  overlap_satisfied cw y x vy vx = Ok true ->
  overlap_satisfied cw x y vx vy = Ok true.
Proof.
  intros Hx Hy. unfold overlap_satisfied. rewrite (Hsym x y Hx Hy).
  destruct (overlaps cw x y) as [[i j]|]; simpl; auto.
  destruct (String.get j vy) as [cy|]; [|discriminate].
  destruct (String.get i vx) as [cx|]; [|discriminate].
  intros H. injection H as Heq.
  apply Ascii.eqb_eq in Heq. subst. now rewrite Ascii.eqb_refl.
Qed.

Lemma neighbors_In x y :
  In y (neighbors cw x) <->
  In y (variables cw) /\ Var_eqb y x = false /\ overlaps cw x y <> None.
Proof.
  unfold neighbors. rewrite filter_In, andb_true_iff, negb_true_iff.
  destruct (overlaps cw x y); simpl; intuition congruence.
Qed.

Lemma neighbors_sym x y :
  In x (variables cw) -> In y (neighbors cw x) -> In x (neighbors cw y).
Proof.
  intros Hx Hy. apply neighbors_In in Hy. destruct Hy as (Hy & Hne & Ho).
  apply neighbors_In. repeat split; auto.
  - now rewrite Var_eqb_sym.
  - rewrite (Hsym x y Hx Hy). destruct (overlaps cw x y); simpl; congruence.
Qed.


(** What one iteration of the loop of [ac3] does to an arc between
    neighbors that is waiting on the stack or consistent. *)
Lemma revise_keeps_arc x0 y0 rest stack' (d d1 : Domains) b a b' :
  In a (variables cw) -> In b' (neighbors cw a) ->
  In (a, b') ((x0, y0) :: rest) \/ arc_consistent cw d a b' ->
  revise cw x0 y0 d = (Ok b, d1) ->
  incl rest stack' ->
  (b = true -> forall z, In z (neighbors cw x0) -> Var_eqb z y0 = false ->
               In (z, x0) stack') ->
  In (a, b') stack' \/ arc_consistent cw d1 a b'.
Proof.
  intros Ha Hb' Harc Hrev Hrest Hpush.
  apply revise_Ok in Hrev.
  destruct Hrev as (vals_x & Hgx & Hb & -> & Hinner).
  set (keep := supported cw d x0 y0) in *.
  assert (forall vx, In vx (filter keep vals_x) -> In vx vals_x) as Hsub
    by (intros vx Hvx; now apply filter_In in Hvx).
  assert (Hb'v : In b' (variables cw)) by (now apply neighbors_In in Hb').
  assert (Hab : Var_eqb b' a = false) by (now apply neighbors_In in Hb').
  (* the arc that was revised *)
  assert (a = x0 -> b' = y0 ->
          arc_consistent cw (dict_set d x0 (filter keep vals_x)) a b') as Hrevised.
  { intros -> ->. intros vx' vy' Hx' Hy' vx Hvx.
    rewrite dict_get_set, Var_eqb_refl in Hx'. inversion Hx'; subst vx'.
    rewrite dict_get_set in Hy'. rewrite (Var_eqb_sym x0 y0), Hab in Hy'.
    apply filter_In in Hvx. destruct Hvx as [Hvx Hkeep].
    unfold keep, supported in Hkeep. rewrite Hy' in Hkeep.
    destruct (revise_inner cw x0 y0 vx vy') as [[|]|e|] eqn:Ei;
      try discriminate.
    now apply revise_inner_sound in Ei. }
  destruct Harc as [[Heq|Hin]|Hac].
  - inversion Heq; subst. right. now apply Hrevised.
  - left. now apply Hrest.
  - destruct (Var_eqb b' x0) eqn:Ebx.
    + (* an arc into the revised slot *)
      apply Var_eqb_eq in Ebx. subst b'.
      destruct b.
      * destruct (Var_eqb a y0) eqn:Eay.
        -- apply Var_eqb_eq in Eay. subst a. right.
           intros vals_y vals_x' Hgy Hgx' vy Hvy.
           rewrite dict_get_set, Var_eqb_refl in Hgx'.
           inversion Hgx'; subst vals_x'.
           rewrite dict_get_set, Hab in Hgy.
           destruct (Hac _ _ Hgy Hgx vy Hvy) as (vx & Hvx & Hne & Hsat).
           exists vx. repeat split; auto.
           apply filter_In. split; auto.
           unfold keep, supported. rewrite Hgy.
           destruct (Hinner vx Hvx) as (vals_y' & c & Hgy' & Hc).
           rewrite Hgy in Hgy'. inversion Hgy'; subst vals_y'.
           rewrite Hc.
           rewrite (revise_inner_complete cw x0 y0 vx vals_y c Hc); auto.
           exists vy. repeat split; auto.
           now apply overlap_satisfied_sym.
        -- left. apply Hpush; auto.
           now apply neighbors_sym.
      * right. symmetry in Hb. apply negb_false_iff in Hb.
        rewrite (filter_all _ _ _ Hb).
        now rewrite (dict_set_same _ _ _ _ Hgx).
    + (* the second slot of the arc is untouched *)
      right. intros vals_a vals_b Hga Hgb va Hva.
      rewrite dict_get_set in Hgb. rewrite (Var_eqb_sym x0 b'), Ebx in Hgb.
      rewrite dict_get_set in Hga.
      destruct (Var_eqb x0 a) eqn:Exa.
      * apply Var_eqb_eq in Exa. subst a. inversion Hga; subst vals_a.
        exact (Hac _ _ Hgx Hgb va (Hsub _ Hva)).
      * exact (Hac _ _ Hga Hgb va Hva).
Qed.

Lemma revise_keeps_pending x0 y0 rest stack' (d d1 : Domains) b :
  pending cw ((x0, y0) :: rest) d ->
  revise cw x0 y0 d = (Ok b, d1) ->
  incl rest stack' ->
  (b = true -> forall z, In z (neighbors cw x0) -> Var_eqb z y0 = false ->
               In (z, x0) stack') ->
  pending cw stack' d1.
Proof.
  intros Hpend Hrev Hrest Hpush a b' Ha Hb'.
  exact (revise_keeps_arc x0 y0 rest stack' d d1 b a b' Ha Hb'
           (Hpend a b' Ha Hb') Hrev Hrest Hpush).
Qed.

(** An arc between neighbors that is on the stack or consistent when the
    loop starts is consistent when the loop ends with success. *)
Lemma ac3_loop_propagates fuel a b' :
  In a (variables cw) -> In b' (neighbors cw a) ->
  forall stack (d d' : Domains),
    In (a, b') stack \/ arc_consistent cw d a b' ->
    ac3_loop cw fuel stack d = (Ok true, d') ->
    arc_consistent cw d' a b'.
Proof.
  intros Ha Hb'.
  induction fuel as [|fuel IH]; intros stack d d' Harc H.
  - destruct stack as [|[x y] rest]; simpl in H; [|discriminate].
    inversion H; subst. destruct Harc as [[]|Hac]. exact Hac.
  - destruct stack as [|[x y] rest]; simpl in H.
    { inversion H; subst. destruct Harc as [[]|Hac]. exact Hac. }
    bind_inv H as b d1 Hrev.
    destruct b.
    + bind_inv H as vals d2 Hg.
      pose proof (readonly_state _ _ _ _ (readonly_get_domain x) Hg). subst d2.
      destruct vals as [|v vals]; [discriminate|].
      eapply IH; [|exact H].
      eapply revise_keeps_arc; [exact Ha|exact Hb'|exact Harc|exact Hrev| |].
      * intros p Hp. apply in_or_app. now right.
      * intros _ z Hz Hzy. apply in_or_app. left.
        apply -> in_rev. apply in_map_iff. exists z. split; auto.
        apply filter_In. split; auto. now rewrite Hzy.
    + eapply IH; [|exact H].
      eapply revise_keeps_arc; [exact Ha|exact Hb'|exact Harc|exact Hrev| |].
      * intros p Hp. exact Hp.
      * discriminate.
Qed.

Lemma ac3_loop_arc_consistent fuel :
  forall stack (d d' : Domains),
    pending cw stack d ->
    ac3_loop cw fuel stack d = (Ok true, d') ->
    pending cw [] d'.
Proof.
  induction fuel as [|fuel IH]; intros stack d d' Hpend H.
  - destruct stack as [|[x y] rest]; simpl in H; [|discriminate].
    now inversion H; subst.
  - destruct stack as [|[x y] rest]; simpl in H.
    { now inversion H; subst. }
    bind_inv H as b d1 Hrev.
    destruct b.
    + bind_inv H as vals d2 Hg.
      pose proof (readonly_state _ _ _ _ (readonly_get_domain x) Hg). subst d2.
      destruct vals as [|v vals]; [discriminate|].
      eapply IH; [|exact H].
      eapply revise_keeps_pending; [exact Hpend|exact Hrev| |].
      * intros p Hp. apply in_or_app. now right.
      * intros _ z Hz Hzy. apply in_or_app. left.
        apply -> in_rev. apply in_map_iff. exists z. split; auto.
        apply filter_In. split; auto. now rewrite Hzy.
    + eapply IH; [|exact H].
      eapply revise_keeps_pending; [exact Hpend|exact Hrev| |].
      * intros p Hp. exact Hp.
      * discriminate.
Qed.

Lemma all_arcs_complete ks x y :
  In x ks -> In y ks -> Var_eqb x y = false -> In (x, y) (all_arcs ks).
Proof.
  intros Hx Hy Hne. unfold all_arcs. apply in_flat_map. exists x.
  split; auto. apply in_map_iff. exists y. split; auto.
  apply filter_In. split; auto. now rewrite Hne.
Qed.

Lemma all_arcs_pending (d : Domains) :
  pending cw (rev (all_arcs (dict_keys d))) d.
Proof.
  intros x y Hx Hy.
  destruct (dict_get d x) as [vals_x|] eqn:Ex;
    [|right; intros vx vy Hgx; congruence].
  destruct (dict_get d y) as [vals_y|] eqn:Ey;
    [|right; intros vx vy _ Hgy; congruence].
  left. apply -> in_rev. apply all_arcs_complete.
  - eapply dict_get_key; eauto.
  - eapply dict_get_key; eauto.
  - apply neighbors_In in Hy. now rewrite Var_eqb_sym.
Qed.

Lemma ac3_pending (d d' : Domains) :
  ac3 cw None d = (Ok true, d') -> pending cw [] d'.
Proof.
  intros H. unfold ac3 in H.
  bind_inv H as arcs d1 Ha. inversion Ha; subst.
  bind_inv H as d0 d2 Hs. inversion Hs; subst.
  eapply ac3_loop_arc_consistent; [|exact H].
  apply all_arcs_pending.
Qed.

End ArcConsistency.

(** C5: when [ac3], called without a queue, returns success, every word
    left in the domain of a slot [x] has, in the domain of every neighbor
    [y] of [x], a different word that carries the same letter at the shared
    cell. *)
Theorem ac3_arc_consistent cw (d d' : Domains) :
  symmetric_overlaps cw ->
  ac3 cw None d = (Ok true, d') ->
  forall x y, In x (variables cw) -> In y (neighbors cw x) ->
  forall vals_x vals_y,
    dict_get d' x = Some vals_x -> dict_get d' y = Some vals_y ->
    forall vx, In vx vals_x ->
      exists vy index_x index_y c,
        In vy vals_y /\ vx <> vy
        /\ overlaps cw x y = Some (index_x, index_y)
        /\ String.get index_x vx = Some c
        /\ String.get index_y vy = Some c.
Proof.
  intros Hsym Hrun x y Hx Hy vals_x vals_y Hgx Hgy vx Hvx.
  destruct (ac3_pending cw Hsym d d' Hrun x y Hx Hy) as [[]|Hac].
  destruct (Hac _ _ Hgx Hgy vx Hvx) as (vy & Hvy & Hne & Hsat).
  apply neighbors_In in Hy. destruct Hy as (_ & _ & Ho).
  unfold overlap_satisfied in Hsat.
  destruct (overlaps cw x y) as [[i j]|]; [|congruence].
  destruct (String.get i vx) as [cx|] eqn:Ei; [|discriminate].
  destruct (String.get j vy) as [cy|] eqn:Ej; [|discriminate].
  injection Hsat as Heq. apply Ascii.eqb_eq in Heq. subst cy.
  exists vy, i, j, cx. repeat split; auto.
Qed.

Lemma arch_symmetric ws : symmetric_overlaps (Puzzle.arch ws).
Proof.
  intros x y Hx Hy. simpl in Hx, Hy.
  destruct Hx as [<-|[<-|[<-|[]]]]; destruct Hy as [<-|[<-|[<-|[]]]];
    reflexivity.
Qed.

Lemma ac3_arc_consistent_witness :
  exists vy index_x index_y c,
    In vy ["aba"; "aca"; "efg"]%string /\ "ehi"%string <> vy
    /\ overlaps Puzzle.arch5 Puzzle.top Puzzle.left = Some (index_x, index_y)
    /\ String.get index_x "ehi" = Some c
    /\ String.get index_y vy = Some c.
Proof.
  apply (ac3_arc_consistent Puzzle.arch5
           (current (init Puzzle.arch5))
           [(Puzzle.top, ["aba"; "aca"; "ehi"]%string);
            (Puzzle.left, ["aba"; "aca"; "efg"]%string);
            (Puzzle.right, ["aba"; "aca"; "ijk"]%string)]
           (arch_symmetric _) eq_refl
           Puzzle.top Puzzle.left (or_introl eq_refl) (or_introl eq_refl)
           ["aba"; "aca"; "ehi"]%string ["aba"; "aca"; "efg"]%string
           eq_refl eq_refl "ehi"%string).
  simpl. auto.
Defined.

(* ------------------------------------------------------------------ *)
(** * ac3 with a supplied queue: what is revised *)
(* ------------------------------------------------------------------ *)

(** [revise(x, y)] touches the domain of [x] only, never enlarges it, and
    returns true exactly when it made it smaller. *)
Lemma revise_sizes cw x y (d d1 : Domains) b :
  revise cw x y d = (Ok b, d1) ->
  (forall z, z <> x -> dict_get d1 z = dict_get d z)
  /\ (forall z, domain_size d1 z <= domain_size d z)
  /\ (b = true -> domain_size d1 x < domain_size d x)
  /\ (b = false -> d1 = d).
Proof.
  intros H. apply revise_Ok in H.
  destruct H as (vals_x & Hgx & Hb & -> & _).
  set (keep := supported cw d x y) in *.
  assert (forall z, z <> x ->
                    dict_get (dict_set d x (filter keep vals_x)) z
                    = dict_get d z) as Hother.
  { intros z Hz. rewrite dict_get_set.
    destruct (Var_eqb x z) eqn:E; auto.
    apply Var_eqb_eq in E. congruence. }
  assert (domain_size (dict_set d x (filter keep vals_x)) x
          = List.length (filter keep vals_x)) as Hsize.
  { unfold domain_size. now rewrite dict_get_set, Var_eqb_refl. }
  assert (domain_size d x = List.length vals_x) as Hsize0.
  { unfold domain_size. now rewrite Hgx. }
  split; [exact Hother|]. split; [|split].
  - intros z. destruct (Var_eqb x z) eqn:E.
    + apply Var_eqb_eq in E. subst z. rewrite Hsize, Hsize0.
      apply filter_length_le.
    + unfold domain_size. rewrite Hother; auto.
      intros ->. now rewrite Var_eqb_refl in E.
  - intros ->. rewrite Hsize, Hsize0. apply filter_length_lt.
    symmetry in Hb. now apply negb_true_iff in Hb.
  - intros ->. symmetry in Hb. apply negb_false_iff in Hb.
    rewrite (filter_all _ _ _ Hb). now apply dict_set_same.
Qed.

Lemma ac3_loop_sizes cw fuel :
  forall stack (d d' : Domains) b,
    ac3_loop cw fuel stack d = (Ok b, d') ->
    forall z, domain_size d' z <= domain_size d z.
Proof.
  induction fuel as [|fuel IH]; intros stack d d' b H z.
  - destruct stack as [|[x y] rest]; simpl in H; [|discriminate].
    inversion H; subst. lia.
  - destruct stack as [|[x y] rest]; simpl in H.
    { inversion H; subst. lia. }
    bind_inv H as b1 d1 Hrev.
    destruct (revise_sizes cw x y d d1 b1 Hrev) as (_ & Hle & _).
    specialize (Hle z).
    destruct b1.
    + bind_inv H as vals d2 Hg.
      pose proof (readonly_state _ _ _ _ (readonly_get_domain x) Hg). subst d2.
      destruct vals as [|v vals].
      * inversion H; subst. exact Hle.
      * specialize (IH _ _ _ _ H z). lia.
    + specialize (IH _ _ _ _ H z). lia.
Qed.

(** The loop changes the domain of a slot only if the slot is the first
    slot of an arc of the stack, or a neighbor of a slot whose domain got
    smaller. *)
Lemma ac3_loop_frame cw fuel :
  forall stack (d d' : Domains) b,
    ac3_loop cw fuel stack d = (Ok b, d') ->
    forall z, dict_get d' z <> dict_get d z ->
      (exists y, In (z, y) stack)
      \/ exists x, In z (neighbors cw x)
                   /\ domain_size d' x < domain_size d x.
Proof.
  induction fuel as [|fuel IH]; intros stack d d' b H z Hz.
  - destruct stack as [|[x y] rest]; simpl in H; [|discriminate].
    inversion H; subst. congruence.
  - destruct stack as [|[x y] rest]; simpl in H.
    { inversion H; subst. congruence. }
    bind_inv H as b1 d1 Hrev.
    destruct (revise_sizes cw x y d d1 b1 Hrev)
      as (Hother & Hle & Hlt & Hsame).
    destruct (Var_eqb z x) eqn:Ezx.
    { apply Var_eqb_eq in Ezx. subst z. left. exists y. now left. }
    assert (z <> x) as Hne by (intros ->; now rewrite Var_eqb_refl in Ezx).
    assert (forall stack1,
               ac3_loop cw fuel stack1 d1 = (Ok b, d') ->
               (forall y', In (z, y') stack1 ->
                           In (z, y') rest
                           \/ (b1 = true /\ y' = x
                               /\ In z (neighbors cw x))) ->
               (exists y0, In (z, y0) ((x, y) :: rest))
               \/ exists x0, In z (neighbors cw x0)
                             /\ domain_size d' x0 < domain_size d x0)
      as Hgo.
    { intros stack1 Hrun Hstack.
      pose proof (ac3_loop_sizes cw fuel _ _ _ _ Hrun) as Hmono.
      destruct (IH _ _ _ _ Hrun z) as [[y' Hin]|(x0 & Hn & Hsz)].
      - rewrite (Hother z Hne). exact Hz.
      - destruct (Hstack y' Hin) as [Hr|(Hb1 & -> & Hn)].
        + left. exists y'. now right.
        + right. exists x. split; auto.
          specialize (Hmono x). specialize (Hlt Hb1). lia.
      - right. exists x0. split; auto. specialize (Hle x0). lia. }
    destruct b1.
    + bind_inv H as vals d2 Hg.
      pose proof (readonly_state _ _ _ _ (readonly_get_domain x) Hg). subst d2.
      destruct vals as [|v vals].
      * inversion H; subst. rewrite (Hother z Hne) in Hz. congruence.
      * apply (Hgo _ H). intros y' Hin. apply in_app_or in Hin.
        destruct Hin as [Hin|Hin]; [|now left].
        right. apply in_rev in Hin. apply in_map_iff in Hin.
        destruct Hin as (z0 & Heq & Hz0). inversion Heq; subst.
        apply filter_In in Hz0. tauto.
    + apply (Hgo _ H). intros y' Hin. now left.
Qed.

(** C7 (as the code has it): with a supplied queue that is not empty [ac3]
    runs its loop on that queue, last arc first, and does not reseed.  Only
    the supplied arcs and the arcs re-enqueued after a revision are revised:
    when [ac3] returns, the domain of a slot has changed only if the slot is
    the first slot of a supplied arc or a neighbor of a slot whose domain
    got smaller.  The re-enqueued arcs are revised: when [ac3] returns
    success, every arc between neighbors that was supplied, or was
    consistent before the call, is consistent.  When no supplied arc needs
    a revision [ac3] returns success and leaves the domains alone.  A
    supplied empty queue is treated like an absent one: the queue is seeded
    with every ordered pair of distinct slots. *)
Theorem ac3_supplied_queue cw (d : Domains) a l :
  ac3 cw (Some (a :: l)) d =
  ac3_loop cw (ac3_fuel cw d (a :: l)) (rev (a :: l)) d
  /\ (forall b d',
         ac3 cw (Some (a :: l)) d = (Ok b, d') ->
         (forall z, dict_get d' z <> dict_get d z ->
            (exists y, In (z, y) (a :: l))
            \/ exists x, In z (neighbors cw x)
                         /\ domain_size d' x < domain_size d x)
         /\ (b = true -> symmetric_overlaps cw ->
             forall x y, In x (variables cw) -> In y (neighbors cw x) ->
               In (x, y) (a :: l) \/ arc_consistent cw d x y ->
               arc_consistent cw d' x y))
  /\ ((forall x y, In (x, y) (a :: l) -> revise cw x y d = (Ok false, d)) ->
      ac3 cw (Some (a :: l)) d = (Ok true, d))
  /\ ac3 cw (Some []) d = ac3 cw None d
  /\ ac3 cw None d =
     ac3_loop cw (ac3_fuel cw d (all_arcs (dict_keys d)))
              (rev (all_arcs (dict_keys d))) d.
Proof.
  assert (ac3 cw (Some (a :: l)) d =
          ac3_loop cw (ac3_fuel cw d (a :: l)) (rev (a :: l)) d) as Hrun
    by reflexivity.
  split; [exact Hrun|]. split; [|split; [|split; reflexivity]].
  - intros b d' H. rewrite Hrun in H. split.
    + intros z Hz.
      destruct (ac3_loop_frame cw _ _ _ _ _ H z Hz) as [[y Hin]|Hn].
      * left. exists y. now apply in_rev.
      * now right.
    + intros -> Hsym x y Hx Hy Harc.
      apply (ac3_loop_propagates cw Hsym _ x y Hx Hy _ _ _) with (2 := H).
      destruct Harc as [Hin|Hac]; [left|now right].
      now apply -> in_rev.
  - intros Hq. rewrite Hrun. apply ac3_loop_quiet.
    + intros x y Hin. apply Hq. now apply in_rev.
    + unfold ac3_fuel. rewrite length_rev. lia.
Qed.

Lemma ac3_supplied_queue_witness :
  (forall z,
      dict_get [(Puzzle.top, ["ehi"]%string); (Puzzle.left, ["efg"]%string);
                (Puzzle.right, ["ijk"]%string)] z
      <> dict_get [(Puzzle.top, ["aba"; "ehi"]%string);
                   (Puzzle.left, ["efg"]%string);
                   (Puzzle.right, ["ijk"; "aca"]%string)] z ->
      (exists y, In (z, y) [(Puzzle.top, Puzzle.left)])
      \/ exists x,
           In z (neighbors (Puzzle.arch []) x)
           /\ domain_size [(Puzzle.top, ["ehi"]%string);
                           (Puzzle.left, ["efg"]%string);
                           (Puzzle.right, ["ijk"]%string)] x
              < domain_size [(Puzzle.top, ["aba"; "ehi"]%string);
                             (Puzzle.left, ["efg"]%string);
                             (Puzzle.right, ["ijk"; "aca"]%string)] x)
  /\ (true = true -> symmetric_overlaps (Puzzle.arch []) ->
      forall x y,
        In x (variables (Puzzle.arch [])) ->
        In y (neighbors (Puzzle.arch []) x) ->
        In (x, y) [(Puzzle.top, Puzzle.left)]
        \/ arc_consistent (Puzzle.arch [])
             [(Puzzle.top, ["aba"; "ehi"]%string);
              (Puzzle.left, ["efg"]%string);
              (Puzzle.right, ["ijk"; "aca"]%string)] x y ->
        arc_consistent (Puzzle.arch [])
          [(Puzzle.top, ["ehi"]%string); (Puzzle.left, ["efg"]%string);
           (Puzzle.right, ["ijk"]%string)] x y).
Proof.
  apply (proj1 (proj2 (ac3_supplied_queue (Puzzle.arch [])
                         [(Puzzle.top, ["aba"; "ehi"]%string);
                          (Puzzle.left, ["efg"]%string);
                          (Puzzle.right, ["ijk"; "aca"]%string)]
                         (Puzzle.top, Puzzle.left) [])) true).
  reflexivity.
Defined.

(* ------------------------------------------------------------------ *)
(** * The verdict of consistent, when it returns *)
(* ------------------------------------------------------------------ *)

Section Consistent.
Variable cw : Crossword.

Lemma dict_In_get V (d : dict V) k v :
  NoDup (dict_keys d) -> In (k, v) d -> dict_get d k = Some v.
Proof.
  induction d as [|[k0 v0] d IH]; simpl; [tauto|].
  intros Hnd Hin. inversion Hnd as [|? ? Hnotin Hnd']; subst.
  destruct Hin as [Heq|Hin].
  - inversion Heq; subst. now rewrite Var_eqb_refl.
  - destruct (Var_eqb k0 k) eqn:E; [|auto].
    apply Var_eqb_eq in E. subst k0. exfalso. apply Hnotin.
    now apply (in_map fst) in Hin.
Qed.

Lemma NoDup_snoc A (l : list A) (v : A) :
  NoDup l -> ~ In v l -> NoDup (l ++ [v]).
Proof.
  induction l as [|x l IH]; simpl; intros Hnd Hv.
  - constructor; [tauto|constructor].
  - inversion Hnd as [|? ? Hx Hl]; subst. constructor.
    + intros Hin. apply in_app_or in Hin. simpl in Hin.
      destruct Hin as [Hin|[Heq|[]]]; [contradiction|].
      subst. tauto.
    + apply IH; tauto.
Qed.

Lemma consistent_neighbors_true (a : Assignment) x vx ys :
  consistent_neighbors cw a x vx ys = Ok true ->
  forall y vy, In y ys -> dict_get a y = Some vy ->
               overlap_satisfied cw x y vx vy = Ok true.
Proof.
  induction ys as [|y0 ys IH]; simpl; intros H y vy Hy Hg; [destruct Hy|].
  destruct (dict_get a y0) as [vy0|] eqn:E0.
  - destruct (overlap_satisfied cw x y0 vx vy0) as [[|]|e|] eqn:Eo;
      try discriminate.
    destruct Hy as [<-|Hy]; [congruence|eauto].
  - destruct Hy as [<-|Hy]; [congruence|eauto].
Qed.

Lemma consistent_neighbors_false (a : Assignment) x vx ys :
  consistent_neighbors cw a x vx ys = Ok false ->
  exists y vy, In y ys /\ dict_get a y = Some vy
               /\ overlap_satisfied cw x y vx vy = Ok false.
Proof.
  induction ys as [|y0 ys IH]; simpl; intros H; [discriminate|].
  destruct (dict_get a y0) as [vy0|] eqn:E0.
  - destruct (overlap_satisfied cw x y0 vx vy0) as [[|]|e|] eqn:Eo;
      try discriminate.
    + destruct (IH H) as (y & vy & Hy & Hrest). exists y, vy. auto.
    + exists y0, vy0. auto.
  - destruct (IH H) as (y & vy & Hy & Hrest). exists y, vy. auto.
Qed.

Lemma consistent_loop_verdict (a : Assignment) b :
  forall items pre,
    a = (pre ++ items)%list -> passed cw a pre ->
    consistent_loop cw a (map snd pre) items = Ok b ->
    if b then passed cw a a
    else repeated_word a \/ wrong_length a \/ overlap_conflict cw a.
Proof.
  induction items as [|[x v] rest IH]; intros pre Ha Hpre H.
  - simpl in H. inversion H. rewrite app_nil_r in Ha. subst. exact Hpre.
  - simpl in H.
    assert (In (x, v) a) as Hin by (rewrite Ha; apply in_elt).
    destruct (mem_string v (map snd pre)) eqn:Em.
    { inversion H; subst b. left. intros Hnd.
      rewrite Ha, map_app in Hnd. simpl in Hnd.
      apply NoDup_remove_2 in Hnd. apply Hnd, in_or_app. left.
      now apply mem_string_In. }
    destruct (String.length v =? v_length x) eqn:El; simpl in H.
    2:{ inversion H; subst b. right. left. exists x, v. split; auto.
        now apply Nat.eqb_neq. }
    destruct (consistent_neighbors cw a x v (neighbors cw x))
      as [[|]|e|] eqn:En; try discriminate.
    + replace (map snd pre ++ [v])%list with (map snd (pre ++ [(x, v)]))%list
        in H by (now rewrite map_app).
      apply (IH (pre ++ [(x, v)])%list); auto.
      * now rewrite <- app_assoc.
      * destruct Hpre as (Hnd & Hlen & Hov). repeat split.
        -- rewrite map_app. simpl. apply NoDup_snoc; auto.
           intros Hv. apply mem_string_In in Hv. congruence.
        -- intros x' v' Hin'. apply in_app_or in Hin'.
           destruct Hin' as [Hin'|[Heq|[]]]; [eauto|].
           inversion Heq; subst. now apply Nat.eqb_eq.
        -- intros x' v' Hin' y vy Hy Hg. apply in_app_or in Hin'.
           destruct Hin' as [Hin'|[Heq|[]]]; [eauto|].
           inversion Heq; subst.
           eapply consistent_neighbors_true; eauto.
    + inversion H; subst b. right. right.
      apply consistent_neighbors_false in En.
      destruct En as (y & vy & Hy & Hg & Ho).
      exists x, v, y, vy. repeat split; auto.
      now apply dict_get_In.
Qed.

(** X9: when [consistent] returns on an assignment, it returns False
    exactly when a word is used twice, a word has not the length of its
    slot, or two assigned neighboring slots disagree on their shared
    cell. *)
Theorem consistent_verdict (a : Assignment) b :
  NoDup (dict_keys a) ->
  consistent cw a = Ok b ->
  (b = false <->
   repeated_word a \/ wrong_length a \/ overlap_conflict cw a).
Proof.
  intros Hkeys H. unfold consistent in H.
  pose proof (consistent_loop_verdict a b a [] eq_refl) as Hv.
  simpl in Hv. specialize (Hv (conj (NoDup_nil _)
                                 (conj (fun _ _ F => False_ind _ F)
                                       (fun _ _ F => False_ind _ F))) H).
  destruct b.
  - split; [discriminate|]. destruct Hv as (Hnd & Hlen & Hov).
    intros [Hr|[(x & v & Hin & Hne)|(x & vx & y & vy & Hx & Hy & Hn & Ho)]].
    + contradiction.
    + apply Hlen in Hin. contradiction.
    + rewrite (Hov x vx Hx y vy Hn (dict_In_get _ _ _ _ Hkeys Hy)) in Ho.
      discriminate.
  - split; auto.
Qed.

End Consistent.

Lemma consistent_verdict_witness :
  false = false <->
  repeated_word [(Puzzle.across, "cat"%string); (Puzzle.down, "dog"%string)]
  \/ wrong_length
       [(Puzzle.across, "cat"%string); (Puzzle.down, "dog"%string)]
  \/ overlap_conflict (Puzzle.cross [])
       [(Puzzle.across, "cat"%string); (Puzzle.down, "dog"%string)].
Proof.
  apply (consistent_verdict (Puzzle.cross [])); [|reflexivity].
  simpl. constructor.
  - intros [H|[]]. discriminate.
  - constructor; [intros []|constructor].
Defined.

(* ------------------------------------------------------------------ *)
(** * The recursion bounds of the model are large enough *)
(* ------------------------------------------------------------------ *)

Lemma finishes_ret St A (a : A) : finishes (@ret St A a).
Proof. intros s. discriminate. Qed.

Lemma finishes_raise St A e : finishes (@raise St A e).
Proof. intros s. discriminate. Qed.

Lemma finishes_lift St A (o : outcome A) :
  o <> OutOfFuel -> finishes (@lift St A o).
Proof. intros H s. exact H. Qed.

Lemma finishes_get_domain x : finishes (get_domain x).
Proof. intros d. unfold get_domain. destruct (dict_get d x); discriminate. Qed.

Lemma finishes_set_domain x vals : finishes (set_domain x vals).
Proof. intros d. discriminate. Qed.

Lemma finishes_domain_keys : finishes domain_keys.
Proof. intros d. discriminate. Qed.

Lemma finishes_bind St A B (m : M St A) (k : A -> M St B) :
  finishes m -> (forall a, finishes (k a)) -> finishes (bind m k).
Proof.
  intros Hm Hk s. unfold bind. specialize (Hm s).
  destruct (m s) as [[a|e|] s1]; simpl in *; try discriminate; auto.
  apply Hk.
Qed.

(** The same at one state, with the run of the first part at hand. *)
Lemma bind_finishes_at St A B (m : M St A) (k : A -> M St B) s :
  fst (m s) <> OutOfFuel ->
  (forall a s1, m s = (Ok a, s1) -> fst (k a s1) <> OutOfFuel) ->
  fst (bind m k s) <> OutOfFuel.
Proof.
  intros Hm Hk. unfold bind.
  destruct (m s) as [[a|e|] s1]; simpl in *; try discriminate; auto.
Qed.

Lemma finishes_through_domains A (m : M Domains A) :
  finishes m -> finishes (through_domains m).
Proof.
  intros Hm w. unfold through_domains. specialize (Hm (current w)).
  now destruct (m (current w)).
Qed.

Create HintDb finishes.

#[local] Hint Resolve finishes_ret finishes_raise finishes_get_domain
  finishes_set_domain finishes_domain_keys : finishes.

Ltac finishes_step :=
  first [ solve [auto with finishes] | apply finishes_bind; [| intros ?] ].

Section Finishes.
Variable cw : Crossword.

Lemma overlap_satisfied_finishes x y vx vy :
  overlap_satisfied cw x y vx vy <> OutOfFuel.
Proof.
  unfold overlap_satisfied.
  destruct (overlaps cw x y) as [[i j]|]; [|discriminate].
  destruct (String.get i vx); [|discriminate].
  destruct (String.get j vy); discriminate.
Qed.

Lemma revise_inner_finishes x y vx vals_y :
  revise_inner cw x y vx vals_y <> OutOfFuel.
Proof.
  induction vals_y as [|vy rest IH]; simpl; [discriminate|].
  destruct (String.eqb vx vy); simpl; auto.
  pose proof (overlap_satisfied_finishes x y vx vy) as Ho.
  destruct (overlap_satisfied cw x y vx vy) as [[|]|e|];
    try discriminate; auto.
Qed.

Lemma revise_loop_finishes x y vals_x :
  forall revision to_remove,
    finishes (revise_loop cw x y vals_x revision to_remove).
Proof.
  induction vals_x as [|vx rest IH]; intros revision to_remove; simpl.
  - apply finishes_ret.
  - apply finishes_bind; [apply finishes_get_domain | intros vals_y].
    apply finishes_bind.
    + apply finishes_lift, revise_inner_finishes.
    + intros [|]; apply IH.
Qed.

Lemma revise_finishes x y : finishes (revise cw x y).
Proof.
  unfold revise.
  apply finishes_bind; [apply finishes_get_domain | intros vals_x].
  apply finishes_bind; [apply revise_loop_finishes | intros r].
  repeat finishes_step.
Qed.

Lemma enforce_node_consistency_finishes : finishes enforce_node_consistency.
Proof.
  unfold enforce_node_consistency.
  apply finishes_bind; [apply finishes_domain_keys | intros ks].
  induction ks as [|k ks IH]; simpl; [apply finishes_ret|].
  apply finishes_bind; [apply finishes_get_domain | intros vals].
  apply finishes_bind; [apply finishes_set_domain | intros _]. exact IH.
Qed.

Lemma consistent_neighbors_finishes (a : Assignment) x vx ys :
  consistent_neighbors cw a x vx ys <> OutOfFuel.
Proof.
  induction ys as [|y ys IH]; simpl; [discriminate|].
  destruct (dict_get a y) as [vy|]; auto.
  pose proof (overlap_satisfied_finishes x y vx vy) as Ho.
  destruct (overlap_satisfied cw x y vx vy) as [[|]|e|];
    try discriminate; auto.
Qed.

Lemma consistent_finishes (a : Assignment) : consistent cw a <> OutOfFuel.
Proof.
  unfold consistent. generalize (@nil string) as processed.
  generalize a at 2 as items.
  induction items as [|[x v] rest IH]; intros processed; simpl;
    [discriminate|].
  destruct (mem_string v processed); [discriminate|].
  destruct (negb (String.length v =? v_length x)); [discriminate|].
  pose proof (consistent_neighbors_finishes a x v (neighbors cw x)) as Hn.
  destruct (consistent_neighbors cw a x v (neighbors cw x)) as [[|]|e|];
    try discriminate; auto.
Qed.

Lemma ruleout_vals_finishes var other value vals count :
  ruleout_vals cw var other value vals count <> OutOfFuel.
Proof.
  revert count. induction vals as [|v vals IH]; intros count; simpl;
    [discriminate|].
  pose proof (overlap_satisfied_finishes var other value v) as Ho.
  destruct (overlap_satisfied cw var other value v) as [[|]|e|];
    try discriminate; auto.
Qed.

Lemma order_domain_values_finishes var a :
  finishes (order_domain_values cw var a).
Proof.
  assert (forall value others count,
             finishes (ruleout_vars cw var value others count)) as Hvars.
  { intros value others. induction others as [|o others IH]; intros count;
      simpl; [apply finishes_ret|].
    apply finishes_bind; [apply finishes_get_domain | intros vals].
    apply finishes_bind; [apply finishes_lift, ruleout_vals_finishes|].
    intros c. apply IH. }
  assert (forall vals, finishes (ruleout_all cw var vals)) as Hall.
  { induction vals as [|v vals IH]; simpl; [apply finishes_ret|].
    apply finishes_bind; [apply Hvars | intros c].
    apply finishes_bind; [exact IH | intros r]. apply finishes_ret. }
  unfold order_domain_values.
  apply finishes_bind; [apply finishes_get_domain | intros vals].
  apply finishes_bind; [apply Hall | intros r]. apply finishes_ret.
Qed.

Lemma select_unassigned_variable_finishes a :
  finishes (select_unassigned_variable cw a).
Proof.
  assert (forall vars, finishes (select_keys cw vars)) as Hkeys.
  { induction vars as [|x vars IH]; simpl; [apply finishes_ret|].
    apply finishes_bind; [apply finishes_get_domain | intros vals].
    apply finishes_bind; [exact IH | intros r]. apply finishes_ret. }
  unfold select_unassigned_variable.
  apply finishes_bind; [apply finishes_domain_keys | intros ks].
  apply finishes_bind; [apply Hkeys | intros keyed].
  destruct (map fst (sort_by key_leb keyed));
    [apply finishes_raise | apply finishes_ret].
Qed.

Lemma assignment_complete_finishes a : finishes (assignment_complete a).
Proof.
  unfold assignment_complete.
  apply finishes_bind; [apply finishes_domain_keys | intros ks].
  apply finishes_ret.
Qed.

(** ** ac3 *)

Lemma ac3_loop_finishes fuel :
  forall stack (d : Domains),
    List.length stack + List.length (variables cw) * total_size d <= fuel ->
    fst (ac3_loop cw fuel stack d) <> OutOfFuel.
Proof.
  induction fuel as [|fuel IH]; intros stack d Hfuel.
  - destruct stack as [|[x y] rest]; simpl in *; [discriminate|lia].
  - destruct stack as [|[x y] rest]; [discriminate|].
    simpl in Hfuel. cbn [ac3_loop].
    apply bind_finishes_at; [apply revise_finishes|].
    intros b d1 Hrev. pose proof Hrev as Hrev'.
    apply revise_Ok in Hrev'.
    destruct Hrev' as (vals_x & Hgx & Hb & Hd1 & _).
    destruct b.
    + symmetry in Hb. apply negb_true_iff in Hb.
      pose proof (filter_length_lt _ _ _ Hb) as Hlt.
      pose proof (total_size_set d x vals_x
                    (filter (supported cw d x y) vals_x) Hgx) as Hsize.
      rewrite <- Hd1 in Hsize.
      apply bind_finishes_at; [apply finishes_get_domain|].
      intros vals d2 Hg.
      pose proof (readonly_state _ _ _ _ (readonly_get_domain x) Hg). subst d2.
      destruct vals as [|v vals]; [discriminate|].
      apply IH. rewrite length_app, length_rev, length_map.
      assert (List.length
                (filter (fun z => negb (Var_eqb z y)) (neighbors cw x))
              <= List.length (variables cw)) as Hlen.
      { unfold neighbors.
        eapply Nat.le_trans; [apply filter_length_le|apply filter_length_le]. }
      nia.
    + symmetry in Hb. apply negb_false_iff in Hb.
      rewrite (filter_all _ _ _ Hb), (dict_set_same _ _ _ _ Hgx) in Hd1.
      subst d1. apply IH. lia.
Qed.

Lemma ac3_finishes arcs : finishes (ac3 cw arcs).
Proof.
  intros d.
  assert (forall arcs',
             fst (ac3_loop cw (ac3_fuel cw d arcs') (rev arcs') d)
             <> OutOfFuel) as Hloop.
  { intros arcs'. apply ac3_loop_finishes.
    unfold ac3_fuel. rewrite length_rev. lia. }
  unfold ac3.
  destruct arcs as [[|a l]|];
    cbv beta iota delta [bind ret domain_keys get_state]; apply Hloop.
Qed.

End Finishes.

Lemma filter_length_strict A (p q : A -> bool) (l : list A) k0 :
  (forall k, q k = true -> p k = true) ->
  In k0 l -> p k0 = true -> q k0 = false ->
  List.length (filter q l) < List.length (filter p l).
Proof.
  intros Hqp. induction l as [|k l IH]; intros Hin Hp Hq; [destruct Hin|].
  assert (List.length (filter q l) <= List.length (filter p l)) as Hle.
  { clear IH Hin. induction l as [|k' l IH]; simpl; auto.
    destruct (q k') eqn:Eq.
    - rewrite (Hqp _ Eq). simpl. lia.
    - destruct (p k'); simpl; lia. }
  simpl. destruct Hin as [->|Hin].
  - rewrite Hp, Hq. simpl. lia.
  - specialize (IH Hin Hp Hq). destruct (q k) eqn:Eq.
    + rewrite (Hqp _ Eq). simpl. lia.
    + destruct (p k); simpl; lia.
Qed.

Lemma dict_get_del V (d : dict V) x k :
  dict_get (dict_del d x) k = if Var_eqb x k then None else dict_get d k.
Proof.
  induction d as [|[k0 v0] d IH]; simpl.
  - now destruct (Var_eqb x k).
  - destruct (Var_eqb k0 x) eqn:E0; simpl.
    + apply Var_eqb_eq in E0. subst k0. rewrite IH.
      now destruct (Var_eqb x k).
    + rewrite IH. destruct (Var_eqb k0 k) eqn:E1; auto.
      apply Var_eqb_eq in E1. subst k0.
      rewrite Var_eqb_sym in E0. now rewrite E0.
Qed.

Lemma unassigned_set (a : Assignment) ks x v :
  In x ks -> dict_mem a x = false ->
  unassigned (dict_set a x v) ks < unassigned a ks.
Proof.
  intros Hin Hx. unfold unassigned.
  apply filter_length_strict with (k0 := x); auto.
  - intros k. rewrite dict_mem_set, !negb_true_iff.
    intros H. apply orb_false_iff in H. tauto.
  - now rewrite Hx.
  - rewrite dict_mem_set, Var_eqb_refl. reflexivity.
Qed.

Lemma unassigned_same (a a' : Assignment) ks :
  (forall k, dict_mem a' k = dict_mem a k) ->
  unassigned a' ks = unassigned a ks.
Proof.
  intros H. unfold unassigned. f_equal. apply filter_ext.
  intros k. now rewrite H.
Qed.

Lemma dict_mem_retract (a a' : Assignment) x v :
  dict_mem a x = false ->
  (forall k, dict_mem a' k = dict_mem a k) ->
  forall k, dict_mem (dict_del (dict_set a' x v) x) k = dict_mem a k.
Proof.
  intros Hx Hsame k. unfold dict_mem at 1.
  rewrite dict_get_del, dict_get_set.
  destruct (Var_eqb x k) eqn:E.
  - apply Var_eqb_eq in E. subst k. now rewrite Hx.
  - apply Hsame.
Qed.

Lemma through_domains_Ok A (m : M Domains A) w a w' :
  through_domains m w = (Ok a, w') ->
  exists d', m (current w) = (Ok a, d') /\ w' = with_current w d'.
Proof.
  unfold through_domains. destruct (m (current w)) as [o d'].
  intros H. inversion H; subst. eauto.
Qed.

Section SearchFinishes.
Variable cw : Crossword.

(** ** backtrack *)

Lemma backtrack_loop_finishes fuel variable (D : Domains) (a : Assignment) :
  (forall a1 w1, unassigned a1 (dict_keys (current w1)) < fuel ->
                 fst (backtrack cw fuel a1 w1) <> OutOfFuel) ->
  unassigned a (dict_keys D) <= fuel ->
  In variable (dict_keys D) -> dict_mem a variable = false ->
  forall vals a' w',
    current w' = D -> (forall k, dict_mem a' k = dict_mem a k) ->
    fst (backtrack_loop cw (backtrack cw fuel) a' variable vals w')
    <> OutOfFuel.
Proof.
  intros IH Hfuel Hvar Hmem.
  induction vals as [|value rest IHvals]; intros a' w' Hcur Hsame.
  - discriminate.
  - cbn [backtrack_loop].
    apply bind_finishes_at; [discriminate|]. intros u w1 Hi.
    assert (current w1 = D) as Hcur1.
    { rewrite (frame_run _ _ _ _ _ frame_incr_WORDS_TESTED Hi). exact Hcur. }
    apply bind_finishes_at; [apply consistent_finishes|]. intros ok w2 Hc.
    unfold lift in Hc. injection Hc as Hc Hw2. subst w2.
    set (block := if ok
                  then bind (backtrack cw fuel (dict_set a' variable value))
                            (fun result =>
                               ret (if truthy result then result else None))
                  else ret None).
    assert (frame block) as Hframe.
    { unfold block. destruct ok; [|apply frame_ret].
      apply frame_bind; [apply frame_backtrack|intros r; apply frame_ret]. }
    apply bind_finishes_at.
    + unfold block. destruct ok; [|discriminate].
      apply bind_finishes_at; [|discriminate].
      apply IH. rewrite Hcur1.
      pose proof (unassigned_set a' (dict_keys D) variable value Hvar) as Hlt.
      rewrite (Hsame variable) in Hlt. specialize (Hlt Hmem).
      rewrite (unassigned_same a a' _ Hsame) in Hlt. lia.
    + intros r w3 Hblock. destruct r as [r|]; [discriminate|].
      apply IHvals.
      * rewrite (frame_run _ _ _ _ _ Hframe Hblock). exact Hcur1.
      * now apply dict_mem_retract.
Qed.

Lemma backtrack_finishes fuel :
  forall a w, unassigned a (dict_keys (current w)) < fuel ->
              fst (backtrack cw fuel a w) <> OutOfFuel.
Proof.
  induction fuel as [|fuel IH]; intros a w Hfuel; [lia|].
  cbn [backtrack].
  apply bind_finishes_at; [discriminate|]. intros u w1 Hi.
  pose proof (frame_run _ _ _ _ _ frame_incr_BACKTRACK_COUNTER Hi) as Hcur1.
  apply bind_finishes_at.
  { apply finishes_through_domains, assignment_complete_finishes. }
  intros b w2 Hcomp.
  pose proof (frame_run _ _ _ _ _
                (frame_through_domains _ _ (readonly_assignment_complete a))
                Hcomp) as Hcur2.
  destruct b; [discriminate|].
  apply bind_finishes_at.
  { apply finishes_through_domains, select_unassigned_variable_finishes. }
  intros variable w3 Hsel.
  pose proof (frame_run _ _ _ _ _
                (frame_through_domains _ _
                   (readonly_select_unassigned_variable cw a)) Hsel) as Hcur3.
  apply through_domains_Ok in Hsel. destruct Hsel as (d3 & Hsel & _).
  apply select_unassigned_variable_Ok in Hsel.
  destruct Hsel as (_ & Hvar & Hmem).
  apply bind_finishes_at.
  { apply finishes_through_domains, order_domain_values_finishes. }
  intros vals w4 Hord.
  pose proof (frame_run _ _ _ _ _
                (frame_through_domains _ _
                   (readonly_order_domain_values cw variable a)) Hord)
    as Hcur4.
  apply (backtrack_loop_finishes fuel variable (current w) a); auto.
  - lia.
  - now rewrite <- Hcur1, <- Hcur2.
  - now rewrite Hcur4, Hcur3, Hcur2, Hcur1.
Qed.

(** ** backtrack_ac3 *)

Lemma backtrack_ac3_try_finishes fuel recurse (a : Assignment) variable
      domains_copy value n w :
  (forall a1 w1, world_inv cw n w1 -> consistent cw a1 = Ok true ->
                 uses_words cw a1 -> unassigned a1 (variables cw) < fuel ->
                 fst (recurse a1 w1) <> OutOfFuel) ->
  world_inv cw n w -> In variable (variables cw) -> In value (words cw) ->
  uses_words cw a ->
  unassigned (dict_set a variable value) (variables cw) < fuel ->
  fst (backtrack_ac3_try cw recurse a variable domains_copy value w)
  <> OutOfFuel.
Proof.
  intros Hrec Hw Hvar Hval Ha Hfuel. unfold backtrack_ac3_try.
  apply bind_finishes_at; [discriminate|]. intros u w1 Hi.
  assert (world_inv cw n w1) as Hw1 by (inversion Hi; subst; exact Hw).
  apply bind_finishes_at; [apply consistent_finishes|]. intros ok w2 Hc.
  unfold lift in Hc. injection Hc as Hc Hw2. subst w2.
  apply bind_finishes_at.
  - destruct ok; [|discriminate].
    apply bind_finishes_at.
    { apply finishes_through_domains, finishes_set_domain. }
    intros u1 w4 Hset.
    assert (world_inv cw n w4) as Hw4.
    { eapply (through_domains_inv cw _ _ (fun _ => True) n);
        [|exact Hw1|exact Hset].
      intros d u' d' Hd Hs. inversion Hs; subst. split; auto.
      apply store_ok_set_var; auto.
      intros v [<-|[]]. exact Hval. }
    apply bind_finishes_at.
    { apply finishes_through_domains, ac3_finishes. }
    intros b w5 Hac3.
    assert (world_inv cw n w5) as Hw5.
    { eapply (through_domains_inv cw _ _ (fun _ => True) n);
        [|exact Hw4|exact Hac3].
      intros d b' d' Hd Hs. split; auto. eapply ac3_store_ok; eauto. }
    apply bind_finishes_at; [|discriminate].
    apply Hrec; auto. now apply uses_words_set.
  - intros r w3 _. destruct r; discriminate.
Qed.

Lemma backtrack_ac3_loop_finishes fuel variable domains_copy n
      (a : Assignment) :
  (forall a1 m w1, world_inv cw m w1 -> uses_words cw a1 ->
                   unassigned a1 (variables cw) < fuel ->
                   fst (backtrack_ac3 cw fuel a1 w1) <> OutOfFuel) ->
  unassigned a (variables cw) <= fuel ->
  In variable (variables cw) -> dict_mem a variable = false ->
  domains_copy < n ->
  forall vals a' w',
    world_inv cw n w' -> uses_words cw a' ->
    (forall k, dict_mem a' k = dict_mem a k) ->
    (forall v, In v vals -> In v (words cw)) ->
    fst (backtrack_ac3_loop cw (backtrack_ac3 cw fuel) a' variable
                            domains_copy vals w') <> OutOfFuel.
Proof.
  intros IH Hfuel Hvar Hmem Hdc.
  induction vals as [|value rest IHvals]; intros a' w' Hw Ha Hsame Hvals.
  - discriminate.
  - cbn [backtrack_ac3_loop].
    assert (In value (words cw)) as Hval by (apply Hvals; now left).
    apply bind_finishes_at.
    + apply (backtrack_ac3_try_finishes fuel) with (n := n); auto.
      * intros a1 w1 Hw1 _ Ha1 Hlt. eapply IH; eauto.
      * pose proof (unassigned_set a' (variables cw) variable value Hvar)
          as Hlt.
        rewrite (Hsame variable) in Hlt. specialize (Hlt Hmem).
        rewrite (unassigned_same a a' _ Hsame) in Hlt. lia.
    + intros r w1 Htry. destruct r as [r|]; [discriminate|].
      destruct (backtrack_ac3_try_sound cw (backtrack_ac3 cw fuel) a'
                  variable domains_copy value n) with (7 := Htry)
        as [Hw1 _]; auto.
      { intros a0 w0 res0 w0' Hw0 Hc0 Ha0 Hrun.
        eapply backtrack_ac3_sound; eauto. }
      apply IHvals; auto.
      * apply uses_words_del. now apply uses_words_set.
      * now apply dict_mem_retract.
      * intros v Hv. apply Hvals. now right.
Qed.

Lemma backtrack_ac3_finishes fuel :
  forall a n w,
    world_inv cw n w -> uses_words cw a ->
    unassigned a (variables cw) < fuel ->
    fst (backtrack_ac3 cw fuel a w) <> OutOfFuel.
Proof.
  induction fuel as [|fuel IH]; intros a n w Hw Ha Hfuel; [lia|].
  cbn [backtrack_ac3].
  apply bind_finishes_at; [discriminate|]. intros u w1 Hi.
  assert (world_inv cw n w1) as Hw1 by (inversion Hi; subst; exact Hw).
  apply bind_finishes_at.
  { apply finishes_through_domains, assignment_complete_finishes. }
  intros b w2 Hcomp.
  assert (world_inv cw n w2) as Hw2.
  { eapply (through_domains_inv cw _ _ (fun _ => True) n);
      [|exact Hw1|exact Hcomp].
    intros d b' d' Hd Hs. apply assignment_complete_Ok in Hs.
    destruct Hs as [-> _]. auto. }
  destruct b; [discriminate|].
  apply bind_finishes_at.
  { apply finishes_through_domains, select_unassigned_variable_finishes. }
  intros variable w3 Hsel.
  assert (world_inv cw n w3
          /\ (In variable (variables cw) /\ dict_mem a variable = false))
    as (Hw3 & Hvar & Hmem).
  { eapply (through_domains_inv cw _ _
              (fun v => In v (variables cw) /\ dict_mem a v = false) n);
      [|exact Hw2|exact Hsel].
    intros d v d' Hd Hs. apply select_unassigned_variable_Ok in Hs.
    destruct Hs as (-> & Hin & Hm). repeat split; auto; try apply Hd.
    destruct Hd as [Hk _]. now rewrite <- Hk. }
  apply bind_finishes_at; [discriminate|]. intros domains_copy w4 Hcopy.
  destruct (deepcopy_domains_inv cw _ _ _ _ Hw3 Hcopy) as [Hw4 Hdc].
  assert (world_inv cw (Nat.max n (S domains_copy)) w4) as Hw4'.
  { destruct Hw4 as [Hok Hn]. split; auto. lia. }
  apply bind_finishes_at.
  { apply finishes_through_domains, order_domain_values_finishes. }
  intros vals w5 Hord.
  assert (world_inv cw (Nat.max n (S domains_copy)) w5
          /\ forall v, In v vals -> In v (words cw)) as [Hw5 Hvals].
  { eapply (through_domains_inv cw _ _
              (fun vals => forall v, In v vals -> In v (words cw))
              (Nat.max n (S domains_copy)));
      [|exact Hw4'|exact Hord].
    intros d vs d' Hd Hs. apply order_domain_values_Ok in Hs.
    destruct Hs as (-> & D & HD & Hin). split; auto.
    intros v Hv. apply Hin in Hv.
    now apply (proj2 (store_ok_get _ _ _ _ Hd HD)). }
  apply (backtrack_ac3_loop_finishes fuel variable domains_copy
           (Nat.max n (S domains_copy)) a); auto; lia.
Qed.

End SearchFinishes.

(** X8: [solve] never stops for lack of recursion bound: the loop of [ac3]
    ends within its bound, and neither search calls itself deeper than the
    number of slots plus one.  The outcome of the model is what the Python
    method returns or raises. *)
Theorem solve_finishes cw (interleaving : bool) :
  fst (solve cw interleaving (init cw)) <> OutOfFuel.
Proof.
  unfold solve.
  apply bind_finishes_at.
  { apply finishes_through_domains, enforce_node_consistency_finishes. }
  intros u w1 Hnode.
  assert (world_inv cw 0 w1) as Hw1.
  { eapply (through_domains_inv cw _ _ (fun _ => True) 0);
      [|exact (init_world_ok cw)|exact Hnode].
    intros d u' d' Hd Hs. split; auto.
    eapply enforce_node_consistency_store_ok; eauto. }
  apply bind_finishes_at.
  { apply finishes_through_domains, ac3_finishes. }
  intros b w2 Hac3.
  assert (world_inv cw 0 w2) as Hw2.
  { eapply (through_domains_inv cw _ _ (fun _ => True) 0);
      [|exact Hw1|exact Hac3].
    intros d b' d' Hd Hs. split; auto. eapply ac3_store_ok; eauto. }
  apply bind_finishes_at; [discriminate|]. intros w3 w4 Hget.
  inversion Hget; subst.
  pose proof (world_ok_current cw _ (proj1 Hw2)) as [Hkeys _].
  assert (List.length (current w4) = List.length (variables cw)) as Hlen.
  { rewrite <- Hkeys. unfold dict_keys. now rewrite length_map. }
  assert (forall a, unassigned a (variables cw) < search_fuel w4) as Hfuel.
  { intros a. unfold unassigned, search_fuel. rewrite Hlen.
    pose proof (filter_length_le (fun k => negb (dict_mem a k)) (variables cw)).
    lia. }
  destruct interleaving; cbn [negb].
  - apply backtrack_ac3_finishes with (n := 0); auto. constructor.
  - apply backtrack_finishes. rewrite Hkeys. apply Hfuel.
Qed.

(* ------------------------------------------------------------------ *)
(** * Further properties of the consistency engine *)
(* ------------------------------------------------------------------ *)

(** X1: [enforce_node_consistency] raises nothing on any store, keeps the
    slots, and leaves in the domain of every slot exactly the candidates
    that have the length of the slot, in their order. *)
Theorem enforce_node_consistency_filters (d : Domains) :
  exists d',
    enforce_node_consistency d = (Ok tt, d')
    /\ dict_keys d' = dict_keys d
    /\ forall x,
        dict_get d' x =
        option_map (filter (fun val => String.length val =? v_length x))
                   (dict_get d x).
Proof.
  destruct (enforce_node_consistency_loop_run (dict_keys d) d (incl_refl _))
    as (d' & Hrun & Hkeys & Hget).
  exists d'. repeat split; auto.
  intros x. rewrite Hget. destruct (dict_get d x) as [vals|] eqn:E; auto.
  simpl. apply dict_get_key in E. apply mem_var_In in E. now rewrite E.
Qed.

Section ReviseFacts.
Variable cw : Crossword.

Lemma supported_iff (d : Domains) x y vx vals_y c :
  dict_get d y = Some vals_y ->
  revise_inner cw x y vx vals_y = Ok c ->
  (supported cw d x y vx = true <->
   exists vy, In vy vals_y /\ vx <> vy
              /\ overlap_satisfied cw x y vx vy = Ok true).
Proof.
  intros Hy Hc. unfold supported. rewrite Hy, Hc. split.
  - destruct c; [|discriminate]. intros _.
    now apply revise_inner_sound.
  - intros H. now rewrite (revise_inner_complete cw x y vx vals_y c Hc H).
Qed.

Lemma revise_shrinks x y (d d' : Domains) b :
  revise cw x y d = (Ok b, d') -> shrinks d d'.
Proof.
  intros H. apply revise_Ok in H.
  destruct H as (vals_x & Hgx & _ & -> & _). split.
  - apply dict_set_keys. eapply dict_get_key; eauto.
  - intros z vals' Hz. rewrite dict_get_set in Hz.
    destruct (Var_eqb x z) eqn:E.
    + apply Var_eqb_eq in E. subst z. inversion Hz; subst.
      exists vals_x. split; auto. intros v Hv. now apply filter_In in Hv.
    + exists vals'. split; auto. apply incl_refl.
Qed.

Lemma revise_empty x y (d : Domains) :
  dict_get d x = Some [] -> revise cw x y d = (Ok false, d).
Proof.
  intros Hx. unfold revise, bind, get_domain, set_domain, ret.
  rewrite Hx. cbn [revise_loop]. unfold ret. rewrite Hx. cbn.
  now rewrite (dict_set_same _ _ _ _ Hx).
Qed.

End ReviseFacts.

(** X2: what a call of [revise(x, y)] that returns does.  The domain of
    [x] keeps, in their order, exactly its words that have a different word
    in the domain of [y] with the same letter at the shared cell; no other
    domain changes; the result is true exactly when [x] lost a word, and
    false leaves the store as it was. *)
Theorem revise_effect cw x y (d d' : Domains) (b : bool) :
  revise cw x y d = (Ok b, d') ->
  exists vals_x vals_x',
    dict_get d x = Some vals_x
    /\ dict_get d' x = Some vals_x'
    /\ (forall vx, In vx vals_x' <->
          In vx vals_x
          /\ exists vals_y vy,
               dict_get d y = Some vals_y /\ In vy vals_y /\ vx <> vy
               /\ overlap_satisfied cw x y vx vy = Ok true)
    /\ (forall z, z <> x -> dict_get d' z = dict_get d z)
    /\ dict_keys d' = dict_keys d
    /\ (b = true <-> List.length vals_x' < List.length vals_x)
    /\ (b = false -> d' = d).
Proof.
  intros H. apply revise_Ok in H.
  destruct H as (vals_x & Hgx & Hb & -> & Hinner).
  set (keep := supported cw d x y) in *.
  exists vals_x, (filter keep vals_x).
  split; [exact Hgx|]. split.
  { now rewrite dict_get_set, Var_eqb_refl. }
  split.
  { intros vx. rewrite filter_In. split.
    - intros [Hin Hk]. split; auto.
      destruct (Hinner vx Hin) as (vals_y & c & Hy & Hc).
      apply (supported_iff cw d x y vx vals_y c Hy Hc) in Hk.
      destruct Hk as (vy & Hk). exists vals_y, vy. tauto.
    - intros [Hin (vals_y & vy & Hy & Hvy)]. split; auto.
      destruct (Hinner vx Hin) as (vals_y' & c & Hy' & Hc).
      apply (supported_iff cw d x y vx vals_y' c Hy' Hc).
      rewrite Hy in Hy'. inversion Hy'; subst. exists vy. tauto. }
  split.
  { intros z Hz. rewrite dict_get_set.
    destruct (Var_eqb x z) eqn:E; auto.
    apply Var_eqb_eq in E. congruence. }
  split.
  { apply dict_set_keys. eapply dict_get_key; eauto. }
  split.
  { rewrite Hb. split.
    - intros Hn. apply negb_true_iff in Hn. now apply filter_length_lt.
    - intros Hlt. apply negb_true_iff.
      destruct (forallb keep vals_x) eqn:E; auto.
      rewrite (filter_all _ _ _ E) in Hlt. lia. }
  intros Hf. rewrite Hb in Hf. apply negb_false_iff in Hf.
  rewrite (filter_all _ _ _ Hf). now apply dict_set_same.
Qed.

Lemma revise_effect_witness :
  exists vals_x vals_x',
    dict_get [(Puzzle.across, ["cat"; "dog"; "tar"]%string);
              (Puzzle.down, ["tar"; "lot"]%string)] Puzzle.across
    = Some vals_x
    /\ dict_get [(Puzzle.across, ["cat"; "dog"]%string);
                 (Puzzle.down, ["tar"; "lot"]%string)] Puzzle.across
       = Some vals_x'
    /\ List.length vals_x' < List.length vals_x.
Proof.
  destruct (revise_effect (Puzzle.cross []) Puzzle.across Puzzle.down
              [(Puzzle.across, ["cat"; "dog"; "tar"]%string);
               (Puzzle.down, ["tar"; "lot"]%string)]
              [(Puzzle.across, ["cat"; "dog"]%string);
               (Puzzle.down, ["tar"; "lot"]%string)]
              true eq_refl)
    as (vals_x & vals_x' & Hx & Hx' & _ & _ & _ & Hb & _).
  exists vals_x, vals_x'. repeat split; auto. now apply Hb.
Defined.

(** X3: [revise] is idempotent.  After [revise(x, y)] has returned, for two
    different slots, a second [revise(x, y)] returns false and changes
    nothing. *)
Theorem revise_twice cw x y (d d' : Domains) (b : bool) :
  x <> y ->
  revise cw x y d = (Ok b, d') ->
  revise cw x y d' = (Ok false, d').
Proof.
  intros Hxy H. apply revise_Ok in H.
  destruct H as (vals_x & Hgx & _ & -> & Hinner).
  apply Var_eqb_neq in Hxy.
  set (keep := supported cw d x y).
  remember (filter keep vals_x) as kept eqn:Ef.
  remember (dict_set d x kept) as d1 eqn:Ed1.
  assert (dict_get d1 x = Some kept) as Hgx1.
  { subst d1. now rewrite dict_get_set, Var_eqb_refl. }
  assert (dict_get d1 y = dict_get d y) as Hgy1.
  { subst d1. now rewrite dict_get_set, Hxy. }
  assert (forall vx, supported cw d1 x y vx = keep vx) as Hsame.
  { intros vx. unfold keep, supported. now rewrite Hgy1. }
  clear Ed1.
  destruct kept as [|v0 rest].
  - (* nothing is left to look at *)
    now apply revise_empty.
  - assert (In v0 vals_x) as Hv0.
    { assert (In v0 (filter keep vals_x)) as Hin by (rewrite <- Ef; now left).
      now apply filter_In in Hin. }
    destruct (Hinner v0 Hv0) as (vals_y & c0 & Hy & _).
    assert (forall vx, In vx (v0 :: rest) ->
                       exists c, revise_inner cw x y vx vals_y = Ok c) as Hok.
    { intros vx Hin. rewrite Ef in Hin. apply filter_In in Hin.
      destruct (Hinner vx (proj1 Hin)) as (vals_y' & c & Hy' & Hc).
      rewrite Hy in Hy'. inversion Hy'; subst. eauto. }
    rewrite <- Hgy1 in Hy.
    rewrite (revise_run cw x y d1 _ _ Hgx1 Hy Hok).
    assert (forallb (supported cw d1 x y) (v0 :: rest) = true) as Hall.
    { rewrite (forallb_same _ _ _ _ Hsame), Ef.
      apply forallb_forall. intros v Hv. now apply filter_In in Hv. }
    rewrite Hall, (filter_all _ _ _ Hall). simpl.
    now rewrite (dict_set_same _ _ _ _ Hgx1).
Qed.

Lemma revise_twice_witness :
  revise (Puzzle.cross []) Puzzle.across Puzzle.down
         [(Puzzle.across, ["cat"; "dog"]%string);
          (Puzzle.down, ["tar"; "lot"]%string)]
  = (Ok false,
     [(Puzzle.across, ["cat"; "dog"]%string);
      (Puzzle.down, ["tar"; "lot"]%string)]).
Proof.
  apply (revise_twice (Puzzle.cross []) Puzzle.across Puzzle.down
           [(Puzzle.across, ["cat"; "dog"; "tar"]%string);
            (Puzzle.down, ["tar"; "lot"]%string)] _ true).
  - discriminate.
  - reflexivity.
Defined.

Lemma shrinks_refl (d : Domains) : shrinks d d.
Proof.
  split; auto. intros x vals H. exists vals. split; auto. apply incl_refl.
Qed.

Lemma shrinks_trans (d1 d2 d3 : Domains) :
  shrinks d1 d2 -> shrinks d2 d3 -> shrinks d1 d3.
Proof.
  intros [Hk12 H12] [Hk23 H23]. split; [congruence|].
  intros x v3 H3. destruct (H23 x v3 H3) as (v2 & H2 & Hi23).
  destruct (H12 x v2 H2) as (v1 & H1 & Hi12).
  exists v1. split; auto. eapply incl_tran; eauto.
Qed.

Lemma ac3_loop_shrinks cw fuel :
  forall stack (d d' : Domains) b,
    ac3_loop cw fuel stack d = (Ok b, d') ->
    shrinks d d' /\ (b = false -> exists x, dict_get d' x = Some []).
Proof.
  induction fuel as [|fuel IH]; intros stack d d' b H.
  - destruct stack as [|[x y] rest]; simpl in H; [|discriminate].
    inversion H; subst. split; [apply shrinks_refl|discriminate].
  - destruct stack as [|[x y] rest]; simpl in H.
    { inversion H; subst. split; [apply shrinks_refl|discriminate]. }
    bind_inv H as revised d1 Hrev.
    pose proof (revise_shrinks cw x y d d1 revised Hrev) as Hs1.
    destruct revised.
    + bind_inv H as vals d2 Hg.
      pose proof (readonly_state _ _ _ _ (readonly_get_domain x) Hg). subst d2.
      destruct vals as [|v vals].
      * inversion H; subst. split; auto. intros _. exists x.
        unfold get_domain in Hg.
        destruct (dict_get d' x) as [vs|]; inversion Hg; subst. reflexivity.
      * destruct (IH _ _ _ _ H) as [Hs Hf]. split; auto.
        eapply shrinks_trans; eauto.
    + destruct (IH _ _ _ _ H) as [Hs Hf]. split; auto.
      eapply shrinks_trans; eauto.
Qed.

Lemma ac3_shrinks cw arcs (d d' : Domains) b :
  ac3 cw arcs d = (Ok b, d') ->
  shrinks d d' /\ (b = false -> exists x, dict_get d' x = Some []).
Proof.
  intros H. unfold ac3 in H. bind_inv H as arcs' d1 Ha.
  assert (d1 = d) as ->.
  { destruct arcs as [[|a l]|]; simpl in Ha; now inversion Ha. }
  bind_inv H as d0 d2 Hs. inversion Hs; subst.
  eapply ac3_loop_shrinks; eauto.
Qed.

(** X4: [ac3] only prunes.  Whatever queue it is given, when it returns,
    the store has the slots it had, and every word of every domain was in
    the domain of the same slot before the call. *)
Theorem ac3_only_prunes cw arcs (d d' : Domains) (b : bool) :
  ac3 cw arcs d = (Ok b, d') ->
  dict_keys d' = dict_keys d
  /\ forall x vals', dict_get d' x = Some vals' ->
       exists vals, dict_get d x = Some vals
                    /\ forall v, In v vals' -> In v vals.
Proof.
  intros H. apply ac3_shrinks in H. destruct H as [[Hk Hs] _].
  split; auto.
Qed.

Lemma ac3_only_prunes_witness :
  dict_keys [(Puzzle.row0, ["dog"]%string); (Puzzle.row2, ["cat"]%string)]
  = dict_keys [(Puzzle.row0, ["cat"; "dog"]%string);
               (Puzzle.row2, ["cat"]%string)]
  /\ forall x vals',
      dict_get [(Puzzle.row0, ["dog"]%string); (Puzzle.row2, ["cat"]%string)] x
      = Some vals' ->
      exists vals,
        dict_get [(Puzzle.row0, ["cat"; "dog"]%string);
                  (Puzzle.row2, ["cat"]%string)] x = Some vals
        /\ forall v, In v vals' -> In v vals.
Proof.
  exact (ac3_only_prunes (Puzzle.rows []) None
           [(Puzzle.row0, ["cat"; "dog"]%string); (Puzzle.row2, ["cat"]%string)]
           [(Puzzle.row0, ["dog"]%string); (Puzzle.row2, ["cat"]%string)]
           true eq_refl).
Defined.

(** X5: when [ac3] returns False, the domain of some slot is empty in the
    store it leaves: failure is never reported while every slot still has a
    candidate. *)
Theorem ac3_failure_empties cw arcs (d d' : Domains) :
  ac3 cw arcs d = (Ok false, d') ->
  exists x, dict_get d' x = Some [].
Proof.
  intros H. apply ac3_shrinks in H. destruct H as [_ Hf]. now apply Hf.
Qed.

Lemma ac3_failure_empties_witness :
  exists x,
    dict_get [(Puzzle.across, ["cat"]%string); (Puzzle.down, [])] x = Some [].
Proof.
  exact (ac3_failure_empties (Puzzle.cross []) None
           [(Puzzle.across, ["cat"]%string); (Puzzle.down, ["art"]%string)]
           [(Puzzle.across, ["cat"]%string); (Puzzle.down, [])] eq_refl).
Defined.

(** X6: the loop of [ac3] terminates.  From any store and any queue it
    makes at most [len(arcs) + len(variables) * n] iterations, [n] being the
    number of candidates in the store: a bound of that size is never
    exhausted. *)
Theorem ac3_loop_terminates cw fuel stack (d : Domains) :
  List.length stack + List.length (variables cw) * total_size d <= fuel ->
  fst (ac3_loop cw fuel stack d) <> OutOfFuel.
Proof. apply ac3_loop_finishes. Qed.

Lemma ac3_loop_terminates_witness :
  fst (ac3_loop Puzzle.arch5 51
         (rev (all_arcs [Puzzle.top; Puzzle.left; Puzzle.right]))
         (current (init Puzzle.arch5))) <> OutOfFuel.
Proof.
  apply (ac3_loop_terminates Puzzle.arch5 51). vm_compute. lia.
Defined.

(* ------------------------------------------------------------------ *)
(** * Further properties of consistent *)
(* ------------------------------------------------------------------ *)

Section ConsistentTotal.
Variable cw : Crossword.
Hypothesis Hrange : overlaps_in_range cw = true.

Lemma consistent_neighbors_total (a : Assignment) x vx ys :
  In x (variables cw) -> String.length vx = v_length x ->
  incl ys (variables cw) ->
  (forall y vy, In (y, vy) a -> String.length vy = v_length y) ->
  exists b, consistent_neighbors cw a x vx ys = Ok b.
Proof.
  intros Hx Hlx Hys Hlen. induction ys as [|y ys IH]; simpl; [eauto|].
  assert (incl ys (variables cw)) as Hys'
      by (intros z Hz; apply Hys; now right).
  destruct (dict_get a y) as [vy|] eqn:E; [|auto].
  destruct (overlap_satisfied_total cw Hrange x y vx vy Hx
              (Hys y (or_introl eq_refl)) Hlx
              (Hlen _ _ (dict_get_In _ _ _ _ E))) as [[|] ->]; eauto.
Qed.

Lemma consistent_loop_total (a : Assignment) :
  (forall y vy, In (y, vy) a -> String.length vy = v_length y) ->
  forall items processed,
    (forall x v, In (x, v) items -> In x (variables cw)) ->
    exists b, consistent_loop cw a processed items = Ok b.
Proof.
  intros Hlen. induction items as [|[x v] rest IH]; intros processed Hvars;
    simpl; [eauto|].
  destruct (mem_string v processed); [eauto|].
  destruct (String.length v =? v_length x) eqn:El; simpl; [|eauto].
  apply Nat.eqb_eq in El.
  destruct (consistent_neighbors_total a x v (neighbors cw x)
              (Hvars x v (or_introl eq_refl)) El (neighbors_incl cw x) Hlen)
    as [[|] ->]; eauto.
  apply IH. intros x' v' Hin. eapply Hvars. right. eauto.
Qed.

End ConsistentTotal.

(** X7: [consistent] raises nothing on an assignment of slots of the puzzle
    in which every word has the length of its slot: it returns true or
    false. *)
Theorem consistent_returns cw (a : Assignment) :
  overlaps_in_range cw = true ->
  (forall x v, In (x, v) a -> In x (variables cw)) ->
  (forall x v, In (x, v) a -> String.length v = v_length x) ->
  exists b, consistent cw a = Ok b.
Proof.
  intros Hrange Hvars Hlen. unfold consistent.
  now apply consistent_loop_total.
Qed.

Lemma consistent_returns_witness :
  exists b,
    consistent (Puzzle.cross [])
               [(Puzzle.across, "cat"%string); (Puzzle.down, "tar"%string)]
    = Ok b.
Proof.
  apply (consistent_returns (Puzzle.cross [])); [reflexivity| |].
  - intros x v [H|[H|[]]]; inversion H; subst; simpl; auto.
  - intros x v [H|[H|[]]]; inversion H; subst; reflexivity.
Defined.

(* ------------------------------------------------------------------ *)
(** * ac3 keeps every solution *)
(* ------------------------------------------------------------------ *)

Lemma consistent_passed cw (a : Assignment) :
  consistent cw a = Ok true -> passed cw a a.
Proof.
  intros H. unfold consistent in H.
  apply (consistent_loop_verdict cw a true a [] eq_refl); auto.
  repeat split; [constructor| |]; intros x v [].
Qed.

Lemma NoDup_snd_key (a : Assignment) x y v :
  NoDup (map snd a) -> In (x, v) a -> In (y, v) a -> x = y.
Proof.
  induction a as [|[k w] a IH]; simpl; [tauto|].
  intros Hnd Hx Hy. inversion Hnd as [|? ? Hw Hnd']; subst.
  destruct Hx as [Hx|Hx]; destruct Hy as [Hy|Hy].
  - congruence.
  - inversion Hx; subst. exfalso. apply Hw.
    now apply (in_map snd) in Hy.
  - inversion Hy; subst. exfalso. apply Hw.
    now apply (in_map snd) in Hx.
  - auto.
Qed.

Section KeepsSolutions.
Variable cw : Crossword.
Variable a : Assignment.
Hypothesis Hkeys : NoDup (dict_keys a).
Hypothesis Hvars : forall x v, In (x, v) a -> In x (variables cw).
Hypothesis Hpassed : passed cw a a.

(** Two words of a consistent assignment support each other. *)
Lemma solution_supports x y vx vy :
  In (x, vx) a -> In (y, vy) a -> x <> y ->
  vx <> vy /\ overlap_satisfied cw x y vx vy = Ok true.
Proof.
  intros Hx Hy Hxy. destruct Hpassed as (Hnd & _ & Hov). split.
  - intros ->. apply Hxy. eapply NoDup_snd_key; eauto.
  - destruct (overlaps cw x y) as [p|] eqn:Eo.
    + apply (Hov x vx Hx y vy).
      * apply neighbors_In. repeat split.
        -- eapply Hvars; eauto.
        -- apply Var_eqb_neq. congruence.
        -- congruence.
      * now apply dict_In_get.
    + unfold overlap_satisfied. now rewrite Eo.
Qed.

Lemma revise_keeps x y (d d' : Domains) b :
  x <> y -> within a d -> covers a d ->
  revise cw x y d = (Ok b, d') ->
  within a d' /\ covers a d'.
Proof.
  intros Hxy Hin Hcov H.
  pose proof (revise_shrinks cw x y d d' b H) as [Hk _].
  apply revise_Ok in H. destruct H as (vals_x & Hgx & _ & -> & Hinner).
  split.
  - intros z v vals Ha Hd. rewrite dict_get_set in Hd.
    destruct (Var_eqb x z) eqn:E; [|eauto].
    apply Var_eqb_eq in E. subst z. inversion Hd; subst.
    pose proof (Hin x v vals_x Ha Hgx) as Hv.
    apply filter_In. split; auto.
    destruct (Hinner v Hv) as (vals_y & c & Hgy & Hc).
    unfold supported. rewrite Hgy, Hc.
    assert (dict_mem a y = true) as Hy
        by (apply Hcov; eapply dict_get_key; eauto).
    unfold dict_mem in Hy. destruct (dict_get a y) as [vy|] eqn:Eay;
      [|discriminate].
    rewrite (revise_inner_complete cw x y v vals_y c Hc); auto.
    exists vy. split; [eapply Hin; eauto|].
    apply solution_supports; auto; now apply dict_get_In.
  - intros z Hz. apply Hcov. now rewrite <- Hk.
Qed.

Lemma ac3_loop_keeps fuel :
  forall stack (d d' : Domains) b,
    proper_arcs stack -> within a d -> covers a d ->
    ac3_loop cw fuel stack d = (Ok b, d') ->
    b = true /\ within a d'.
Proof.
  induction fuel as [|fuel IH]; intros stack d d' b Hproper Hin Hcov H.
  - destruct stack as [|[x y] rest]; simpl in H; [|discriminate].
    inversion H; subst. auto.
  - destruct stack as [|[x y] rest]; simpl in H.
    { inversion H; subst. auto. }
    bind_inv H as revised d1 Hrev.
    assert (x <> y) as Hxy by (apply Hproper; now left).
    destruct (revise_keeps x y d d1 revised Hxy Hin Hcov Hrev)
      as [Hin1 Hcov1].
    assert (proper_arcs rest) as Hrest
        by (intros p q Hpq; apply Hproper; now right).
    destruct revised; [|eapply IH; eauto].
    bind_inv H as vals d2 Hg.
    pose proof (readonly_state _ _ _ _ (readonly_get_domain x) Hg). subst d2.
    unfold get_domain in Hg.
    destruct (dict_get d1 x) as [vs|] eqn:Egx; inversion Hg; subst vs.
    destruct vals as [|v vals].
    + (* the domain of an assigned slot cannot be empty *)
      exfalso.
      assert (dict_mem a x = true) as Hx
          by (apply Hcov1; eapply dict_get_key; eauto).
      unfold dict_mem in Hx. destruct (dict_get a x) as [vx|] eqn:Eax;
        [|discriminate].
      exact (Hin1 x vx [] Eax Egx).
    + eapply IH; [| | |exact H]; auto.
      intros p q Hpq. apply in_app_or in Hpq. destruct Hpq as [Hpq|Hpq].
      * apply in_rev, in_map_iff in Hpq. destruct Hpq as (z & Hz & Hzin).
        inversion Hz; subst. apply filter_In in Hzin.
        destruct Hzin as [Hzin _]. apply neighbors_In in Hzin.
        apply Var_eqb_neq. tauto.
      * now apply Hrest.
Qed.

Lemma all_arcs_proper ks : proper_arcs (all_arcs ks).
Proof.
  intros x y H. unfold all_arcs in H. apply in_flat_map in H.
  destruct H as (k & _ & H). apply in_map_iff in H.
  destruct H as (k' & Heq & H). apply filter_In in H.
  inversion Heq; subst. apply Var_eqb_neq.
  destruct H as [_ H]. now apply negb_true_iff in H.
Qed.

Lemma ac3_keeps arcs (d d' : Domains) b :
  (forall l, arcs = Some l -> proper_arcs l) ->
  within a d -> covers a d ->
  ac3 cw arcs d = (Ok b, d') ->
  b = true /\ within a d'.
Proof.
  intros Harcs Hin Hcov H. unfold ac3 in H.
  bind_inv H as arcs' d1 Ha.
  assert (d1 = d /\ proper_arcs arcs') as [-> Hproper].
  { destruct arcs as [[|p l]|]; simpl in Ha; inversion Ha; subst;
      split; auto using all_arcs_proper. }
  bind_inv H as d0 d2 Hs. inversion Hs; subst.
  eapply ac3_loop_keeps; [| | |exact H]; auto.
  intros x y Hxy. apply in_rev in Hxy. now apply Hproper.
Qed.

End KeepsSolutions.

(** X10: [ac3] never removes a word of a solution.  If a consistent
    assignment gives every slot of the store a word of its domain, then
    [ac3] (without a queue, or with a queue of arcs between different
    slots) returns True, and every word of the assignment is still in the
    domain of its slot. *)
Theorem ac3_keeps_solution cw (a : Assignment) arcs (d d' : Domains)
        (b : bool) :
  NoDup (dict_keys a) ->
  (forall x v, In (x, v) a -> In x (variables cw)) ->
  consistent cw a = Ok true ->
  (forall x, In x (dict_keys d) -> dict_mem a x = true) ->
  (forall x v vals, dict_get a x = Some v -> dict_get d x = Some vals ->
                    In v vals) ->
  (forall l, arcs = Some l -> forall x y, In (x, y) l -> x <> y) ->
  ac3 cw arcs d = (Ok b, d') ->
  b = true
  /\ forall x v vals, dict_get a x = Some v -> dict_get d' x = Some vals ->
                      In v vals.
Proof.
  intros Hkeys Hvars Hc Hcov Hin Harcs H.
  exact (ac3_keeps cw a Hkeys Hvars (consistent_passed cw a Hc)
                   arcs d d' b Harcs Hin Hcov H).
Qed.

Lemma arch_NoDup_solution :
  NoDup (dict_keys [(Puzzle.top, "ehi"%string); (Puzzle.left, "efg"%string);
                    (Puzzle.right, "ijk"%string)]).
Proof.
  repeat constructor; simpl; intros H;
    repeat (destruct H as [H|H]; [discriminate|]); exact H.
Qed.

Lemma ac3_keeps_solution_witness :
  true = true
  /\ forall x v vals,
       dict_get [(Puzzle.top, "ehi"%string); (Puzzle.left, "efg"%string);
                 (Puzzle.right, "ijk"%string)] x = Some v ->
       dict_get [(Puzzle.top, ["aba"; "aca"; "ehi"]%string);
                 (Puzzle.left, ["aba"; "aca"; "efg"]%string);
                 (Puzzle.right, ["aba"; "aca"; "ijk"]%string)] x
       = Some vals ->
       In v vals.
Proof.
  refine (ac3_keeps_solution Puzzle.arch5
            [(Puzzle.top, "ehi"%string); (Puzzle.left, "efg"%string);
             (Puzzle.right, "ijk"%string)]
            None (current (init Puzzle.arch5)) _ true
            arch_NoDup_solution _ eq_refl _ _ _ eq_refl).
  - intros x v [H|[H|[H|[]]]]; inversion H; subst; simpl; auto.
  - intros x [<-|[<-|[<-|[]]]]; reflexivity.
  - intros x v vals Ha Hd.
    destruct (Var_eqb Puzzle.top x) eqn:E1;
      [apply Var_eqb_eq in E1; subst x; inversion Ha; inversion Hd; subst;
       simpl; tauto|].
    destruct (Var_eqb Puzzle.left x) eqn:E2;
      [apply Var_eqb_eq in E2; subst x; inversion Ha; inversion Hd; subst;
       simpl; tauto|].
    destruct (Var_eqb Puzzle.right x) eqn:E3;
      [apply Var_eqb_eq in E3; subst x; inversion Ha; inversion Hd; subst;
       simpl; tauto|].
    simpl in Ha. rewrite E1, E2, E3 in Ha. discriminate.
  - discriminate.
Defined.

(* ------------------------------------------------------------------ *)
(** * The plain search is complete *)
(* ------------------------------------------------------------------ *)

Lemma dict_get_not_key V (d : dict V) x k v :
  dict_get d x = None -> In (k, v) d -> Var_eqb k x = false.
Proof.
  induction d as [|[k0 v0] d IH]; simpl; [tauto|].
  destruct (Var_eqb k0 x) eqn:E; [discriminate|].
  intros Hn [Heq|Hin]; [congruence|auto].
Qed.

Lemma dict_set_fresh V (d : dict V) x v :
  dict_get d x = None -> dict_set d x v = (d ++ [(x, v)])%list.
Proof.
  induction d as [|[k0 v0] d IH]; simpl; auto.
  destruct (Var_eqb k0 x); [discriminate|].
  intros H. now rewrite IH.
Qed.

Lemma dict_del_fresh V (d : dict V) x v :
  dict_get d x = None -> dict_del (dict_set d x v) x = d.
Proof.
  intros H. rewrite (dict_set_fresh _ d x v H). unfold dict_del.
  rewrite filter_app. simpl. rewrite Var_eqb_refl. simpl.
  rewrite app_nil_r. apply filter_all. apply forallb_forall.
  intros [k w] Hin. simpl. now rewrite (dict_get_not_key _ d x k w H Hin).
Qed.

Lemma dict_mem_false V (d : dict V) x :
  dict_mem d x = false -> dict_get d x = None.
Proof. unfold dict_mem. now destruct (dict_get d x). Qed.

Lemma dict_keys_fresh V (d : dict V) x v :
  NoDup (dict_keys d) -> dict_get d x = None ->
  NoDup (dict_keys (d ++ [(x, v)])).
Proof.
  intros Hnd Hx. unfold dict_keys. rewrite map_app. simpl.
  apply NoDup_snoc; auto. intros Hin.
  destruct (dict_key_get _ _ _ Hin) as [w Hw]. congruence.
Qed.

Lemma forallb_false A (p : A -> bool) (l : list A) :
  forallb p l = false -> exists a, In a l /\ p a = false.
Proof.
  induction l as [|a l IH]; simpl; [discriminate|].
  destruct (p a) eqn:E; simpl.
  - intros H. destruct (IH H) as (b & Hb & Hp). eauto.
  - intros _. eauto.
Qed.

Lemma through_domains_reads A (m : M Domains A) w x :
  m (current w) = (Ok x, current w) -> through_domains m w = (Ok x, w).
Proof.
  intros H. unfold through_domains. rewrite H. f_equal.
  destruct w as [objs p c1 c2]. unfold with_current, current. simpl.
  now rewrite list_update_nth.
Qed.

(** One iteration of the loop of [backtrack]. *)
Lemma backtrack_loop_step cw recurse (a : Assignment) variable value rest w
      (ok : bool) res1 w1 :
  consistent cw (dict_set a variable value) = Ok ok ->
  (ok = true ->
   recurse (dict_set a variable value) (snd (incr_WORDS_TESTED w))
   = (Ok res1, w1)) ->
  backtrack_loop cw recurse a variable (value :: rest) w =
  if ok then
    if truthy res1 then (Ok res1, w1)
    else backtrack_loop cw recurse (dict_del (dict_set a variable value) variable)
                        variable rest w1
  else backtrack_loop cw recurse (dict_del (dict_set a variable value) variable)
                      variable rest (snd (incr_WORDS_TESTED w)).
Proof.
  intros Hc Hrec. cbn [backtrack_loop].
  erewrite bind_run by reflexivity.
  rewrite Hc. erewrite bind_run by reflexivity.
  destruct ok.
  - rewrite bind_assoc. erewrite bind_run by (apply Hrec; reflexivity).
    erewrite bind_run by reflexivity.
    destruct res1 as [[|kv r]|]; reflexivity.
  - erewrite bind_run by reflexivity. reflexivity.
Qed.

Section PlainComplete.
Variable cw : Crossword.
Hypothesis Hrange : overlaps_in_range cw = true.
Variable D : Domains.
Hypothesis HD : store_wf cw D.

Lemma ruleout_vals_total var other value vals count :
  In var (variables cw) -> In other (variables cw) ->
  String.length value = v_length var ->
  (forall v, In v vals -> String.length v = v_length other) ->
  exists n, ruleout_vals cw var other value vals count = Ok n.
Proof.
  intros Hv Ho Hl. revert count.
  induction vals as [|v vals IH]; intros count Hvals; simpl; [eauto|].
  destruct (overlap_satisfied_total cw Hrange var other value v Hv Ho Hl
              (Hvals v (or_introl eq_refl))) as [[|] ->];
    apply IH; intros v' Hv'; apply Hvals; now right.
Qed.

Lemma ruleout_vars_total var value others :
  In var (variables cw) -> String.length value = v_length var ->
  incl others (variables cw) ->
  forall count, exists n, ruleout_vars cw var value others count D = (Ok n, D).
Proof.
  intros Hv Hl. induction others as [|o others IH]; intros Hos count; simpl.
  - eexists. reflexivity.
  - assert (In o (variables cw)) as Ho by (apply Hos; now left).
    destruct (store_wf_get cw D o HD Ho) as [vals Hvals].
    unfold bind at 1. unfold get_domain at 1. rewrite Hvals.
    destruct (ruleout_vals_total var o value vals count Hv Ho Hl
                (proj2 HD o vals Hvals)) as [n Hn].
    unfold bind at 1, lift. rewrite Hn.
    apply IH. intros z Hz. apply Hos. now right.
Qed.

Lemma ruleout_all_total var vals :
  In var (variables cw) ->
  (forall v, In v vals -> String.length v = v_length var) ->
  exists vr, ruleout_all cw var vals D = (Ok vr, D).
Proof.
  intros Hv. induction vals as [|v vals IH]; intros Hvals; simpl.
  - eexists. reflexivity.
  - destruct (ruleout_vars_total var v (neighbors cw var) Hv
                (Hvals v (or_introl eq_refl)) (neighbors_incl cw var) 0)
      as [n Hn].
    unfold bind at 1. rewrite Hn.
    destruct IH as [vr Hvr]; [intros v' Hv'; apply Hvals; now right|].
    unfold bind at 1. rewrite Hvr. eexists. reflexivity.
Qed.

Lemma order_domain_values_total var a :
  In var (variables cw) ->
  exists vals, order_domain_values cw var a D = (Ok vals, D).
Proof.
  intros Hv. destruct (store_wf_get cw D var HD Hv) as [vals Hvals].
  unfold order_domain_values.
  unfold bind at 1. unfold get_domain at 1. rewrite Hvals.
  destruct (ruleout_all_total var vals Hv (proj2 HD var vals Hvals))
    as [vr Hvr].
  unfold bind at 1. rewrite Hvr. eexists. reflexivity.
Qed.

Lemma select_unassigned_variable_total (a : Assignment) :
  forallb (fun x => dict_mem a x) (dict_keys D) = false ->
  exists v, select_unassigned_variable cw a D = (Ok v, D).
Proof.
  intros Hb. apply forallb_false in Hb. destruct Hb as (k & Hk & Hmem).
  unfold select_unassigned_variable.
  unfold bind at 1. unfold domain_keys at 1.
  set (un := filter (fun k => negb (dict_mem a k)) (dict_keys D)).
  assert (In k un) as Hun by (apply filter_In; now rewrite Hmem).
  destruct (select_keys_total cw un D) as [keyed Hkeyed].
  { intros x Hx. apply filter_In in Hx. now apply dict_key_get. }
  unfold bind at 1. rewrite Hkeyed.
  pose proof (select_keys_fst _ _ _ _ _ Hkeyed) as Hfst.
  destruct (sort_by key_leb keyed) as [|[v kv] t] eqn:Es.
  - apply sort_by_nil in Es. subst keyed. simpl in Hfst.
    rewrite <- Hfst in Hun. destruct Hun.
  - simpl. eexists. reflexivity.
Qed.

Variable s : Assignment.

(** A part of the solution is consistent. *)
Lemma part_consistent (a : Assignment) :
  held_solution cw D s ->
  NoDup (dict_keys a) -> incl a s -> consistent cw a = Ok true.
Proof.
  intros (Hs_keys & Hs_vars & Hs_passed & Hs_within & Hs_covers) Hnd Hincl.
  destruct Hs_passed as (Hs_nd & Hs_len & Hs_ov).
  destruct (consistent_loop_total cw Hrange a) with (items := a)
                                                    (processed := @nil string)
    as [b Hb].
  { intros y vy Hin. apply Hs_len. now apply Hincl. }
  { intros x v Hin. eapply Hs_vars. apply Hincl. eauto. }
  fold (consistent cw a) in Hb. rewrite Hb. f_equal.
  destruct b; auto. exfalso.
  pose proof (consistent_loop_verdict cw a false a [] eq_refl) as Hv.
  simpl in Hv.
  destruct Hv as [Hrep|[(x & v & Hin & Hne)|(x & vx & y & vy & Hx & Hy & Hn & Ho)]].
  - repeat split; [constructor| |]; intros x v [].
  - exact Hb.
  - apply Hrep. clear Hb Hrep.
    induction a as [|[k w] a IH]; simpl; [constructor|].
    inversion Hnd as [|? ? Hk Hnd']; subst. constructor.
    + intros Hw. apply in_map_iff in Hw. destruct Hw as ([k' w'] & Heq & Hin').
      simpl in Heq. subst w'. apply Hk.
      assert (k' = k) as ->.
      { eapply NoDup_snd_key; [exact Hs_nd| |]; apply Hincl; simpl; eauto. }
      now apply (in_map fst) in Hin'.
    + apply IH; auto. intros p Hp. apply Hincl. now right.
  - apply Hne. apply Hs_len. now apply Hincl.
  - rewrite (Hs_ov x vx (Hincl _ Hx) y vy Hn) in Ho; [discriminate|].
    apply dict_In_get; auto.
Qed.

Lemma well_sized_set (a : Assignment) x v :
  well_sized cw a -> dict_get a x = None ->
  In x (variables cw) -> String.length v = v_length x ->
  well_sized cw (dict_set a x v).
Proof.
  intros Ha Hx Hin Hl. rewrite (dict_set_fresh _ a x v Hx).
  intros k w Hkw. apply in_app_or in Hkw.
  destruct Hkw as [Hkw|[Heq|[]]]; [now apply Ha|].
  inversion Heq; subst. auto.
Qed.

Lemma well_sized_consistent (a : Assignment) :
  well_sized cw a -> exists b, consistent cw a = Ok b.
Proof.
  intros Ha. apply consistent_loop_total; auto.
  - intros y vy Hin. now apply Ha.
  - intros x v Hin. now apply (Ha x v).
Qed.

Lemma backtrack_loop_complete fuel (a : Assignment) variable :
  (forall a1, well_sized cw a1 -> NoDup (dict_keys a1) ->
              unassigned a1 (dict_keys D) < fuel -> plain_call cw D s fuel a1) ->
  well_sized cw a -> NoDup (dict_keys a) ->
  In variable (dict_keys D) -> dict_mem a variable = false ->
  unassigned a (dict_keys D) <= fuel ->
  forall vals,
    (forall v, In v vals -> String.length v = v_length variable) ->
    forall w, current w = D ->
      exists res w',
        backtrack_loop cw (backtrack cw fuel) a variable vals w = (Ok res, w')
        /\ current w' = D
        /\ (forall r, res = Some r -> r <> [])
        /\ (held_solution cw D s -> incl a s ->
            forall sv, dict_get s variable = Some sv -> In sv vals ->
                       exists r, res = Some r).
Proof.
  intros IH Ha Hnd Hvar Hmem Hfuel.
  pose proof (dict_mem_false _ a variable Hmem) as Hfresh.
  assert (In variable (variables cw)) as Hvarin
      by (destruct HD as [Hk _]; now rewrite <- Hk).
  induction vals as [|value rest IHvals]; intros Hvals w Hcur.
  - exists None, w. repeat split; auto; try discriminate.
    intros _ _ sv _ [].
  - set (a1 := dict_set a variable value).
    assert (well_sized cw a1) as Ha1.
    { apply well_sized_set; auto. apply Hvals. now left. }
    assert (NoDup (dict_keys a1)) as Hnd1.
    { unfold a1. rewrite (dict_set_fresh _ a variable value Hfresh).
      now apply dict_keys_fresh. }
    assert (unassigned a1 (dict_keys D) < fuel) as Hfuel1.
    { pose proof (unassigned_set a (dict_keys D) variable value Hvar Hmem).
      unfold a1. lia. }
    assert (forall v, In v rest -> String.length v = v_length variable)
      as Hrest by (intros v Hv; apply Hvals; now right).
    destruct (well_sized_consistent a1 Ha1) as [ok Hok].
    set (w1 := snd (incr_WORDS_TESTED w)).
    assert (current w1 = D) as Hcur1 by exact Hcur.
    destruct (IH a1 Ha1 Hnd1 Hfuel1 w1 Hcur1)
      as (res1 & w2 & Hrun1 & Hcur2 & Hshape1 & Hcomp1).
    rewrite (backtrack_loop_step cw (backtrack cw fuel) a variable value rest
               w ok res1 w2 Hok (fun _ => Hrun1)).
    fold a1. unfold a1 at 1 2. rewrite (dict_del_fresh _ a variable value Hfresh).
    fold w1.
    destruct ok.
    + destruct res1 as [r|].
      * assert (r <> []) as Hr.
        { destruct (Hshape1 r eq_refl) as [->|Hr]; auto.
          unfold a1. rewrite (dict_set_fresh _ a variable value Hfresh).
          now destruct a. }
        destruct r as [|kv r]; [congruence|]. simpl.
        exists (Some (kv :: r)), w2. repeat split; auto.
        -- intros r' Hr'. inversion Hr'; subst. discriminate.
        -- eauto.
      * simpl. destruct (IHvals Hrest w2 Hcur2)
          as (res & w' & Hrun & Hcur' & Hshape & Hcomp).
        exists res, w'. repeat split; auto.
        intros Hsol Hincl sv Hsv [<-|Hin]; [|eauto].
        exfalso. destruct Hcomp1 as [r Hr]; [exact Hsol| |discriminate].
        unfold a1. rewrite (dict_set_fresh _ a variable value Hfresh).
        intros p Hp. apply in_app_or in Hp.
        destruct Hp as [Hp|[<-|[]]]; auto. now apply dict_get_In.
    + destruct (IHvals Hrest w1 Hcur1)
        as (res & w' & Hrun & Hcur' & Hshape & Hcomp).
      exists res, w'. repeat split; auto.
      intros Hsol Hincl sv Hsv [<-|Hin]; [|eauto].
      exfalso. rewrite (part_consistent a1 Hsol Hnd1) in Hok; [discriminate|].
      unfold a1. rewrite (dict_set_fresh _ a variable value Hfresh).
      intros p Hp. apply in_app_or in Hp.
      destruct Hp as [Hp|[<-|[]]]; auto. now apply dict_get_In.
Qed.

Lemma backtrack_complete fuel :
  forall a, well_sized cw a -> NoDup (dict_keys a) ->
            unassigned a (dict_keys D) < fuel -> plain_call cw D s fuel a.
Proof.
  induction fuel as [|fuel IH]; intros a Ha Hnd Hfuel; [lia|].
  intros w Hcur. cbn [backtrack].
  erewrite bind_run by reflexivity.
  match goal with
  | |- exists _ _, bind _ _ ?st = _ /\ _ => set (w1 := st)
  end.
  assert (current w1 = D) as Hcur1 by exact Hcur.
  set (b := forallb (fun x => dict_mem a x) (dict_keys D)).
  erewrite bind_run.
  2:{ apply through_domains_reads. rewrite Hcur1.
      unfold assignment_complete, bind, domain_keys, ret. reflexivity. }
  fold b. destruct b eqn:Eb.
  - exists (Some a), w1.
    split; [reflexivity|]. split; [exact Hcur1|]. split.
    + intros r Hr. inversion Hr. now left.
    + eauto.
  - destruct (select_unassigned_variable_total a Eb) as [variable Hsel].
    pose proof (select_unassigned_variable_Ok _ _ _ _ _ Hsel)
      as (_ & Hvar & Hmem).
    erewrite bind_run
      by (apply through_domains_reads; rewrite Hcur1; exact Hsel).
    assert (In variable (variables cw)) as Hvarin
        by (destruct HD as [Hk _]; now rewrite <- Hk).
    destruct (order_domain_values_total variable a Hvarin) as [vals Hord].
    pose proof (order_domain_values_Ok _ _ _ _ _ _ Hord)
      as (_ & Dv & HDv & Hvals).
    erewrite bind_run
      by (apply through_domains_reads; rewrite Hcur1; exact Hord).
    assert (unassigned a (dict_keys D) <= fuel) as Hle by lia.
    assert (forall v, In v vals -> String.length v = v_length variable)
      as Hlens.
    { intros v Hv. apply Hvals in Hv. exact (proj2 HD _ _ HDv v Hv). }
    destruct (backtrack_loop_complete fuel a variable IH Ha Hnd Hvar Hmem
                Hle vals Hlens w1 Hcur1)
      as (res & w' & Hrun & Hcur' & Hshape & Hcomp).
    exists res, w'.
    split; [exact Hrun|]. split; [exact Hcur'|]. split.
    + intros r Hr. right. eauto.
    + intros Hsol Hincl.
      pose proof Hsol as (_ & _ & _ & Hs_within & Hs_covers).
      assert (dict_mem s variable = true) as Hsv by (now apply Hs_covers).
      unfold dict_mem in Hsv.
      destruct (dict_get s variable) as [sv|] eqn:Esv; [|discriminate].
      apply (Hcomp Hsol Hincl sv eq_refl). apply Hvals.
      exact (Hs_within variable sv Dv Esv HDv).
Qed.

End PlainComplete.

Lemma init_store_ok cw :
  store_ok cw (map (fun var => (var, words cw)) (variables cw)).
Proof.
  split; [apply init_keys|]. apply Forall_forall. intros kv Hin.
  apply in_map_iff in Hin. destruct Hin as (v & <- & _). apply incl_refl.
Qed.

(** The plain search finds an assignment whenever the puzzle has a
    solution. *)
Lemma plain_search_finds cw (s : Assignment) :
  overlaps_in_range cw = true ->
  NoDup (dict_keys s) ->
  (forall x v, In (x, v) s -> In x (variables cw)) ->
  complete cw s ->
  consistent cw s = Ok true ->
  uses_words cw s ->
  exists r,
    fst (solve cw false (init cw)) = Ok (Some r)
    /\ complete cw r /\ consistent cw r = Ok true /\ uses_words cw r.
Proof.
  intros Hrange Hkeys Hvars Hcomplete Hcons Hwords.
  pose proof (consistent_passed cw s Hcons) as Hpassed.
  destruct (enforce_node_consistency_init cw) as (d1 & Henf & Hwf1 & Hfit).
  pose proof (enforce_node_consistency_store_ok cw _ _ _
                (init_store_ok cw) Henf) as Hok1.
  assert (within s d1) as Hin1.
  { intros x v vals Hs Hd. apply dict_get_In in Hs.
    rewrite (Hfit x (Hvars _ _ Hs)) in Hd. inversion Hd; subst.
    apply filter_In. split.
    - unfold uses_words in Hwords. rewrite Forall_forall in Hwords.
      exact (Hwords _ Hs).
    - unfold fits. apply Nat.eqb_eq. destruct Hpassed as (_ & Hlen & _).
      exact (Hlen _ _ Hs). }
  assert (covers s d1) as Hcov1.
  { intros x Hx. apply Hcomplete. destruct Hwf1 as [Hk _]. now rewrite <- Hk. }
  destruct (ac3_total cw Hrange d1 Hwf1) as (b & d2 & Hac3 & Hwf2 & _).
  pose proof (ac3_store_ok cw _ _ _ _ Hok1 Hac3) as Hok2.
  destruct (ac3_keeps cw s Hkeys Hvars Hpassed None d1 d2 b) as [_ Hin2];
    auto.
  { discriminate. }
  assert (covers s d2) as Hcov2.
  { intros x Hx. apply Hcomplete. destruct Hwf2 as [Hk _]. now rewrite <- Hk. }
  unfold solve, init.
  run_through Henf.
  run_through Hac3.
  unfold bind at 1. unfold get_state at 1. cbn [negb].
  set (w2 := {| objects := [d2]; self_domains := 0;
               BACKTRACK_COUNTER := 0; WORDS_TESTED := 0 |}).
  assert (unassigned [] (dict_keys d2) < search_fuel w2) as Hfuel.
  { unfold unassigned, search_fuel.
    pose proof (filter_length_le
                  (fun k => negb (dict_mem (@nil (Var * string)) k))
                  (dict_keys d2)) as Hle.
    assert (List.length (dict_keys d2) = List.length (current w2)) as Hlen
        by (unfold dict_keys; apply length_map).
    lia. }
  destruct (backtrack_complete cw Hrange d2 Hwf2 s (search_fuel w2) [])
    with (w := w2) as (res & w' & Hrun & _ & _ & Hsome); auto.
  { intros x v []. }
  { constructor. }
  assert (held_solution cw d2 s) as Hsol
      by exact (conj Hkeys (conj Hvars (conj Hpassed (conj Hin2 Hcov2)))).
  assert (incl (@nil (Var * string)) s) as Hnil by (intros p []).
  destruct (Hsome Hsol Hnil) as [r ->].
  exists r. split.
  { change (fst (backtrack cw (search_fuel w2) [] w2) = Ok (Some r)).
    now rewrite Hrun. }
  assert (store_ok cw (current w2)) as Hok by exact Hok2.
  apply (backtrack_sound cw _ _ _ _ _ Hok (consistent_empty cw)
           (Forall_nil _) Hrun r eq_refl).
Qed.

(** X11: the plain search is complete.  If some assignment gives every
    slot of the puzzle a word of the word list and passes [consistent],
    then [solve(False)] returns an assignment (raising nothing), and that
    assignment is complete, passes [consistent] and uses words of the word
    list. *)
Theorem solve_plain_complete cw (s : Assignment) :
  overlaps_in_range cw = true ->
  NoDup (dict_keys s) ->
  (forall x v, In (x, v) s -> In x (variables cw)) ->
  complete cw s ->
  consistent cw s = Ok true ->
  uses_words cw s ->
  exists r,
    fst (solve cw false (init cw)) = Ok (Some r)
    /\ complete cw r /\ consistent cw r = Ok true /\ uses_words cw r.
Proof.
  intros Hrange Hkeys Hvars Hcomplete Hcons Hwords.
  now apply (plain_search_finds cw s).
Qed.

Lemma ring_NoDup_solution :
  NoDup (dict_keys [(Puzzle.north, "qxxs"%string); (Puzzle.west, "qxu"%string);
                    (Puzzle.east, "sxv"%string); (Puzzle.south, "uxxv"%string)]).
Proof.
  repeat constructor; simpl; intros H;
    repeat (destruct H as [H|H]; [discriminate|]); exact H.
Qed.

Lemma solve_plain_complete_witness :
  exists r,
    fst (solve Puzzle.ring false (init Puzzle.ring)) = Ok (Some r)
    /\ complete Puzzle.ring r /\ consistent Puzzle.ring r = Ok true
    /\ uses_words Puzzle.ring r.
Proof.
  apply (solve_plain_complete Puzzle.ring
           [(Puzzle.north, "qxxs"%string); (Puzzle.west, "qxu"%string);
            (Puzzle.east, "sxv"%string); (Puzzle.south, "uxxv"%string)]).
  - reflexivity.
  - exact ring_NoDup_solution.
  - intros x v [H|[H|[H|[H|[]]]]]; inversion H; subst; simpl; auto.
  - intros x [<-|[<-|[<-|[<-|[]]]]]; reflexivity.
  - reflexivity.
  - apply Forall_forall.
    intros kv [<-|[<-|[<-|[<-|[]]]]]; simpl; intuition.
Defined.

(* ------------------------------------------------------------------ *)
(** * No exception on a well-formed puzzle *)
(* ------------------------------------------------------------------ *)

Section Returns.
Variable cw : Crossword.
Hypothesis Hrange : overlaps_in_range cw = true.

Lemma world_wf_current n w : world_wf cw n w -> store_wf cw (current w).
Proof.
  intros (Hp & Hf & _). rewrite Forall_forall in Hf. apply Hf.
  unfold current. now apply nth_In.
Qed.

(** A method that returns on every well-formed dictionary and leaves it
    well formed does so through [self.domains]. *)
Lemma through_domains_wf A (m : M Domains A) (Q : A -> Prop) n w :
  world_wf cw n w ->
  (forall d, store_wf cw d ->
             exists a d', m d = (Ok a, d') /\ store_wf cw d' /\ Q a) ->
  exists a w', through_domains m w = (Ok a, w') /\ world_wf cw n w' /\ Q a.
Proof.
  intros Hw Hm. destruct (Hm _ (world_wf_current n w Hw))
    as (a & d' & Hrun & Hd' & HQ).
  unfold through_domains. rewrite Hrun. exists a, (with_current w d').
  split; auto. split; auto.
  destruct Hw as (Hp & Hf & Hn). unfold world_wf, with_current. simpl.
  rewrite list_update_length. repeat split; auto.
  now apply list_update_Forall.
Qed.

Lemma ac3_total_arcs arcs (d : Domains) :
  store_wf cw d ->
  (forall l, arcs = Some l ->
             forall x y, In (x, y) l ->
                         In x (variables cw) /\ In y (variables cw)) ->
  exists b d', ac3 cw arcs d = (Ok b, d') /\ store_wf cw d' /\ True.
Proof.
  intros Hd Harcs.
  assert (forall arcs',
             (forall x y, In (x, y) arcs' ->
                          In x (variables cw) /\ In y (variables cw)) ->
             exists b d',
               ac3_loop cw (ac3_fuel cw d arcs') (rev arcs') d = (Ok b, d')
               /\ store_wf cw d' /\ True) as Hloop.
  { intros arcs' Hin.
    destruct (ac3_loop_total cw Hrange (ac3_fuel cw d arcs') (rev arcs') d Hd)
      as (b & d' & Hrun & Hd' & _).
    - intros x y Hxy. apply in_rev in Hxy. auto.
    - unfold ac3_fuel. rewrite length_rev. lia.
    - eauto. }
  assert (forall x y, In (x, y) (all_arcs (dict_keys d)) ->
                      In x (variables cw) /\ In y (variables cw)) as Hall.
  { intros x y Hxy. apply all_arcs_In in Hxy.
    destruct Hd as [Hk _]. now rewrite <- Hk. }
  unfold ac3.
  destruct arcs as [[|p l]|];
    cbv beta iota delta [bind ret domain_keys get_state];
    apply Hloop; auto.
  now apply Harcs.
Qed.

Lemma arcs_to_vars variable x y :
  In variable (variables cw) -> In (x, y) (arcs_to cw variable) ->
  In x (variables cw) /\ In y (variables cw).
Proof.
  intros Hv H. unfold arcs_to in H. apply in_map_iff in H.
  destruct H as (z & Heq & Hz). inversion Heq; subst.
  split; auto. now apply neighbors_incl in Hz.
Qed.

Lemma store_wf_collapse (d : Domains) variable value :
  store_wf cw d -> In variable (variables cw) ->
  String.length value = v_length variable ->
  store_wf cw (dict_set d variable [value]).
Proof.
  intros [Hk Hn] Hv Hl. split.
  - rewrite dict_set_keys; auto. now rewrite Hk.
  - intros x vals Hx v Hin. rewrite dict_get_set in Hx.
    destruct (Var_eqb variable x) eqn:E.
    + apply Var_eqb_eq in E. subst x. inversion Hx; subst.
      destruct Hin as [<-|[]]. exact Hl.
    + exact (Hn _ _ Hx _ Hin).
Qed.

Lemma backtrack_ac3_try_returns recurse (a : Assignment) variable
      domains_copy value n w :
  (forall w1, world_wf cw n w1 ->
              exists res w', recurse (dict_set a variable value) w1
                             = (Ok res, w') /\ world_wf cw n w') ->
  world_wf cw n w -> domains_copy < n ->
  well_sized cw (dict_set a variable value) ->
  In variable (variables cw) -> String.length value = v_length variable ->
  exists res w',
    backtrack_ac3_try cw recurse a variable domains_copy value w = (Ok res, w')
    /\ world_wf cw n w'.
Proof.
  intros Hrec Hw Hdc Ha1 Hvar Hlen. unfold backtrack_ac3_try.
  erewrite bind_run by reflexivity.
  match goal with
  | |- exists _ _, bind _ _ ?st = _ /\ _ => set (w1 := st)
  end.
  assert (world_wf cw n w1) as Hw1 by exact Hw.
  destruct (consistent_loop_total cw Hrange (dict_set a variable value))
    with (items := dict_set a variable value) (processed := @nil string)
    as [ok Hok].
  { intros y vy Hin. now apply Ha1. }
  { intros x v Hin. now apply (Ha1 x v). }
  fold (consistent cw (dict_set a variable value)) in Hok.
  rewrite Hok. erewrite bind_run by reflexivity.
  assert (forall w3, world_wf cw n w3 ->
            exists res w',
              bind (rebind_domains domains_copy)
                   (fun _ => ret (@None Assignment)) w3
              = (Ok res, w') /\ world_wf cw n w') as Hrestore.
  { intros w3 (Hp & Hf & Hn). eexists. eexists. split; [reflexivity|].
    unfold world_wf. simpl. repeat split; auto. lia. }
  destruct ok; [|erewrite bind_run by reflexivity; now apply Hrestore].
  destruct (through_domains_wf unit (set_domain variable [value])
              (fun _ => True) n w1 Hw1) as (u & w4 & Hset & Hw4 & _).
  { intros d Hd. eexists. eexists. split; [reflexivity|]. split; auto.
    now apply store_wf_collapse. }
  destruct (through_domains_wf bool (ac3 cw (Some (arcs_to cw variable)))
              (fun _ => True) n w4 Hw4) as (b & w5 & Hac3 & Hw5 & _).
  { intros d Hd. apply ac3_total_arcs; auto.
    intros l Hl x y Hxy. inversion Hl; subst. now apply arcs_to_vars in Hxy. }
  destruct (Hrec w5 Hw5) as (result & w6 & Hcall & Hw6).
  rewrite !bind_assoc. erewrite bind_run by exact Hset.
  rewrite !bind_assoc. erewrite bind_run by exact Hac3.
  rewrite !bind_assoc. erewrite bind_run by exact Hcall.
  erewrite bind_run by reflexivity.
  destruct result as [[|kv r]|]; simpl; try now apply Hrestore.
  eexists. eexists. split; [reflexivity|exact Hw6].
Qed.

Lemma backtrack_ac3_loop_returns fuel (a : Assignment) variable domains_copy
      n :
  (forall a1 w1, world_wf cw n w1 -> well_sized cw a1 ->
                 NoDup (dict_keys a1) ->
                 unassigned a1 (variables cw) < fuel ->
                 exists res w', backtrack_ac3 cw fuel a1 w1 = (Ok res, w')
                                /\ world_wf cw n w') ->
  well_sized cw a -> NoDup (dict_keys a) ->
  In variable (variables cw) -> dict_mem a variable = false ->
  unassigned a (variables cw) <= fuel -> domains_copy < n ->
  forall vals,
    (forall v, In v vals -> String.length v = v_length variable) ->
    forall w, world_wf cw n w ->
      exists res w',
        backtrack_ac3_loop cw (backtrack_ac3 cw fuel) a variable domains_copy
                           vals w = (Ok res, w')
        /\ world_wf cw n w'.
Proof.
  intros IH Ha Hnd Hvar Hmem Hfuel Hdc.
  pose proof (dict_mem_false _ a variable Hmem) as Hfresh.
  induction vals as [|value rest IHvals]; intros Hvals w Hw.
  - eexists. eexists. split; [reflexivity|exact Hw].
  - cbn [backtrack_ac3_loop].
    assert (String.length value = v_length variable) as Hlen
        by (apply Hvals; now left).
    assert (well_sized cw (dict_set a variable value)) as Ha1.
    { rewrite (dict_set_fresh _ a variable value Hfresh).
      intros k v Hkv. apply in_app_or in Hkv.
      destruct Hkv as [Hkv|[Heq|[]]]; [now apply Ha|].
      inversion Heq; subst. auto. }
    destruct (backtrack_ac3_try_returns (backtrack_ac3 cw fuel) a variable
                domains_copy value n w) as (r & w1 & Htry & Hw1); auto.
    { intros w0 Hw0. apply IH; auto.
      - rewrite (dict_set_fresh _ a variable value Hfresh).
        now apply dict_keys_fresh.
      - pose proof (unassigned_set a (variables cw) variable value Hvar Hmem).
        lia. }
    erewrite bind_run by exact Htry.
    destruct r as [r|].
    + eexists. eexists. split; [reflexivity|exact Hw1].
    + rewrite (dict_del_fresh _ a variable value Hfresh).
      apply IHvals; auto. intros v Hv. apply Hvals. now right.
Qed.

Lemma backtrack_ac3_returns fuel :
  forall a n w,
    world_wf cw n w -> well_sized cw a -> NoDup (dict_keys a) ->
    unassigned a (variables cw) < fuel ->
    exists res w', backtrack_ac3 cw fuel a w = (Ok res, w')
                   /\ world_wf cw n w'.
Proof.
  induction fuel as [|fuel IH]; intros a n w Hw Ha Hnd Hfuel; [lia|].
  cbn [backtrack_ac3].
  erewrite bind_run by reflexivity.
  match goal with
  | |- exists _ _, bind _ _ ?st = _ /\ _ => set (w1 := st)
  end.
  assert (world_wf cw n w1) as Hw1 by exact Hw.
  pose proof (world_wf_current n w1 Hw1) as HD.
  set (b := forallb (fun x => dict_mem a x) (dict_keys (current w1))).
  erewrite bind_run.
  2:{ apply through_domains_reads.
      unfold assignment_complete, bind, domain_keys, ret. reflexivity. }
  fold b. destruct b eqn:Eb.
  { eexists. eexists. split; [reflexivity|exact Hw1]. }
  destruct (select_unassigned_variable_total cw (current w1) a Eb)
    as [variable Hsel].
  pose proof (select_unassigned_variable_Ok _ _ _ _ _ Hsel)
    as (_ & Hvar & Hmem).
  assert (In variable (variables cw)) as Hvarin
      by (destruct HD as [Hk _]; now rewrite <- Hk).
  erewrite bind_run by (apply through_domains_reads; exact Hsel).
  erewrite bind_run by reflexivity.
  match goal with
  | |- exists _ _, bind _ _ ?st = _ /\ _ => set (w2 := st)
  end.
  set (domains_copy := List.length (objects w1)).
  assert (world_wf cw (Nat.max n (S domains_copy)) w2) as Hw2.
  { destruct Hw as (Hp & Hf & Hn).
    unfold world_wf, w2, domains_copy, w1. simpl.
    rewrite length_app. simpl.
    split; [lia|]. split; [|lia]. apply Forall_app. split; auto. }
  pose proof (world_wf_current _ w2 Hw2) as HD2.
  destruct (order_domain_values_total cw Hrange (current w2) HD2 variable a
              Hvarin) as [vals Hord].
  pose proof (order_domain_values_Ok _ _ _ _ _ _ Hord)
    as (_ & Dv & HDv & Hvals).
  erewrite bind_run by (apply through_domains_reads; exact Hord).
  assert (unassigned a (variables cw) <= fuel) as Hle by lia.
  assert (forall v, In v vals -> String.length v = v_length variable)
    as Hsized.
  { intros v Hv. apply Hvals in Hv. exact (proj2 HD2 _ _ HDv v Hv). }
  assert (domains_copy < Nat.max n (S domains_copy)) as Hdc by lia.
  destruct (backtrack_ac3_loop_returns fuel a variable domains_copy
              (Nat.max n (S domains_copy))
              (fun a1 w0 Hw0 Ha1 Hnd1 Hlt =>
                 IH a1 (Nat.max n (S domains_copy)) w0 Hw0 Ha1 Hnd1 Hlt)
              Ha Hnd Hvarin Hmem Hle Hdc vals Hsized w2 Hw2)
    as (res & w' & Hrun & Hw').
  exists res, w'. split; auto.
  destruct Hw' as (Hp' & Hf' & Hn'). split; [exact Hp'|].
  split; [exact Hf'|]. lia.
Qed.

End Returns.

(** X12: on a puzzle whose overlap indices lie inside the slots, [solve]
    raises nothing, with and without interleaving: it returns an assignment
    or None. *)
Theorem solve_returns cw (interleaving : bool) :
  overlaps_in_range cw = true ->
  exists res, fst (solve cw interleaving (init cw)) = Ok res.
Proof.
  intros Hrange.
  destruct (enforce_node_consistency_init cw) as (d1 & Henf & Hwf1 & _).
  destruct (ac3_total cw Hrange d1 Hwf1) as (b & d2 & Hac3 & Hwf2 & _).
  unfold solve, init.
  run_through Henf.
  run_through Hac3.
  unfold bind at 1. unfold get_state at 1.
  set (w2 := {| objects := [d2]; self_domains := 0;
               BACKTRACK_COUNTER := 0; WORDS_TESTED := 0 |}).
  assert (List.length (current w2) = List.length (variables cw)) as Hlen.
  { destruct Hwf2 as [Hk _]. rewrite <- Hk. unfold dict_keys.
    now rewrite length_map. }
  assert (forall ks, unassigned [] ks <= List.length ks) as Hun.
  { intros ks. unfold unassigned. apply filter_length_le. }
  assert (well_sized cw []) as Hnil by (intros x v []).
  destruct interleaving; cbn [negb].
  - destruct (backtrack_ac3_returns cw Hrange (search_fuel w2) [] 0 w2)
      as (res & w' & Hrun & _); auto.
    + unfold world_wf, w2. simpl. repeat split; auto.
    + constructor.
    + specialize (Hun (variables cw)). unfold search_fuel. lia.
    + exists res.
      change (fst (backtrack_ac3 cw (search_fuel w2) [] w2) = Ok res).
      now rewrite Hrun.
  - destruct (backtrack_complete cw Hrange d2 Hwf2 [] (search_fuel w2) [])
      with (w := w2) as (res & w' & Hrun & _); auto.
    + constructor.
    + specialize (Hun (dict_keys d2)). unfold search_fuel.
      assert (List.length (dict_keys d2) = List.length (current w2))
        by (unfold dict_keys; apply length_map).
      lia.
    + exists res.
      change (fst (backtrack cw (search_fuel w2) [] w2) = Ok res).
      now rewrite Hrun.
Qed.

Lemma solve_returns_witness :
  exists res, fst (solve Puzzle.arch5 true (init Puzzle.arch5)) = Ok res.
Proof. exact (solve_returns Puzzle.arch5 true eq_refl). Defined.

(* ------------------------------------------------------------------ *)
(** * The heuristics *)
(* ------------------------------------------------------------------ *)

Lemma key_leb_total a b : key_leb a b = false -> key_leb b a = true.
Proof.
  unfold key_leb. intros H. apply orb_false_iff in H. destruct H as [H1 H2].
  apply Nat.ltb_ge in H1. apply orb_true_iff.
  destruct (Nat.eq_dec (fst a) (fst b)) as [E|E].
  - right. rewrite E, Nat.eqb_refl in *. simpl in *.
    apply Z.leb_gt in H2. apply Z.leb_le. lia.
  - left. apply Nat.ltb_lt. lia.
Qed.

Lemma key_leb_trans a b c :
  key_leb a b = true -> key_leb b c = true -> key_leb a c = true.
Proof.
  unfold key_leb. rewrite !orb_true_iff, !andb_true_iff, !Nat.ltb_lt,
    !Nat.eqb_eq, !Z.leb_le. lia.
Qed.

(** After the sort the first element has the least key. *)
Lemma sort_by_head_least (l : list (Var * (nat * Z))) :
  forall h t, sort_by key_leb l = h :: t ->
    forall e, In e l -> key_leb (snd h) (snd e) = true.
Proof.
  assert (forall k, key_leb k k = true) as Hrefl.
  { intros k. unfold key_leb. rewrite Nat.eqb_refl, Z.leb_refl.
    apply orb_true_r. }
  induction l as [|x l IH]; intros h t Hs e He; [destruct He|].
  simpl in Hs.
  destruct (sort_by key_leb l) as [|y l'] eqn:El.
  - apply sort_by_nil in El. subst l. simpl in Hs. inversion Hs; subst.
    destruct He as [<-|[]]. apply Hrefl.
  - simpl in Hs. destruct (key_leb (snd x) (snd y)) eqn:Ek.
    + inversion Hs; subst.
      destruct He as [<-|He]; [apply Hrefl|].
      eapply key_leb_trans; [exact Ek|]. exact (IH y l' eq_refl e He).
    + inversion Hs; subst. apply key_leb_total in Ek.
      destruct He as [<-|He]; [exact Ek|].
      exact (IH h l' eq_refl e He).
Qed.

Lemma select_keys_entry cw vars (d d' : Domains) keyed x k :
  select_keys cw vars d = (Ok keyed, d') ->
  In (x, k) keyed ->
  exists vals,
    dict_get d x = Some vals
    /\ k = (List.length vals, (- Z.of_nat (List.length (neighbors cw x)))%Z).
Proof.
  revert keyed d'. induction vars as [|v vars IH]; intros keyed d' H Hin;
    simpl in H.
  - inversion H; subst. destruct Hin.
  - bind_inv H as vals d1 Hg. bind_inv H as keyed' d2 Hk.
    inversion H; subst.
    pose proof (readonly_state _ _ _ _ (readonly_get_domain v) Hg). subst.
    destruct Hin as [Heq|Hin].
    + inversion Heq; subst. unfold get_domain in Hg.
      destruct (dict_get d x) eqn:E; inversion Hg; subst. eauto.
    + eapply IH; eauto.
Qed.

(** X13: the slot returned by [select_unassigned_variable] is unassigned
    and no unassigned slot is a better choice: none has fewer remaining
    candidates, and none with as many candidates has more neighbors. *)
Theorem select_unassigned_variable_least cw a (d d' : Domains) v :
  select_unassigned_variable cw a d = (Ok v, d') ->
  dict_mem a v = false
  /\ exists vals,
       dict_get d v = Some vals
       /\ forall x xs, dict_get d x = Some xs -> dict_mem a x = false ->
                       preferred cw v vals x xs.
Proof.
  intros H.
  pose proof (select_unassigned_variable_Ok _ _ _ _ _ H) as (_ & _ & Hmem).
  split; [exact Hmem|].
  unfold select_unassigned_variable in H.
  bind_inv H as ks d1 Hks. inversion Hks; subst ks d1. clear Hks.
  bind_inv H as keyed d2 Hk.
  pose proof (select_keys_fst _ _ _ _ _ Hk) as Hfst.
  destruct (sort_by key_leb keyed) as [|[v0 kv] t] eqn:Es;
    [discriminate|].
  simpl in H. inversion H; subst v0 d2. clear H.
  assert (In (v, kv) keyed) as Hv
      by (apply (sort_by_In _ _ key_leb); rewrite Es; now left).
  destruct (select_keys_entry _ _ _ _ _ _ _ Hk Hv) as (vals & Hgv & Hkv).
  exists vals. split; [exact Hgv|].
  intros x xs Hx Hxmem.
  assert (In x (map fst keyed)) as Hxin.
  { rewrite Hfst. apply filter_In. split.
    - eapply dict_get_key; eauto.
    - now rewrite Hxmem. }
  apply in_map_iff in Hxin. destruct Hxin as ([x' kx] & Heq & Hxin).
  simpl in Heq. subst x'.
  destruct (select_keys_entry _ _ _ _ _ _ _ Hk Hxin) as (xs' & Hgx & Hkx).
  rewrite Hx in Hgx. inversion Hgx; subst xs'. clear Hgx.
  pose proof (sort_by_head_least keyed _ _ Es _ Hxin) as Hle.
  simpl in Hle. subst kv kx. unfold key_leb in Hle. simpl in Hle.
  apply orb_true_iff in Hle. unfold preferred.
  destruct Hle as [Hlt|Heq].
  - left. now apply Nat.ltb_lt.
  - right. apply andb_true_iff in Heq. destruct Heq as [He Hn].
    apply Nat.eqb_eq in He. apply Z.leb_le in Hn. split; [exact He|lia].
Qed.

Lemma select_unassigned_variable_least_witness :
  dict_mem (@nil (Var * string)) Puzzle.top = false
  /\ exists vals,
       dict_get [(Puzzle.top, ["aba"; "aca"]%string);
                 (Puzzle.left, ["efg"; "ehi"]%string);
                 (Puzzle.right, ["ehi"; "ijk"]%string)] Puzzle.top = Some vals
       /\ forall x xs,
            dict_get [(Puzzle.top, ["aba"; "aca"]%string);
                      (Puzzle.left, ["efg"; "ehi"]%string);
                      (Puzzle.right, ["ehi"; "ijk"]%string)] x = Some xs ->
            dict_mem (@nil (Var * string)) x = false ->
            preferred Puzzle.arch5 Puzzle.top vals x xs.
Proof.
  apply (select_unassigned_variable_least Puzzle.arch5 []
           [(Puzzle.top, ["aba"; "aca"]%string);
            (Puzzle.left, ["efg"; "ehi"]%string);
            (Puzzle.right, ["ehi"; "ijk"]%string)]
           [(Puzzle.top, ["aba"; "aca"]%string);
            (Puzzle.left, ["efg"; "ehi"]%string);
            (Puzzle.right, ["ehi"; "ijk"]%string)]).
  reflexivity.
Defined.

(** X14: [select_unassigned_variable] raises IndexError exactly when every
    slot of the store is assigned (the sorted list is empty and [result[0]]
    fails); with an unassigned slot left it raises nothing. *)
Theorem select_unassigned_variable_raises cw a (d : Domains) :
  (fst (select_unassigned_variable cw a d) = Raise IndexError
   <-> forallb (fun x => dict_mem a x) (dict_keys d) = true)
  /\ (fst (select_unassigned_variable cw a d) = Raise IndexError
      \/ exists v, select_unassigned_variable cw a d = (Ok v, d)).
Proof.
  assert (forallb (fun x => dict_mem a x) (dict_keys d) = true ->
          fst (select_unassigned_variable cw a d) = Raise IndexError)
    as Hraise.
  { intros Hb. unfold select_unassigned_variable.
    unfold bind at 1. unfold domain_keys at 1.
    rewrite filter_none; [reflexivity|].
    intros k Hk. rewrite forallb_forall in Hb. now rewrite (Hb k Hk). }
  destruct (forallb (fun x => dict_mem a x) (dict_keys d)) eqn:Eb.
  - split; [split; auto|left; auto].
  - destruct (select_unassigned_variable_total cw d a Eb) as [v Hv].
    split; [|right; eauto].
    split; [|discriminate]. rewrite Hv. discriminate.
Qed.

Section Insertion.
Variable A : Type.

Lemma insert_by_perm (leb : nat -> nat -> bool) (x : A * nat) l :
  Permutation (x :: l) (insert_by leb x l).
Proof.
  induction l as [|y l IH]; simpl; [reflexivity|].
  destruct (leb (snd x) (snd y)); [reflexivity|].
  etransitivity; [apply perm_swap|]. now constructor.
Qed.

Lemma sort_by_perm (leb : nat -> nat -> bool) (l : list (A * nat)) :
  Permutation l (sort_by leb l).
Proof.
  induction l as [|x l IH]; simpl; [constructor|].
  etransitivity; [|apply insert_by_perm]. now constructor.
Qed.

Lemma insert_by_sorted (x : A * nat) l :
  StronglySorted (fun p q => snd p <= snd q) l ->
  StronglySorted (fun p q => snd p <= snd q) (insert_by Nat.leb x l).
Proof.
  induction 1 as [|y l Hl IH Hy]; simpl.
  - constructor; constructor.
  - destruct (snd x <=? snd y) eqn:E.
    + apply Nat.leb_le in E. constructor; [now constructor|].
      constructor; [exact E|].
      rewrite Forall_forall in *. intros z Hz. specialize (Hy z Hz). lia.
    + apply Nat.leb_gt in E. constructor; [exact IH|].
      rewrite Forall_forall in *. intros z Hz.
      apply insert_by_In in Hz. destruct Hz as [->|Hz]; [lia|].
      now apply Hy.
Qed.

Lemma sort_by_sorted (l : list (A * nat)) :
  StronglySorted (fun p q => snd p <= snd q) (sort_by Nat.leb l).
Proof.
  induction l as [|x l IH]; simpl; [constructor|].
  now apply insert_by_sorted.
Qed.

Lemma sorted_by_count (f : A -> nat) (l : list (A * nat)) :
  (forall p, In p l -> snd p = f (fst p)) ->
  StronglySorted (fun p q => snd p <= snd q) l ->
  StronglySorted (fun u v => f u <= f v) (map fst l).
Proof.
  intros Hf Hs. induction Hs as [|p l Hl IH Hp]; simpl; constructor.
  - apply IH. intros q Hq. apply Hf. now right.
  - rewrite Forall_forall in *. intros u Hu. apply in_map_iff in Hu.
    destruct Hu as (q & <- & Hq).
    rewrite <- (Hf p (or_introl eq_refl)), <- (Hf q (or_intror Hq)).
    now apply Hp.
Qed.

End Insertion.

Lemma ruleout_vals_count cw var other_var value other_vals :
  forall count c,
    ruleout_vals cw var other_var value other_vals count = Ok c ->
    c = count
        + List.length (filter (rules_out cw var other_var value) other_vals).
Proof.
  induction other_vals as [|other_val rest IH]; intros count c H; simpl in H.
  - inversion H. simpl. lia.
  - simpl. unfold rules_out at 1.
    destruct (overlap_satisfied cw var other_var value other_val)
      as [[|]|e|]; try discriminate.
    + now apply IH.
    + apply IH in H. simpl. lia.
Qed.

Lemma ruleout_vars_count cw var value others :
  forall count c (d d' : Domains),
    ruleout_vars cw var value others count d = (Ok c, d') ->
    c = count
        + list_sum
            (map (fun other_var =>
                    List.length
                      (filter (rules_out cw var other_var value)
                              (match dict_get d other_var with
                               | Some other_vals => other_vals
                               | None => []
                               end))) others).
Proof.
  induction others as [|other_var rest IH]; intros count c d d' H;
    simpl in H.
  - inversion H. simpl. lia.
  - bind_inv H as other_vals d1 Hg.
    pose proof (readonly_state _ _ _ _ (readonly_get_domain other_var) Hg).
    subst d1. unfold get_domain in Hg.
    destruct (dict_get d other_var) as [vals|] eqn:E; inversion Hg; subst.
    bind_inv H as count' d2 Hc. unfold lift in Hc.
    destruct (ruleout_vals cw var other_var value other_vals count) as [n| |]
      eqn:Ev; inversion Hc; subst.
    apply ruleout_vals_count in Ev. apply IH in H.
    simpl. rewrite E. lia.
Qed.

Lemma ruleout_all_count cw var vals :
  forall (d d' : Domains) vr,
    ruleout_all cw var vals d = (Ok vr, d') ->
    forall p, In p vr -> snd p = ruled_out cw d var (fst p).
Proof.
  induction vals as [|value rest IH]; intros d d' vr H p Hp; simpl in H.
  - inversion H; subst. destruct Hp.
  - bind_inv H as count d1 Hc.
    pose proof (readonly_state _ _ _ _
                  (readonly_ruleout_vars cw var value (neighbors cw var) 0)
                  Hc). subst d1.
    bind_inv H as vr' d2 Hr. inversion H; subst.
    destruct Hp as [<-|Hp].
    + simpl. apply ruleout_vars_count in Hc. exact Hc.
    + eapply IH; eauto.
Qed.

(** X15: when [order_domain_values] returns, the list holds exactly the
    candidates of the slot (each once), in ascending order of the number of
    candidates of neighboring slots they rule out; the count ranges over all
    neighbors, assigned or not. *)
Theorem order_domain_values_sorted cw var a (d d' : Domains) vals :
  order_domain_values cw var a d = (Ok vals, d') ->
  exists D,
    dict_get d var = Some D
    /\ Permutation D vals
    /\ StronglySorted
         (fun u v => ruled_out cw d var u <= ruled_out cw d var v) vals.
Proof.
  intros H. unfold order_domain_values in H. bind_inv H as D d1 Hg.
  pose proof (readonly_state _ _ _ _ (readonly_get_domain var) Hg). subst.
  unfold get_domain in Hg. destruct (dict_get d var) as [D0|] eqn:E;
    inversion Hg; subst.
  exists D. split; [reflexivity|]. bind_inv H as vr d2 Hr.
  inversion H; subst.
  pose proof (ruleout_all_fst _ _ _ _ _ _ Hr) as Hfst. split.
  - rewrite <- Hfst. apply Permutation_map. apply sort_by_perm.
  - apply sorted_by_count; [|apply sort_by_sorted].
    intros p Hp. apply (proj1 (sort_by_In _ _ Nat.leb p vr)) in Hp.
    exact (ruleout_all_count _ _ _ _ _ _ Hr p Hp).
Qed.

Lemma order_domain_values_sorted_witness :
  exists D,
    dict_get [(Puzzle.across, ["cot"; "cat"]%string);
              (Puzzle.down, ["dog"; "tar"; "bar"]%string)] Puzzle.across
    = Some D
    /\ Permutation D ["cat"; "cot"]%string
    /\ StronglySorted
         (fun u v =>
            ruled_out (Puzzle.cross [])
              [(Puzzle.across, ["cot"; "cat"]%string);
               (Puzzle.down, ["dog"; "tar"; "bar"]%string)] Puzzle.across u
            <= ruled_out (Puzzle.cross [])
                 [(Puzzle.across, ["cot"; "cat"]%string);
                  (Puzzle.down, ["dog"; "tar"; "bar"]%string)]
                 Puzzle.across v)
         ["cat"; "cot"]%string.
Proof.
  apply (order_domain_values_sorted (Puzzle.cross []) Puzzle.across []
           [(Puzzle.across, ["cot"; "cat"]%string);
            (Puzzle.down, ["dog"; "tar"; "bar"]%string)]
           [(Puzzle.across, ["cot"; "cat"]%string);
            (Puzzle.down, ["dog"; "tar"; "bar"]%string)]).
  reflexivity.
Defined.

(* ------------------------------------------------------------------ *)
(** * letter_grid *)
(* ------------------------------------------------------------------ *)

Lemma position_offset x k i j :
  position x k = (i, j) <-> offset x i j = Some k.
Proof.
  unfold position, offset. destruct (v_direction x).
  - split.
    + intros H. inversion H; subst.
      rewrite Nat.add_0_r, Nat.eqb_refl. simpl.
      replace (v_j x <=? v_j x + k) with true
        by (symmetry; apply Nat.leb_le; lia).
      f_equal. lia.
    + destruct ((i =? v_i x) && (v_j x <=? j)) eqn:E; [|discriminate].
      apply andb_true_iff in E. destruct E as [Ei Ej].
      apply Nat.eqb_eq in Ei. apply Nat.leb_le in Ej.
      intros H. inversion H; subst. f_equal; lia.
  - split.
    + intros H. inversion H; subst.
      rewrite Nat.add_0_r, Nat.eqb_refl. simpl.
      replace (v_i x <=? v_i x + k) with true
        by (symmetry; apply Nat.leb_le; lia).
      f_equal. lia.
    + destruct ((j =? v_j x) && (v_i x <=? i)) eqn:E; [|discriminate].
      apply andb_true_iff in E. destruct E as [Ej Ei].
      apply Nat.eqb_eq in Ej. apply Nat.leb_le in Ei.
      intros H. inversion H; subst. f_equal; lia.
Qed.

Lemma string_get_overflow (s : string) (n : nat) :
  String.length s <= n -> String.get n s = None.
Proof.
  revert n. induction s as [|c s IH]; intros n Hn; simpl in *.
  - now destruct n.
  - destruct n as [|n]; [lia|]. apply IH. lia.
Qed.

Lemma nth_list_update_other A (l : list A) n m a default :
  n <> m -> nth m (list_update n a l) default = nth m l default.
Proof.
  revert n m.
  induction l as [|b l IH]; intros [|n] [|m] H; simpl; auto; try congruence.
Qed.

Lemma list_update_In A (l : list A) n a x :
  In x (list_update n a l) -> x = a \/ In x l.
Proof.
  revert n. induction l as [|b l IH]; intros [|n]; simpl; auto.
  - intros [<-|H]; auto.
  - intros [<-|H]; auto. destruct (IH n H); auto.
Qed.

Lemma shaped_row height width letters i row :
  shaped height width letters -> nth_error letters i = Some row ->
  i < height /\ List.length row = width /\ nth i letters [] = row.
Proof.
  intros [Hh Hw] Hi. split; [|split].
  - rewrite <- Hh. apply nth_error_Some. congruence.
  - apply Hw. eapply nth_error_In; eauto.
  - now apply nth_error_nth.
Qed.

(** A store inside the grid changes the one cell. *)
Lemma grid_store_inside height width letters i j c :
  shaped height width letters -> i < height -> j < width ->
  exists letters',
    grid_store i j c letters = Ok letters'
    /\ shaped height width letters'
    /\ forall i' j',
         cell letters' i' j'
         = if (i' =? i) && (j' =? j) then Some c else cell letters i' j'.
Proof.
  intros Hs Hi Hj. unfold grid_store.
  destruct (nth_error letters i) as [row|] eqn:Er.
  2:{ apply nth_error_None in Er. destruct Hs as [Hh _]. lia. }
  destruct (shaped_row _ _ _ _ _ Hs Er) as (_ & Hrow & Hnth).
  replace (j <? List.length row) with true
    by (symmetry; apply Nat.ltb_lt; lia).
  eexists. split; [reflexivity|]. split.
  - destruct Hs as [Hh Hw]. split.
    + now rewrite list_update_length.
    + intros r Hr. apply list_update_In in Hr. destruct Hr as [->|Hr].
      * now rewrite list_update_length.
      * now apply Hw.
  - intros i' j'. unfold cell.
    destruct (Nat.eqb_spec i' i) as [->|Hne]; simpl.
    + rewrite nth_list_update by (destruct Hs; lia).
      destruct (Nat.eqb_spec j' j) as [->|Hnj].
      * apply nth_list_update. lia.
      * rewrite nth_list_update_other by congruence. now rewrite Hnth.
    + rewrite nth_list_update_other by congruence. reflexivity.
Qed.

Lemma grid_store_outside height width letters i j c :
  shaped height width letters -> (i <? height) && (j <? width) = false ->
  grid_store i j c letters = Raise IndexError.
Proof.
  intros Hs Hout. unfold grid_store.
  destruct (nth_error letters i) as [row|] eqn:Er; [|reflexivity].
  destruct (shaped_row _ _ _ _ _ Hs Er) as (Hi & Hrow & _).
  rewrite Hrow. apply Nat.ltb_lt in Hi. rewrite Hi in Hout. simpl in Hout.
  now rewrite Hout.
Qed.

(** Writing the letters [s], ..., [s + n - 1] of a word. *)
Lemma letter_grid_word_inside height width x word n :
  forall s letters,
    shaped height width letters -> s + n <= String.length word ->
    inside height width x s n = true ->
    exists letters',
      letter_grid_word x word (seq s n) letters = Ok letters'
      /\ shaped height width letters'
      /\ forall i j,
           cell letters' i j
           = match offset x i j with
             | Some k => if (s <=? k) && (k <? s + n)
                         then String.get k word else cell letters i j
             | None => cell letters i j
             end.
Proof.
  induction n as [|n IH]; intros s letters Hs Hlen Hin.
  - exists letters. split; [reflexivity|]. split; [exact Hs|].
    intros i j. destruct (offset x i j) as [k|]; auto.
    replace (k <? s + 0) with (k <? s) by (f_equal; lia).
    destruct (Nat.leb_spec s k), (Nat.ltb_spec k s); simpl; auto; lia.
  - unfold inside in Hin. cbn [seq forallb] in Hin.
    apply andb_true_iff in Hin.
    destruct Hin as [Hk Hrest]. apply andb_true_iff in Hk.
    destruct Hk as [Hi Hj]. apply Nat.ltb_lt in Hi. apply Nat.ltb_lt in Hj.
    cbn [seq letter_grid_word].
    destruct (position x s) as [i0 j0] eqn:Ep. cbn [fst snd] in Hi, Hj.
    destruct (string_get_in_range word s) as [c Hc]; [lia|]. rewrite Hc.
    destruct (grid_store_inside height width letters i0 j0 c Hs Hi Hj)
      as (letters1 & Hst & Hs1 & Hcell1).
    rewrite Hst.
    destruct (IH (S s) letters1 Hs1) as (letters' & Hrun & Hs' & Hcell');
      [lia|exact Hrest|].
    exists letters'. split; [exact Hrun|]. split; [exact Hs'|].
    intros i j. rewrite Hcell', Hcell1.
    destruct (offset x i j) as [k|] eqn:Eo.
    + apply position_offset in Eo.
      destruct (Nat.eq_dec k s) as [->|Hks].
      * rewrite Ep in Eo. inversion Eo; subst. rewrite !Nat.eqb_refl.
        rewrite (proj2 (Nat.leb_gt (S s) s)) by lia.
        rewrite Nat.leb_refl.
        rewrite (proj2 (Nat.ltb_lt s (s + S n))) by lia.
        cbn [andb]. now rewrite Hc.
      * assert ((i =? i0) && (j =? j0) = false) as Hother.
        { destruct (Nat.eqb_spec i i0) as [->|]; auto.
          destruct (Nat.eqb_spec j j0) as [->|]; auto. exfalso.
          pose proof (proj1 (position_offset x k i0 j0) Eo) as H1.
          pose proof (proj1 (position_offset x s i0 j0) Ep) as H2.
          congruence. }
        rewrite Hother.
        replace (k <? S s + n) with (k <? s + S n) by (f_equal; lia).
        destruct (Nat.leb_spec (S s) k), (Nat.leb_spec s k); simpl; auto;
          lia.
    + destruct ((i =? i0) && (j =? j0)) eqn:E; auto.
      apply andb_true_iff in E. destruct E as [Ei Ej].
      apply Nat.eqb_eq in Ei. apply Nat.eqb_eq in Ej. subst.
      apply position_offset in Ep. congruence.
Qed.

Lemma letter_grid_word_outside height width x word n :
  forall s letters,
    shaped height width letters -> s + n <= String.length word ->
    inside height width x s n = false ->
    letter_grid_word x word (seq s n) letters = Raise IndexError.
Proof.
  induction n as [|n IH]; intros s letters Hs Hlen Hout;
    [discriminate|].
  unfold inside in Hout. cbn [seq forallb] in Hout.
  cbn [seq letter_grid_word].
  destruct (position x s) as [i0 j0] eqn:Ep. cbn [fst snd] in Hout.
  destruct (string_get_in_range word s) as [c Hc]; [lia|]. rewrite Hc.
  destruct ((i0 <? height) && (j0 <? width)) eqn:E.
  - apply andb_true_iff in E. destruct E as [Hi Hj].
    apply Nat.ltb_lt in Hi. apply Nat.ltb_lt in Hj.
    destruct (grid_store_inside height width letters i0 j0 c Hs Hi Hj)
      as (letters1 & Hst & Hs1 & _).
    rewrite Hst. apply IH; auto. lia.
  - now rewrite (grid_store_outside height width letters i0 j0 c Hs E).
Qed.

Lemma letter_grid_loop_inside height width (items : Assignment) :
  forall letters,
    shaped height width letters ->
    forallb (fun kv => inside height width (fst kv) 0
                              (String.length (snd kv))) items = true ->
    exists letters',
      letter_grid_loop items letters = Ok letters'
      /\ shaped height width letters'
      /\ forall i j, cell letters' i j = shown items i j (cell letters i j).
Proof.
  induction items as [|[x word] rest IH]; intros letters Hs Hin.
  - exists letters. repeat split; auto; apply Hs.
  - simpl in Hin. apply andb_true_iff in Hin. destruct Hin as [Hx Hrest].
    destruct (letter_grid_word_inside height width x word
                (String.length word) 0 letters Hs (le_n _) Hx)
      as (letters1 & Hrun & Hs1 & Hcell1).
    destruct (IH letters1 Hs1 Hrest) as (letters' & Hrun' & Hs' & Hcell').
    exists letters'. cbn [letter_grid_loop]. rewrite Hrun.
    split; [exact Hrun'|]. split; [exact Hs'|].
    intros i j. rewrite Hcell', Hcell1. cbn [shown]. f_equal.
    unfold cell_letter. destruct (offset x i j) as [k|]; auto.
    simpl. destruct (Nat.ltb_spec k (String.length word)) as [Hk|Hk].
    + destruct (string_get_in_range word k Hk) as [c ->]. reflexivity.
    + now rewrite (string_get_overflow word k Hk).
Qed.

Lemma letter_grid_loop_outside height width (items : Assignment) :
  forall letters,
    shaped height width letters ->
    forallb (fun kv => inside height width (fst kv) 0
                              (String.length (snd kv))) items = false ->
    letter_grid_loop items letters = Raise IndexError.
Proof.
  induction items as [|[x word] rest IH]; intros letters Hs Hout;
    [discriminate|].
  simpl in Hout. cbn [letter_grid_loop].
  destruct (inside height width x 0 (String.length word)) eqn:Ex.
  - destruct (letter_grid_word_inside height width x word
                (String.length word) 0 letters Hs (le_n _) Ex)
      as (letters1 & Hrun & Hs1 & _).
    rewrite Hrun. now apply IH.
  - now rewrite (letter_grid_word_outside height width x word
                   (String.length word) 0 letters Hs (le_n _) Ex).
Qed.

Lemma blank_shaped height width :
  shaped height width (repeat (repeat (@None ascii) width) height).
Proof.
  split; [apply repeat_length|].
  intros row Hr. apply repeat_spec in Hr. subst. apply repeat_length.
Qed.

Lemma blank_cell height width i j :
  cell (repeat (repeat None width) height) i j = None.
Proof.
  unfold cell.
  pose proof (repeat_length (repeat (@None ascii) width) height) as Hlen.
  destruct (Nat.lt_ge_cases i height) as [Hi|Hi].
  - rewrite <- Hlen in Hi.
    rewrite (nth_indep _ [] (repeat None width) Hi).
    rewrite nth_repeat. apply nth_repeat.
  - rewrite <- Hlen in Hi. rewrite (nth_overflow _ [] Hi). now destruct j.
Qed.

(** X16: when [letter_grid] returns, the grid has [height] rows of [width]
    cells, and each cell holds the letter of the last entry of the
    assignment whose word covers it, or None when no word covers it. *)
Theorem letter_grid_shows height width (a : Assignment) letters :
  letter_grid height width a = Ok letters ->
  shaped height width letters
  /\ forall i j, cell letters i j = shown a i j None.
Proof.
  intros H. unfold letter_grid in H.
  destruct (forallb (fun kv => inside height width (fst kv) 0
                                      (String.length (snd kv))) a) eqn:E.
  - destruct (letter_grid_loop_inside height width a _
                (blank_shaped height width) E)
      as (letters' & Hrun & Hs & Hcell).
    rewrite Hrun in H. inversion H; subst letters'. split; [exact Hs|].
    intros i j. rewrite Hcell. now rewrite blank_cell.
  - rewrite (letter_grid_loop_outside height width a _
               (blank_shaped height width) E) in H.
    discriminate.
Qed.

Lemma letter_grid_shows_witness :
  shaped 3 3
    [[None; Some "t"%char; None];
     [Some "c"%char; Some "a"%char; Some "t"%char];
     [None; Some "r"%char; None]]
  /\ forall i j,
       cell [[None; Some "t"%char; None];
             [Some "c"%char; Some "a"%char; Some "t"%char];
             [None; Some "r"%char; None]] i j
       = shown [(Puzzle.across, "cat"%string); (Puzzle.down, "tar"%string)]
               i j None.
Proof.
  apply (letter_grid_shows 3 3
           [(Puzzle.across, "cat"%string); (Puzzle.down, "tar"%string)]).
  reflexivity.
Defined.

(** X17: [letter_grid] raises IndexError exactly when a letter of some
    entry falls outside the grid; otherwise it returns a grid. *)
Theorem letter_grid_raises height width (a : Assignment) :
  (letter_grid height width a = Raise IndexError
   <-> exists x word,
         In (x, word) a
         /\ inside height width x 0 (String.length word) = false)
  /\ (letter_grid height width a = Raise IndexError
      \/ exists letters, letter_grid height width a = Ok letters).
Proof.
  unfold letter_grid.
  destruct (forallb (fun kv => inside height width (fst kv) 0
                                      (String.length (snd kv))) a) eqn:E.
  - destruct (letter_grid_loop_inside height width a _
                (blank_shaped height width) E) as (letters' & Hrun & _).
    rewrite Hrun. split; [|right; eauto]. split; [discriminate|].
    intros (x & word & Hin & Hout). rewrite forallb_forall in E.
    specialize (E _ Hin). simpl in E. congruence.
  - rewrite (letter_grid_loop_outside height width a _
               (blank_shaped height width) E).
    split; [|left; reflexivity].
    split; [|reflexivity]. intros _.
    apply forallb_false in E. destruct E as ([x word] & Hin & Hout).
    exists x, word. auto.
Qed.

(* ------------------------------------------------------------------ *)
(** * The two searches compared *)
(* ------------------------------------------------------------------ *)

Section ReturnedKeys.
Variable cw : Crossword.

Lemma keys_ok_set (a : Assignment) x v :
  keys_ok cw a -> In x (variables cw) -> dict_mem a x = false ->
  keys_ok cw (dict_set a x v).
Proof.
  intros [Hnd Hin] Hx Hmem. apply dict_mem_false in Hmem.
  rewrite (dict_set_fresh _ a x v Hmem). split.
  - now apply dict_keys_fresh.
  - intros k Hk. unfold dict_keys in Hk. rewrite map_app in Hk.
    apply in_app_or in Hk. destruct Hk as [Hk|[<-|[]]]; auto.
Qed.

Lemma backtrack_ac3_try_keys recurse (a : Assignment) variable domains_copy
      value n :
  (forall a w res w',
      world_inv cw n w -> keys_ok cw a ->
      recurse a w = (Ok res, w') ->
      world_inv cw n w' /\ forall r, res = Some r -> keys_ok cw r) ->
  domains_copy < n -> keys_ok cw (dict_set a variable value) ->
  In variable (variables cw) -> In value (words cw) ->
  forall w res w',
    world_inv cw n w ->
    backtrack_ac3_try cw recurse a variable domains_copy value w
    = (Ok res, w') ->
    world_inv cw n w' /\ forall r, res = Some r -> keys_ok cw r.
Proof.
  intros Hrec Hdc Ha1 Hvar Hval w res w' Hw H.
  unfold backtrack_ac3_try in H.
  bind_inv H as u w1 Hi. inversion Hi; subst. clear Hi.
  bind_inv H as ok w2 Hc. unfold lift in Hc.
    injection Hc as Hc0 Hw2. subst w2.
  bind_inv H as r0 w3 Hbody.
  assert (world_inv cw n
            {| objects := objects w; self_domains := self_domains w;
               BACKTRACK_COUNTER := BACKTRACK_COUNTER w;
               WORDS_TESTED := S (WORDS_TESTED w) |}) as Hw1 by exact Hw.
  assert (world_inv cw n w3 /\
          forall r1, r0 = Some r1 -> keys_ok cw r1) as [Hw3 Hr0].
  { destruct ok.
    - bind_inv Hbody as u1 w4 Hset.
      assert (world_inv cw n w4) as Hw4.
      { eapply (through_domains_inv cw _ _ (fun _ => True) n);
          [|exact Hw1|exact Hset].
        intros d u d' Hd Hs. inversion Hs; subst. split; auto.
        apply store_ok_set_var; auto.
        intros v [<-|[]]. exact Hval. }
      bind_inv Hbody as b w5 Hac3.
      assert (world_inv cw n w5) as Hw5.
      { eapply (through_domains_inv cw _ _ (fun _ => True) n);
          [|exact Hw4|exact Hac3].
        intros d b' d' Hd Hs. split; auto. eapply ac3_store_ok; eauto. }
      bind_inv Hbody as result w6 Hcall. inversion Hbody; subst.
      destruct (Hrec _ _ _ _ Hw5 Ha1 Hcall) as [Hw6 Hres].
      split; auto. intros r1 Hr1. apply truthy_result in Hr1. auto.
    - inversion Hbody; subst. split; [exact Hw1|discriminate]. }
  destruct r0 as [a'|].
  - inversion H; subst. split; [exact Hw3|].
    intros r Hr. inversion Hr; subst. auto.
  - bind_inv H as u2 w4 Hre. inversion Hre; subst. inversion H; subst.
    split; [|discriminate].
    destruct Hw3 as [[Hp Hf] Hn]. repeat split; simpl; auto. lia.
Qed.

Lemma backtrack_ac3_loop_keys recurse (a : Assignment) variable domains_copy
      n :
  (forall a w res w',
      world_inv cw n w -> keys_ok cw a ->
      recurse a w = (Ok res, w') ->
      world_inv cw n w' /\ forall r, res = Some r -> keys_ok cw r) ->
  domains_copy < n -> In variable (variables cw) ->
  keys_ok cw a -> dict_mem a variable = false ->
  forall vals w res w',
    world_inv cw n w ->
    (forall v, In v vals -> In v (words cw)) ->
    backtrack_ac3_loop cw recurse a variable domains_copy vals w
    = (Ok res, w') ->
    world_inv cw n w' /\ forall r, res = Some r -> keys_ok cw r.
Proof.
  intros Hrec Hdc Hvar Ha Hmem.
  induction vals as [|value rest IH]; intros w res w' Hw Hvals H.
  - simpl in H. inversion H; subst. split; [exact Hw|discriminate].
  - cbn [backtrack_ac3_loop] in H. bind_inv H as r0 w1 Htry.
    destruct (backtrack_ac3_try_keys recurse a variable domains_copy value n
                Hrec Hdc (keys_ok_set a variable value Ha Hvar Hmem) Hvar
                (Hvals _ (or_introl eq_refl)) _ _ _ Hw Htry)
      as [Hw1 Hr0].
    destruct r0 as [a'|].
    + inversion H; subst. split; [exact Hw1|].
      intros r Hr. inversion Hr; subst. auto.
    + rewrite (dict_del_fresh _ a variable value (dict_mem_false _ a _ Hmem))
        in H.
      eapply IH; [exact Hw1| |exact H].
      intros v Hv. apply Hvals. now right.
Qed.

Lemma backtrack_ac3_keys fuel :
  forall a n w res w',
    world_inv cw n w -> keys_ok cw a ->
    backtrack_ac3 cw fuel a w = (Ok res, w') ->
    world_inv cw n w' /\ forall r, res = Some r -> keys_ok cw r.
Proof.
  induction fuel as [|fuel IH]; intros a n w res w' Hw Ha H.
  - discriminate.
  - cbn [backtrack_ac3] in H.
    bind_inv H as u w1 Hi. inversion Hi; subst. clear Hi.
    assert (world_inv cw n
              {| objects := objects w; self_domains := self_domains w;
                 BACKTRACK_COUNTER := S (BACKTRACK_COUNTER w);
                 WORDS_TESTED := WORDS_TESTED w |}) as Hw1 by exact Hw.
    bind_inv H as b w2 Hcomp.
    assert (world_inv cw n w2 /\ True) as [Hw2 _].
    { eapply (through_domains_inv cw _ _ (fun _ => True) n);
        [|exact Hw1|exact Hcomp].
      intros d b' d' Hd Hs. apply assignment_complete_Ok in Hs.
      destruct Hs as [-> ->]. split; auto. }
    destruct b.
    + inversion H; subst. split; [exact Hw2|].
      intros r Hr. inversion Hr; subst. exact Ha.
    + bind_inv H as variable w3 Hsel.
      assert (world_inv cw n w3
              /\ (In variable (variables cw)
                  /\ dict_mem a variable = false)) as (Hw3 & Hvar & Hmem).
      { eapply (through_domains_inv cw _ _
                  (fun v => In v (variables cw) /\ dict_mem a v = false) n);
          [|exact Hw2|exact Hsel].
        intros d v d' Hd Hs. apply select_unassigned_variable_Ok in Hs.
        destruct Hs as (-> & Hin & Hm). split; auto. split; auto.
        destruct Hd as [Hk _]. now rewrite <- Hk. }
      bind_inv H as domains_copy w4 Hcopy.
      destruct (deepcopy_domains_inv cw _ _ _ _ Hw3 Hcopy) as [Hw4 Hdc].
      bind_inv H as vals w5 Hord.
      assert (world_inv cw (Nat.max n (S domains_copy)) w4) as Hw4'.
      { destruct Hw4 as [Hok Hn]. split; auto. lia. }
      assert (world_inv cw (Nat.max n (S domains_copy)) w5
              /\ forall v, In v vals -> In v (words cw)) as [Hw5 Hvals].
      { eapply (through_domains_inv cw _ _
                  (fun vals => forall v, In v vals -> In v (words cw))
                  (Nat.max n (S domains_copy)));
          [|exact Hw4'|exact Hord].
        intros d vs d' Hd Hs. apply order_domain_values_Ok in Hs.
        destruct Hs as (-> & D & HD & Hin). split; auto.
        intros v Hv. apply Hin in Hv.
        now apply (proj2 (store_ok_get _ _ _ _ Hd HD)). }
      assert (world_inv cw (Nat.max n (S domains_copy)) w'
              /\ forall r, res = Some r -> keys_ok cw r) as [Hw' Hres].
      { eapply (backtrack_ac3_loop_keys (backtrack_ac3 cw fuel) a variable
                  domains_copy (Nat.max n (S domains_copy)));
          [| | exact Hvar | exact Ha | exact Hmem | exact Hw5 | exact Hvals
           | exact H].
        - intros a0 w0 res0 w0' Hw0 Ha0 Hrun. eapply IH; eauto.
        - lia. }
      split; auto. eapply world_inv_weaken; eauto. lia.
Qed.

End ReturnedKeys.

(** X18: the interleaved search is never more successful than the plain
    one.  On a puzzle whose overlap indices lie inside the slots, when
    [solve(True)] returns an assignment, [solve(False)] returns an
    assignment too, and it is complete, consistent and over the word
    list. *)
Theorem interleaved_within_plain cw (a : Assignment) :
  overlaps_in_range cw = true ->
  fst (solve cw true (init cw)) = Ok (Some a) ->
  exists r,
    fst (solve cw false (init cw)) = Ok (Some r)
    /\ complete cw r /\ consistent cw r = Ok true /\ uses_words cw r.
Proof.
  intros Hrange H.
  destruct (solve cw true (init cw)) as [o w'] eqn:E.
  simpl in H. subst o.
  apply solve_prepares in E. destruct E as (w & Hw & Hrun).
  unfold negb in Hrun.
  assert (uses_words cw []) as Hnil by constructor.
  destruct (proj2 (backtrack_ac3_sound cw _ _ _ _ _ _ Hw (consistent_empty cw)
                     Hnil Hrun) a eq_refl) as (Hcomplete & Hcons & Hwords).
  assert (keys_ok cw []) as Hempty.
  { split; [constructor|intros x []]. }
  destruct (proj2 (backtrack_ac3_keys cw _ _ _ _ _ _ Hw Hempty Hrun)
              a eq_refl) as [Hnd Hkeys].
  apply (plain_search_finds cw a); auto.
  intros x v Hin. apply Hkeys. unfold dict_keys.
  apply in_map_iff. exists (x, v). auto.
Qed.

Lemma interleaved_within_plain_witness :
  exists r,
    fst (solve (Puzzle.cross ["cat"; "tar"]%string) false
               (init (Puzzle.cross ["cat"; "tar"]%string))) = Ok (Some r)
    /\ complete (Puzzle.cross ["cat"; "tar"]%string) r
    /\ consistent (Puzzle.cross ["cat"; "tar"]%string) r = Ok true
    /\ uses_words (Puzzle.cross ["cat"; "tar"]%string) r.
Proof.
  apply (interleaved_within_plain (Puzzle.cross ["cat"; "tar"]%string)
           [(Puzzle.across, "cat"%string); (Puzzle.down, "tar"%string)]).
  - reflexivity.
  - vm_compute. reflexivity.
Defined.
